(** * Jasper (Chainer): the sequence-length-aware audio pipeline

    A shallow embedding of the parts of
    [chainer_/chainercv2/models/jasper.py] that carry the length and
    masking bookkeeping: the greedy CTC decoder, the mel-spectrogram
    extractor's frame accounting and batching, the masked 1-D convolution,
    and the dense-residual unit.

    Conventions.
    - Python integers and the entries of NumPy integer vectors are values
      of [Z]; the floor division [//] is [Z.div] (both round towards minus
      infinity, whatever the sign of the divisor).  Valid lengths are
      bounded by the time axis of a tensor; [out_len64_agrees] shows that
      64-bit arithmetic gives the same lengths on that range.
    - Tensor entries are values of [Z].  The statements below concern
      shapes, positions and which entries are zero, never rounding.
    - A Python exception is a value [Err e] of the type [result]. *)

From stdpp Require Import base numbers list option strings gmap.
From Stdlib Require Import ZArith QArith Qround Lia.

#[local] Open Scope Z_scope.

(** ** Exceptions *)

Inductive error : Set :=
  | AssertionError
  | IndexError
  | KeyError
  | TypeError
  | ValueError
  | ZeroDivisionError.

Inductive result (A : Type) : Type :=
  | Ok (a : A)
  | Err (e : error).
Arguments Ok {A} a.
Arguments Err {A} e.

#[export] Instance result_ret : MRet result := λ A a, Ok a.
#[export] Instance result_bind : MBind result := λ A B f m,
  match m with
  | Ok a => f a
  | Err e => Err e
  end.
#[export] Instance result_fmap : FMap result := λ A B f m,
  match m with
  | Ok a => Ok (f a)
  | Err e => Err e
  end.

Definition is_Ok {A} (m : result A) : Prop := ∃ a, m = Ok a.

(** [d[k]] on a Python dict: a missing key raises [KeyError]. *)
Definition dict_get {V} (d : gmap Z V) (k : Z) : result V :=
  match d !! k with
  | Some v => Ok v
  | None => Err KeyError
  end.

(** [l[0]] on a Python list: the empty list raises [IndexError]. *)
Definition list_first {A} (l : list A) : result A :=
  match l with
  | a :: _ => Ok a
  | [] => Err IndexError
  end.

(** ** The greedy CTC decoder (class [CtcDecoder]) *)

Module CtcDecoder.

Record t : Type := {
  blank_id : Z;
  labels_map : gmap Z string;
}.

(** [__init__]: [blank_id = len(vocabulary)] and
    [labels_map = dict([(i, vocabulary[i]) for i in range(len(vocabulary))])]. *)
Definition init (vocabulary : list string) : t := {|
  blank_id := Z.of_nat (length vocabulary);
  labels_map := list_to_map (imap (λ i c, (Z.of_nat i, c)) vocabulary);
|}.

(** One turn of the inner loop of [__call__], on the pair
    [(decoded_prediction, previous)]. *)
Definition step (blank : Z) (st : list Z * Z) (p : Z) : list Z * Z :=
  let '(decoded_prediction, previous) := st in
  (if (negb (p =? previous) || (previous =? blank)) && negb (p =? blank)
   then decoded_prediction ++ [p]
   else decoded_prediction,
   p).

(** The list [decoded_prediction] when the inner loop is over. *)
Definition decoded_prediction (blank : Z) (prediction : list Z) : list Z :=
  fst (fold_left (step blank) prediction ([], blank)).

(** ["".join(...)] *)
Definition join (parts : list string) : string :=
  foldr String.append EmptyString parts.

(** The body of the outer loop: one hypothesis. *)
Definition hypothesis (self : t) (prediction : list Z) : result string :=
  join <$> mapM (dict_get (labels_map self))
                (decoded_prediction (blank_id self) prediction).

(** [__call__] *)
Definition call (self : t) (predictions : list (list Z)) : result (list string) :=
  mapM (hypothesis self) predictions.

(** The collapse rule in the words of the specification: with
    [previous] the frame before, [p] is kept iff [p != blank] and
    ([p != previous] or [previous == blank]); [previous] becomes [p]
    whether [p] was kept or not. *)
Fixpoint collapse_from (blank previous : Z) (frames : list Z) : list Z :=
  match frames with
  | [] => []
  | p :: rest =>
      if negb (p =? blank) && (negb (p =? previous) || (previous =? blank))
      then p :: collapse_from blank p rest
      else collapse_from blank p rest
  end.

Definition collapse (blank : Z) (frames : list Z) : list Z :=
  collapse_from blank blank frames.

End CtcDecoder.

(** ** Arrays

    An array is its shape together with its entries.  Every operation
    below builds its result with [mk_matrix] or [mk_tensor] from a function
    of the indices and reads its arguments with [mget] or [get], so that
    results are rectangular by construction. *)

Definition tabulate {A} (n : nat) (f : nat → A) : list A := f <$> seq 0 n.

(** A 2-D array, [channels x frames]. *)
Record matrix : Type := Matrix {
  mshape : nat * nat;
  mdata : list (list Z);
}.

Definition rows (m : matrix) : nat := (mshape m).1.
Definition cols (m : matrix) : nat := (mshape m).2.

Definition mk_matrix (C T : nat) (f : nat → nat → Z) : matrix :=
  Matrix (C, T) (tabulate C (λ c, tabulate T (λ t, f c t))).

Definition mget (m : matrix) (c t : nat) : Z :=
  default 0 (row ← mdata m !! c; row !! t).

(** A 3-D array, [batch x channels x time]. *)
Record tensor : Type := Tensor {
  shape : nat * nat * nat;
  data : list (list (list Z));
}.

Definition dim0 (x : tensor) : nat := (shape x).1.1.
Definition dim1 (x : tensor) : nat := (shape x).1.2.
Definition dim2 (x : tensor) : nat := (shape x).2.

Definition mk_tensor (B C T : nat) (f : nat → nat → nat → Z) : tensor :=
  Tensor (B, C, T)
    (tabulate B (λ i, tabulate C (λ c, tabulate T (λ t, f i c t)))).

Definition get (x : tensor) (i c t : nat) : Z :=
  default 0 (row ← (item ← data x !! i; item !! c); row !! t).

(** The tensor whose entries are listed, of the shape given. *)
Definition of_lists (B C T : nat) (l : list (list (list Z))) : tensor :=
  mk_tensor B C T (get (Tensor (B, C, T) l)).

(** A tensor is canonical when its entries are those its shape
    announces; every result of [mk_tensor] is. *)
Definition canonical (x : tensor) : Prop :=
  x = mk_tensor (dim0 x) (dim1 x) (dim2 x) (get x).

(** The size of the slice [a[:stop]] of an axis of size [n]. *)
Definition slice_stop (stop : Z) (n : nat) : nat :=
  if decide (0 ≤ stop) then Z.to_nat stop `min` n
  else Z.to_nat (Z.of_nat n + stop).

(** NumPy broadcasting of two sizes of one axis. *)
Definition broadcast_dim (m n : nat) : result nat :=
  if decide (m = n) then Ok m
  else if decide (m = 1%nat) then Ok n
  else if decide (n = 1%nat) then Ok m
  else Err ValueError.

(** The index read in an axis of size [dim] that is being broadcast. *)
Definition bidx (dim i : nat) : nat := if decide (dim = 1%nat) then 0%nat else i.

(** ** The mel-spectrogram extractor (class [NemoMelSpecExtractor]) *)

Module NemoMelSpecExtractor.

Record t : Type := {
  hop_length : Z;
  n_fft : Z;
  n_filters : nat;
  pad_align : Z;
}.

(** [__init__], as far as the frame accounting goes: [hop_length] is
    [int(window_stride_sec * sample_rate)] and [pad_align] is 16.  The
    length of the window, [int(window_size_sec * sample_rate)], is not
    kept: the transform refuses a window that is longer than [n_fft] at
    every call, so that the record stands for the extractors whose
    [n_fft] is the length of the window at least, as with the default
    arguments (a window of 320 samples and 512 FFT bins). *)
Definition init (hop_length n_fft : Z) (n_filters : nat) : t := {|
  hop_length := hop_length;
  n_fft := n_fft;
  n_filters := n_filters;
  pad_align := 16;
|}.

(** The default arguments: 16 kHz, a stride of 0.01 s, 512 FFT bins,
    64 filters. *)
Definition default : t := init 160 512 64.

(** [np.ceil(float(n) / self.hop_length).astype(np.long)].  The quotient
    is taken in the rationals: for lengths below 2^53 the binary64
    quotient lies on the same side of every integer as the exact one. *)
Definition frame_count (self : t) (n : nat) : result Z :=
  if decide (hop_length self = 0) then Err ZeroDivisionError
  else Ok (Qceiling (inject_Z (Z.of_nat n) / inject_Z (hop_length self))).

(** The number of columns [librosa.stft] returns with [center=True]: the
    signal is padded by [n_fft // 2] samples on both sides and cut into
    frames of [n_fft] samples every [hop_length] samples. *)
Definition stft_frames (self : t) (n : nat) : nat :=
  Z.to_nat (1 + (Z.of_nat n + 2 * (n_fft self / 2) - n_fft self) / hop_length self).

Section Call.
(** The floating-point side of the loop body (dithering, pre-emphasis,
    STFT, mel projection, logarithm, normalisation) is a parameter:
    [mel_value xi c t] is the entry of item [xi]'s normalised log-mel
    matrix in channel [c] and frame [t]. *)
Context {sample : Type}.
Variable mel_value : list sample → nat → nat → Z.

Definition log_mel (self : t) (xi : list sample) : matrix :=
  mk_matrix (n_filters self) (stft_frames self (length xi)) (mel_value xi).

(** One turn of the first loop: the item's valid length and matrix.  A
    signal without samples is rejected: the transform pads the signal by
    reflection, which NumPy refuses with the error recorded here;
    releases of the transform that pad otherwise return one frame for
    it, and the assertion fails. *)
Definition item (self : t) (xi : list sample) : result (Z * matrix) :=
  x_len_i ← frame_count self (length xi);
  if decide (xi = []) then Err ValueError
  else
    let yi := log_mel self xi in
    if decide (cols yi = 1%nat) then Err AssertionError
    else Ok (x_len_i, yi).

(** [x[i, :, :x_len_i] = yi[:, :x_len_i]]: the right-hand side must
    have the shape of the left-hand side, up to broadcasting of an
    axis of size one. *)
Definition assign_item (x : tensor) (i : nat) (x_len_i : Z) (yi : matrix)
    : result tensor :=
  let lhs_cols := slice_stop x_len_i (dim2 x) in
  let rhs_cols := slice_stop x_len_i (cols yi) in
  if decide ((rows yi = dim1 x ∨ rows yi = 1%nat) ∧
             (rhs_cols = lhs_cols ∨ rhs_cols = 1%nat))
  then Ok (mk_tensor (dim0 x) (dim1 x) (dim2 x) (λ j c t,
             if decide (j = i ∧ (t < lhs_cols)%nat)
             then mget yi (bidx (rows yi) c) (bidx rhs_cols t)
             else get x j c t))
  else Err ValueError.

(** The second loop, over [enumerate(ys)]. *)
Fixpoint fill (x : tensor) (i : nat) (items : list (Z * matrix))
    : result tensor :=
  match items with
  | [] => Ok x
  | (x_len_i, yi) :: rest =>
      x' ← assign_item x i x_len_i yi;
      fill x' (S i) rest
  end.

(** [np.pad(x, ((0, 0), (0, 0), (0, n)))] *)
Definition pad_time (x : tensor) (n : nat) : tensor :=
  mk_tensor (dim0 x) (dim1 x) (dim2 x + n) (λ i c t,
    if decide (t < dim2 x)%nat then get x i c t else 0).

(** [__call__] *)
Definition call (self : t) (xs : list (list sample))
    : result (tensor * list Z) :=
  items ← mapM (item self) xs;
  let x_len := items.*1 in
  let ys := items.*2 in
  y0 ← list_first ys;
  let channels := rows y0 in
  let x_len_max := max_list (cols <$> ys) in
  let x := mk_tensor (length xs) channels x_len_max (λ _ _ _, 0) in
  x ← fill x 0 items;
  let pad_rem := Z.of_nat x_len_max `mod` pad_align self in
  let x := if decide (pad_rem ≠ 0)
           then pad_time x (Z.to_nat (pad_align self - pad_rem))
           else x in
  Ok (x, x_len).

(** What the specification describes instead: item [i]'s whole matrix,
    followed by zeros up to [T] frames. *)
Definition right_padded (ys : list matrix) (C T : nat) : tensor :=
  mk_tensor (length ys) C T (λ i c t,
    match ys !! i with
    | Some yi => if decide (t < cols yi)%nat then mget yi c t else 0
    | None => 0
    end).

End Call.

(** An item fits a tensor when its matrix has the channels of the
    tensor and its valid length is within its frames, which are within
    the time axis of the tensor. *)
Definition fits (x : tensor) (it : Z * matrix) : Prop :=
  rows it.2 = dim1 x ∧ 0 ≤ it.1 ∧
  (Z.to_nat it.1 ≤ cols it.2)%nat ∧ (cols it.2 ≤ dim2 x)%nat.

(** The size of the time axis that is returned for a greatest number of
    frames [m]. *)
Definition aligned (self : t) (m : nat) : nat :=
  if decide (Z.of_nat m `mod` pad_align self ≠ 0)
  then (m + Z.to_nat (pad_align self - Z.of_nat m `mod` pad_align self))%nat
  else m.

End NemoMelSpecExtractor.

(** ** The masked 1-D convolution (class [MaskConv1d])

    The entries of the arrays are taken as numbers, without rounding,
    infinities or NaN, and the lengths as integers; the part on float32
    entries and int64 lengths below has both. *)

(** [sum(f(i) for i in range(n))] *)
Definition sum_upto (n : nat) (f : nat → Z) : Z :=
  foldr (λ i acc, f i + acc) 0 (seq 0 n).

(** The output size of the framework's convolution along the time axis. *)
Definition conv_outsize (size k s p d : Z) : Z :=
  (size + 2 * p - d * (k - 1) - 1) / s + 1.

(** The entry of [x] at time [t], with the zero padding of the convolution
    outside of [0, x.shape[2])]. *)
Definition get_padded (x : tensor) (i c : nat) (t : Z) : Z :=
  if decide (0 ≤ t < Z.of_nat (dim2 x)) then get x i c (Z.to_nat t) else 0.

(** [F.convolution_1d(x, W, b, stride, pad, dilate, groups)], the grouped
    cross-correlation of the framework: [W] has the shape
    [(out_channels, in_channels / groups, ksize)]. *)
Definition convolution_1d (x W : tensor) (b : option (list Z))
    (stride pad dilate : Z) (groups : nat) : result tensor :=
  let c_out := dim0 W in
  let c_grp := dim1 W in
  let k := dim2 W in
  if decide (0 < stride ∧ 0 ≤ pad ∧ 0 < dilate ∧ (0 < groups)%nat ∧
             dim1 x = (c_grp * groups)%nat ∧ (c_out `mod` groups = 0)%nat ∧
             0 < conv_outsize (Z.of_nat (dim2 x)) (Z.of_nat k) stride pad dilate)
  then
    let t_out := Z.to_nat (conv_outsize (Z.of_nat (dim2 x)) (Z.of_nat k) stride pad dilate) in
    Ok (mk_tensor (dim0 x) c_out t_out (λ i o t,
          let g := (o / (c_out / groups))%nat in
          default 0 (b' ← b; b' !! o) +
          sum_upto c_grp (λ c, sum_upto k (λ j,
            get W o c j *
            get_padded x i (g * c_grp + c)
              (Z.of_nat t * stride + Z.of_nat j * dilate - pad)))))
  else Err ValueError.

(** The first argument of a call is a NumPy array, on which the augmented
    assignment [x *= mask] works in place, or a framework variable, whose
    class defines no in-place multiplication, so that [x *= mask] binds the
    local name [x] to the new variable [x * mask]. *)
Inductive array_kind : Set := NdArray | FVariable.

Module MaskConv1d.

Record t : Type := {
  W : tensor;
  b : option (list Z);
  ksize : Z;
  stride : Z;
  pad : Z;
  dilate : Z;
  groups : nat;
  use_mask : bool;
}.

(** [stride0] and [pad0] are the values of [stride] and [pad]. *)
Definition stride0 (self : t) : Z := stride self.
Definition pad0 (self : t) : Z := pad self.

(** The entry [(i, c, t)] of
    [broadcast_to(arange(x.shape[2]), x.shape) < expand_dims(expand_dims(x_len, -1), -1)]. *)
Definition mask_at (x_len : list Z) (i t : nat) : bool :=
  bool_decide (Z.of_nat t < default 0 (x_len !! bidx (length x_len) i)).

(** [x * mask] *)
Definition mul_mask (x : tensor) (x_len : list Z) : result tensor :=
  B ← broadcast_dim (dim0 x) (length x_len);
  Ok (mk_tensor B (dim1 x) (dim2 x) (λ i c t,
        get x (bidx (dim0 x) i) c t * Z.b2z (mask_at x_len i t))).

(** [x *= mask] on a NumPy array: the product must have the shape of [x]. *)
Definition imul_mask (x : tensor) (x_len : list Z) : result tensor :=
  B ← broadcast_dim (dim0 x) (length x_len);
  if decide (B = dim0 x)
  then Ok (mk_tensor (dim0 x) (dim1 x) (dim2 x) (λ i c t,
             get x i c t * Z.b2z (mask_at x_len i t)))
  else Err ValueError.

(** The masking step on its own, whatever [use_mask] says. *)
Definition apply_mask (kind : array_kind) (x : tensor) (x_len : list Z)
    : result tensor :=
  match kind with
  | NdArray => imul_mask x x_len
  | FVariable => mul_mask x x_len
  end.

(** The length one item is given by the masking branch, where no step of
    the computation leaves the 64-bit integers; [out_len64] below is the
    computation on 64 bits. *)
Definition out_len (self : t) (len : Z) : Z :=
  (len + 2 * pad0 self - dilate self * (ksize self - 1) - 1) / stride0 self + 1.

(** The same length in the arithmetic of [np.long]: every operation on
    the vector wraps around at 64 bits. *)
Definition wrap64 (z : Z) : Z := (z + 2 ^ 63) `mod` 2 ^ 64 - 2 ^ 63.

Definition out_len64 (self : t) (len : Z) : Z :=
  wrap64
    (wrap64
       (wrap64
          (wrap64 (wrap64 (len + 2 * pad0 self)
                   - dilate self * (ksize self - 1)) - 1)
        / stride0 self) + 1).

(** The tensor that is convolved. *)
Definition masked_input (self : t) (kind : array_kind) (x : tensor)
    (x_len : list Z) : result tensor :=
  if use_mask self then apply_mask kind x x_len else Ok x.

(** The lengths that are returned. *)
Definition new_len (self : t) (x_len : list Z) : list Z :=
  if use_mask self then out_len self <$> x_len else x_len.

(** [__call__], as a function of the values of its arguments. *)
Definition forward (self : t) (kind : array_kind) (x : tensor)
    (x_len : list Z) : result (tensor * list Z) :=
  x ← masked_input self kind x x_len;
  let x_len := new_len self x_len in
  x ← convolution_1d x (W self) (b self) (stride self) (pad self)
        (dilate self) (groups self);
  Ok (x, x_len).

End MaskConv1d.

(** ** Objects and references

    To speak of what a call does to its caller's arguments, arguments are
    references into a store of objects. *)

Inductive object : Type :=
  | ONdArray (x : tensor)
  | OVariable (x : tensor)
  | OLengths (v : list Z).

Abbreviation store := (gmap nat object).

(** A computation that reads and writes the store and may raise. *)
Definition action (A : Type) : Type := store → result A * store.

#[export] Instance action_ret : MRet action := λ A a s, (Ok a, s).
#[export] Instance action_bind : MBind action := λ A B f m s,
  match m s with
  | (Ok a, s') => f a s'
  | (Err e, s') => (Err e, s')
  end.

Definition lift {A} (m : result A) : action A := λ s, (m, s).

(** A new object. *)
Definition alloc (o : object) : action nat :=
  λ s, let l := fresh (dom s) in (Ok l, <[l := o]> s).

(** The tensor a reference stands for, and what kind of object holds it. *)
Definition tensor_at (s : store) (l : nat) : option (array_kind * tensor) :=
  match s !! l with
  | Some (ONdArray x) => Some (NdArray, x)
  | Some (OVariable x) => Some (FVariable, x)
  | _ => None
  end.

Definition read_tensor (l : nat) : action (array_kind * tensor) := λ s,
  match tensor_at s l with
  | Some kx => (Ok kx, s)
  | None => (Err TypeError, s)
  end.

Definition read_lengths (l : nat) : action (list Z) := λ s,
  match s !! l with
  | Some (OLengths v) => (Ok v, s)
  | _ => (Err TypeError, s)
  end.

Definition write (l : nat) (o : object) : action unit :=
  λ s, (Ok (), <[l := o]> s).

Module MaskConv1dCall.
Import MaskConv1d.

(** [x *= mask]: the reference that the name [x] holds afterwards. *)
Definition imul (x : nat) (x_len : list Z) : action nat :=
  '(kind, xv) ← read_tensor x;
  xm ← lift (apply_mask kind xv x_len);
  match kind with
  | NdArray => _ ← write x (ONdArray xm); mret x
  | FVariable => alloc (OVariable xm)
  end.

(** [__call__] on references: the references of the returned tensor and
    of the returned lengths. *)
Definition call (self : t) (x x_len : nat) : action (nat * nat) :=
  '(x, x_len) ←
    (if use_mask self
     then
       lens ← read_lengths x_len;
       x ← imul x lens;
       x_len ← alloc (OLengths (out_len self <$> lens));
       mret (x, x_len)
     else mret (x, x_len));
  '(_, xv) ← read_tensor x;
  y ← lift (convolution_1d xv (W self) (b self) (stride self) (pad self)
              (dilate self) (groups self));
  y ← alloc (OVariable y);
  mret (y, x_len).

(** The values behind the references a call returned. *)
Definition returned_values (r : result (nat * nat)) (s : store)
    : result (tensor * list Z) :=
  '(y, y_len) ← r;
  match s !! y, s !! y_len with
  | Some (OVariable yv), Some (OLengths lens) => Ok (yv, lens)
  | _, _ => Err TypeError
  end.

End MaskConv1dCall.

(** ** The residual unit (class [JasperUnit]) and the units of [Jasper]

    The count of history entries and of shortcut terms does not depend on
    what the layers compute.  The activations, the length vectors, the
    convolution blocks and the numeric primitives are therefore parameters
    of this part; [Reference] below instantiates them. *)

(** The argument [in_channels] of [JasperUnit]: an [int] or a list. *)
Inductive channels_arg : Type :=
  | ChInt (c : Z)
  | ChList (l : list Z).

(** The second value threaded through the units: the lengths [x_len], or
    the tuple [(x_len, y, y_len)]. *)
Inductive threaded (act len : Type) : Type :=
  | Plain (x_len : len)
  | Dense (x_len : len) (y : option (list act)) (y_len : option (list len)).
Arguments Plain {act len} x_len.
Arguments Dense {act len} x_len y y_len.

(** The attribute [identity_block]: a [DualPathParallelConcurent] with one
    block per entry of [in_channels], or one block. *)
Inductive identity_block_t (layer : Type) : Type :=
  | Parallel (blocks : list layer)
  | Single (block : layer).
Arguments Parallel {layer} blocks.
Arguments Single {layer} block.

Section Containers.
Context {act len module : Type}.

(** Modelled from the spec: [DualPathSequential.__call__], which
    [jasper.py] imports from [common.py].  Section 4.6: a sequential
    composition in declared order, threading the pair of the tensor and
    the lengths from each module to the next. *)
Fixpoint DualPathSequential_call {st : Type}
    (run : module → act → st → result (act * st))
    (modules : list module) (x : act) (x_len : st) : result (act * st) :=
  match modules with
  | [] => Ok (x, x_len)
  | m :: rest =>
      '(x, x_len) ← run m x x_len;
      DualPathSequential_call run rest x x_len
  end.

(** Modelled from the spec: [DualPathParallelConcurent.__call__], which
    [jasper.py] imports from [common.py].  Section 4.5: every entry of the
    history goes, with its length, through its own block; the results are
    returned as two lists, in order. *)
Fixpoint DualPathParallelConcurent_call
    (run : module → act → len → result (act * len))
    (blocks : list module) (y : list act) (y_len : list len)
    : result (list act * list len) :=
  match blocks, y, y_len with
  | blk :: blocks, yi :: y, li :: y_len =>
      '(zi, mi) ← run blk yi li;
      '(z, m) ← DualPathParallelConcurent_call run blocks y y_len;
      Ok (zi :: z, mi :: m)
  | _, _, _ => Ok ([], [])
  end.

End Containers.

Module JasperUnit.

Record t (layer : Type) : Type := {
  use_dropout : bool;
  dropout_rate : Q;
  use_dr : bool;
  identity_block : identity_block_t layer;
  body : list layer;
}.
Arguments use_dropout {layer} _.
Arguments dropout_rate {layer} _.
Arguments use_dr {layer} _.
Arguments identity_block {layer} _.
Arguments body {layer} _.

Section Unit.
Context {act len layer : Type}.
(** [MaskConvBlock1d.__call__] or [DwsConvBlock1d.__call__] *)
Variable run_layer : layer → act → len → result (act * len).
(** [mask_conv1d1_block(in_channels, out_channels, bn_eps,
    dropout_rate=0.0, activation=None)] *)
Variable mask_conv1d1_block : Z → Z → Q → layer.
(** [block_class(in_channels, out_channels, ksize, stride=1, pad,
    bn_eps, dropout_rate, activation)], after the flag [use_dw]; the
    last argument tells whether there is an activation. *)
Variable block_class : bool → Z → Z → Z → Z → Q → Q → bool → layer.
(** [F.sum(F.stack(tuple(identity), axis=1), axis=1)] *)
Variable stack_sum : list act → result act.
(** [x + identity] *)
Variable add : act → act → result act.
(** [F.relu] *)
Variable relu : act → act.
(** [F.dropout(x, ratio)] *)
Variable dropout : Q → act → act.

(** [in_channels[-1]] *)
Definition list_last (l : list Z) : result Z :=
  match last l with
  | Some c => Ok c
  | None => Err IndexError
  end.

(** [__init__] *)
Definition init (in_channels : channels_arg) (out_channels ksize : Z)
    (bn_eps rate : Q) (repeat : Z) (use_dw use_dr : bool)
    : result (t layer) :=
  '(identity, in_channels) ←
    (if use_dr
     then
       match in_channels with
       | ChList l =>
           let blocks :=
             (λ c, mask_conv1d1_block c out_channels bn_eps) <$> l in
           c ← list_last l;
           Ok (Parallel blocks, c)
       | ChInt _ => Err TypeError
       end
     else
       match in_channels with
       | ChInt c => Ok (Single (mask_conv1d1_block c out_channels bn_eps), c)
       | ChList _ => Err TypeError
       end);
  let blocks :=
    tabulate (Z.to_nat repeat) (λ i,
      let not_last := bool_decide (Z.of_nat i < repeat - 1) in
      block_class use_dw
        (if decide (i = 0%nat) then in_channels else out_channels)
        out_channels ksize (ksize / 2) bn_eps
        (if not_last then rate else 0%Q) not_last) in
  Ok {| use_dropout := negb (Qeq_bool rate 0);
        dropout_rate := rate;
        use_dr := use_dr;
        identity_block := identity;
        body := blocks |}.

(** The history [(x_len, y, y_len)] of a unit in dense mode, once the
    input and its length are appended. *)
Definition history (x : act) (x_len : threaded act len)
    : len * list act * list len :=
  let '(x_len, y, y_len) :=
    match x_len with
    | Dense x_len y y_len => (x_len, y, y_len)
    | Plain x_len => (x_len, None, None)
    end in
  let y := match y with None => [x] | Some y => y ++ [x] end in
  let y_len := match y_len with None => [x_len] | Some y_len => y_len ++ [x_len] end in
  (x_len, y, y_len).

(** [self.identity_block(y, y_len)] in dense mode. *)
Definition identity_call (self : t layer) (y : list act) (y_len : list len)
    : result (list act * list len) :=
  match identity_block self with
  | Parallel blocks => DualPathParallelConcurent_call run_layer blocks y y_len
  | Single _ => Err TypeError
  end.

(** [__call__] *)
Definition call (self : t layer) (x : act) (x_len : threaded act len)
    : result (act * threaded act len) :=
  if use_dr self
  then
    let '(x_len, y, y_len) := history x x_len in
    '(identity, _) ← identity_call self y y_len;
    identity ← stack_sum identity;
    '(x, x_len) ← DualPathSequential_call run_layer (body self) x x_len;
    x ← add x identity;
    let x := relu x in
    let x := if use_dropout self then dropout (dropout_rate self) x else x in
    Ok (x, Dense x_len (Some y) (Some y_len))
  else
    match x_len, identity_block self with
    | Plain x_len, Single block =>
        '(identity, _) ← run_layer block x x_len;
        '(x, x_len) ← DualPathSequential_call run_layer (body self) x x_len;
        x ← add x identity;
        let x := relu x in
        let x := if use_dropout self then dropout (dropout_rate self) x else x in
        Ok (x, Plain x_len)
    | _, _ => Err TypeError
    end.

End Unit.

(** A unit in dense mode with [k] identity blocks. *)
Definition dense_unit {layer} (u : t layer) (k : nat) : Prop :=
  use_dr u = true ∧ ∃ blocks, identity_block u = Parallel blocks ∧ length blocks = k.

(** A threaded value whose history has [n] tensors and [n] lengths. *)
Definition history_size {act len} (n : nat) (x_len : threaded act len) : Prop :=
  match x_len with
  | Plain _ => n = 0%nat
  | Dense _ None None => n = 0%nat
  | Dense _ (Some y) (Some y_len) => length y = n ∧ length y_len = n
  | Dense _ _ _ => False
  end.

End JasperUnit.

Module Jasper.

Section Units.
Context {act len layer : Type}.
Variable run_layer : layer → act → len → result (act * len).
Variable mask_conv1d1_block : Z → Z → Q → layer.
Variable block_class : bool → Z → Z → Z → Z → Q → Q → bool → layer.
Variable stack_sum : list act → result act.
Variable add : act → act → result act.
Variable relu : act → act.
Variable dropout : Q → act → act.

(** [l[1:-2]] *)
Definition inner {A} (l : list A) : list A :=
  drop 1 (take (length l - 2) l).

(** One turn of the loop of [__init__] that builds the units, on the
    triple of [in_channels], [in_channels_list] and the units built
    so far.  The list object is shared by all units; each reads it
    while it is built and keeps no reference to it. *)
Definition add_unit (bn_eps : Q) (repeat : Z) (use_dw use_dr : bool)
    (st : Z * list Z * list (JasperUnit.t layer)) (cfg : Z * (Z * Q))
    : result (Z * list Z * list (JasperUnit.t layer)) :=
  let '(in_channels, in_channels_list, units) := st in
  let '(out_channels, (ksize, rate)) := cfg in
  let in_channels_list := in_channels_list ++ [in_channels] in
  unit ← JasperUnit.init mask_conv1d1_block block_class
            (if use_dr then ChList in_channels_list else ChInt in_channels)
            out_channels ksize bn_eps rate repeat use_dw use_dr;
  Ok (out_channels, in_channels_list, units ++ [unit]).

Fixpoint add_units (bn_eps : Q) (repeat : Z) (use_dw use_dr : bool)
    (st : Z * list Z * list (JasperUnit.t layer)) (cfgs : list (Z * (Z * Q)))
    : result (Z * list Z * list (JasperUnit.t layer)) :=
  match cfgs with
  | [] => Ok st
  | cfg :: rest =>
      st ← add_unit bn_eps repeat use_dw use_dr st cfg;
      add_units bn_eps repeat use_dw use_dr st rest
  end.

(** The modules [unit1], [unit2], ... of [self.features], in order. *)
Definition units (channels ksizes : list Z) (bn_eps : Q)
    (dropout_rates : list Q) (repeat : Z) (use_dw use_dr : bool)
    : result (list (JasperUnit.t layer)) :=
  in_channels ← list_first channels;
  st ← add_units bn_eps repeat use_dw use_dr (in_channels, [], [])
         (zip (inner channels) (zip (inner ksizes) (inner dropout_rates)));
  Ok st.2.

(** The run of [self.features] through its units, from the output of
    the initial block on. *)
Definition run_units (us : list (JasperUnit.t layer)) (x : act)
    (x_len : threaded act len) : result (act * threaded act len) :=
  DualPathSequential_call
    (JasperUnit.call run_layer stack_sum add relu dropout) us x x_len.

End Units.

End Jasper.

(** ** A reference instance

    Integer tensors, convolution blocks without normalisation whose
    weights are all one, and the inference-mode dropout (the identity).
    It serves to run the definitions above on small inputs. *)

Module Reference.

(** [F.relu] *)
Definition relu (x : tensor) : tensor :=
  mk_tensor (dim0 x) (dim1 x) (dim2 x) (λ i c t, 0 `max` get x i c t).

(** [x + y] on tensors of one shape. *)
Definition add (x y : tensor) : result tensor :=
  if decide (shape x = shape y)
  then Ok (mk_tensor (dim0 x) (dim1 x) (dim2 x) (λ i c t,
             get x i c t + get y i c t))
  else Err ValueError.

(** [F.sum(F.stack(xs, axis=1), axis=1)]: stacking needs one tensor at
    least, and tensors of one shape. *)
Fixpoint stack_sum (xs : list tensor) : result tensor :=
  match xs with
  | [] => Err ValueError
  | [x] => Ok x
  | x :: rest => s ← stack_sum rest; add x s
  end.

(** [F.dropout] outside of training. *)
Definition dropout (_ : Q) (x : tensor) : tensor := x.

Record block : Type := {
  conv : MaskConv1d.t;
  activate : bool;
}.

Definition run_block (blk : block) (x : tensor) (x_len : list Z)
    : result (tensor * list Z) :=
  '(x, x_len) ← MaskConv1d.forward (conv blk) FVariable x x_len;
  Ok (if activate blk then relu x else x, x_len).

Definition ones_conv (in_channels out_channels ksize pad : Z) : MaskConv1d.t := {|
  MaskConv1d.W := mk_tensor (Z.to_nat out_channels) (Z.to_nat in_channels)
                    (Z.to_nat ksize) (λ _ _ _, 1);
  MaskConv1d.b := None;
  MaskConv1d.ksize := ksize;
  MaskConv1d.stride := 1;
  MaskConv1d.pad := pad;
  MaskConv1d.dilate := 1;
  MaskConv1d.groups := 1;
  MaskConv1d.use_mask := true;
|}.

Definition mask_conv1d1_block (in_channels out_channels : Z) (_ : Q) : block :=
  {| conv := ones_conv in_channels out_channels 1 0; activate := false |}.

Definition block_class (_ : bool) (in_channels out_channels ksize pad : Z)
    (_ _ : Q) (activation : bool) : block :=
  {| conv := ones_conv in_channels out_channels ksize pad;
     activate := activation |}.

(** Entries of a log-mel matrix that are nowhere zero. *)
Definition mel_value (_ : list Z) (c t : nat) : Z := Z.of_nat (1 + c + t).

(** A waveform of 320 samples, two hops of the default extractor, and
    the features the extractor returns for it: two valid frames, then
    zeros up to 16 frames. *)
Definition waveform_320 : list Z := replicate 320 0.

Definition features_320 : tensor :=
  mk_tensor 1 64 16 (λ _ c t,
    if decide (t < 2)%nat then mel_value waveform_320 c t else 0).

(** A convolution of kernel size 3, stride 1 and padding 1 over one
    channel, a tensor of one item, one channel and three frames, all one,
    its masked version for the valid length 2, and its convolution after
    masking. *)
Definition conv3 : MaskConv1d.t := ones_conv 1 1 3 1.

Definition ones_3 : tensor := of_lists 1 1 3 [[[1; 1; 1]]].

Definition masked_3 : tensor := of_lists 1 1 3 [[[1; 1; 0]]].

Definition conv_3 : tensor := of_lists 1 1 3 [[[2; 2; 1]]].

(** A store with that tensor as a NumPy array at 0 and the lengths [[2]]
    at 1. *)
Definition store_3 : store :=
  <[1%nat := OLengths [2]]> (<[0%nat := ONdArray ones_3]> ∅).

(** A network of two units in dense mode over one channel, with kernels
    of size 3 and one block per unit, and its run on [ones_3] with the
    valid length 2. *)
Definition units : list (JasperUnit.t block) :=
  match Jasper.units mask_conv1d1_block block_class
          [1; 1; 1; 1; 1] [3; 3; 3; 3; 1] 0%Q [0; 0; 0; 0; 0]%Q 1 false true with
  | Ok us => us
  | Err _ => []
  end.

Definition unit2 : JasperUnit.t block :=
  match units !! 1%nat with
  | Some u => u
  | None => {| JasperUnit.use_dropout := false; JasperUnit.dropout_rate := 0%Q;
               JasperUnit.use_dr := true;
               JasperUnit.identity_block := Parallel [];
               JasperUnit.body := [] |}
  end.

Definition after_unit1 : tensor * threaded tensor (list Z) :=
  match Jasper.run_units run_block stack_sum add relu dropout
          (take 1 units) ones_3 (Plain [2]) with
  | Ok r => r
  | Err _ => (ones_3, Plain [])
  end.

Definition after_unit2 : tensor * threaded tensor (list Z) :=
  match JasperUnit.call run_block stack_sum add relu dropout unit2
          after_unit1.1 after_unit1.2 with
  | Ok r => r
  | Err _ => (ones_3, Plain [])
  end.

End Reference.

(** ** Constructors and blocks of convolutions

    The learnable arrays of a layer are arguments of its constructor: a
    function of the indices for the weights, one for the bias, and the
    normalisation and the dropout as functions on tensors. *)

(** [MaskConv1d.__init__].  The constructor of the framework's
    convolution link, which it calls, wants both counts of channels to be
    multiples of [groups] and allocates the weights in the shape
    [(out_channels, in_channels / groups, ksize)]; there is a bias only
    with [use_bias]. *)
Definition MaskConv1d_init (w : nat → nat → nat → Z) (bias : nat → Z)
    (in_channels out_channels : nat) (ksize stride pad dilate : Z)
    (groups : nat) (use_bias use_mask : bool) : result MaskConv1d.t :=
  if decide (groups = 0%nat) then Err ZeroDivisionError
  else if decide ((out_channels `mod` groups = 0)%nat ∧
                  (in_channels `mod` groups = 0)%nat ∧ 0 ≤ ksize)
  then Ok {|
    MaskConv1d.W := mk_tensor out_channels (in_channels / groups) (Z.to_nat ksize) w;
    MaskConv1d.b := if use_bias then Some (tabulate out_channels bias) else None;
    MaskConv1d.ksize := ksize;
    MaskConv1d.stride := stride;
    MaskConv1d.pad := pad;
    MaskConv1d.dilate := dilate;
    MaskConv1d.groups := groups;
    MaskConv1d.use_mask := use_mask;
  |}
  else Err ValueError.

(** [mask_conv1d1]: kernel size 1, and the defaults [pad=0], [dilate=1],
    [use_mask=True]. *)
Definition mask_conv1d1 (w : nat → nat → nat → Z) (bias : nat → Z)
    (in_channels out_channels : nat) (stride : Z) (groups : nat)
    (use_bias : bool) : result MaskConv1d.t :=
  MaskConv1d_init w bias in_channels out_channels 1 stride 0 1 groups use_bias true.

Module ChannelShuffle1d.

Record t : Type := { groups : nat }.

(** [__init__]: [assert (channels % groups == 0)]. *)
Definition init (channels groups : nat) : result t :=
  if decide (groups = 0%nat) then Err ZeroDivisionError
  else if decide (channels `mod` groups = 0)%nat then Ok {| groups := groups |}
  else Err AssertionError.

(** [__call__]: [x] is reshaped to [(batch, groups, channels_per_group,
    seq_len)], which needs as many elements as [x] has, its axes 1 and 2
    are swapped, and the result is reshaped to [(batch, channels,
    seq_len)].  Channel [j * groups + i] of the result is channel
    [i * channels_per_group + j] of [x].  The framework's type check is
    what fails on a wrong count of elements. *)
Definition call (self : t) (x : tensor) : result tensor :=
  let '(batch, channels, seq_len) := shape x in
  if decide (groups self = 0%nat) then Err ZeroDivisionError
  else
    let channels_per_group := (channels / groups self)%nat in
    if decide (batch * groups self * channels_per_group * seq_len
               = batch * channels * seq_len)%nat
    then Ok (mk_tensor batch channels seq_len (λ b c t,
               get x b ((c `mod` groups self) * channels_per_group
                        + c / groups self)%nat t))
    else Err TypeError.

End ChannelShuffle1d.

Module MaskConvBlock1d.

Record t : Type := {
  conv : MaskConv1d.t;
  use_bn : bool;
  bn : tensor → tensor;
  activate : bool;
  activ : tensor → tensor;
  use_dropout : bool;
  dropout : tensor → tensor;
}.

(** [__init__]; [activation] is [None] or the function to apply.  The
    fields [bn], [activ] and [dropout] are read only under their flags. *)
Definition init (w : nat → nat → nat → Z) (bias : nat → Z)
    (bn : tensor → tensor) (dropout : Q → tensor → tensor)
    (in_channels out_channels : nat) (ksize stride pad dilate : Z)
    (groups : nat) (use_bias use_bn : bool)
    (activation : option (tensor → tensor)) (dropout_rate : Q) : result t :=
  conv ← MaskConv1d_init w bias in_channels out_channels ksize stride pad
            dilate groups use_bias true;
  Ok {|
    conv := conv;
    use_bn := use_bn;
    bn := bn;
    activate := bool_decide (is_Some activation);
    activ := default id activation;
    use_dropout := negb (Qeq_bool dropout_rate 0);
    dropout := dropout dropout_rate;
  |}.

(** [__call__] *)
Definition call (self : t) (kind : array_kind) (x : tensor) (x_len : list Z)
    : result (tensor * list Z) :=
  '(x, x_len) ← MaskConv1d.forward (conv self) kind x x_len;
  let x := if use_bn self then bn self x else x in
  let x := if activate self then activ self x else x in
  let x := if use_dropout self then dropout self x else x in
  Ok (x, x_len).

End MaskConvBlock1d.

Module DwsConvBlock1d.

Record t : Type := {
  dw_conv : MaskConv1d.t;
  pw_conv : MaskConv1d.t;
  use_channel_shuffle : bool;
  shuffle : ChannelShuffle1d.t;
  use_bn : bool;
  bn : tensor → tensor;
  activate : bool;
  activ : tensor → tensor;
  use_dropout : bool;
  dropout : tensor → tensor;
}.

(** [__init__]: a depthwise convolution, one group per input channel,
    then a pointwise one; the channels are shuffled when [groups > 1].
    The fields [shuffle], [bn], [activ] and [dropout] are read only under
    their flags. *)
Definition init (w_dw : nat → nat → nat → Z) (bias_dw : nat → Z)
    (w_pw : nat → nat → nat → Z) (bias_pw : nat → Z)
    (bn : tensor → tensor) (dropout : Q → tensor → tensor)
    (in_channels out_channels : nat) (ksize stride pad dilate : Z)
    (groups : nat) (use_bias use_bn : bool)
    (activation : option (tensor → tensor)) (dropout_rate : Q) : result t :=
  let use_channel_shuffle := bool_decide (1 < groups)%nat in
  dw_conv ← MaskConv1d_init w_dw bias_dw in_channels in_channels ksize
              stride pad dilate in_channels use_bias true;
  pw_conv ← mask_conv1d1 w_pw bias_pw in_channels out_channels 1 groups
              use_bias;
  shuffle ←
    (if use_channel_shuffle then ChannelShuffle1d.init out_channels groups
     else Ok {| ChannelShuffle1d.groups := groups |});
  Ok {|
    dw_conv := dw_conv;
    pw_conv := pw_conv;
    use_channel_shuffle := use_channel_shuffle;
    shuffle := shuffle;
    use_bn := use_bn;
    bn := bn;
    activate := bool_decide (is_Some activation);
    activ := default id activation;
    use_dropout := negb (Qeq_bool dropout_rate 0);
    dropout := dropout dropout_rate;
  |}.

(** [__call__]; what the depthwise convolution returns is a framework
    variable. *)
Definition call (self : t) (kind : array_kind) (x : tensor) (x_len : list Z)
    : result (tensor * list Z) :=
  '(x, x_len) ← MaskConv1d.forward (dw_conv self) kind x x_len;
  '(x, x_len) ← MaskConv1d.forward (pw_conv self) FVariable x x_len;
  x ← (if use_channel_shuffle self then ChannelShuffle1d.call (shuffle self) x
       else Ok x);
  let x := if use_bn self then bn self x else x in
  let x := if activate self then activ self x else x in
  let x := if use_dropout self then dropout self x else x in
  Ok (x, x_len).

End DwsConvBlock1d.

(** A block of either class. *)
Inductive conv_block : Type :=
  | BMask (blk : MaskConvBlock1d.t)
  | BDws (blk : DwsConvBlock1d.t).

Definition conv_block_call (blk : conv_block) (kind : array_kind) (x : tensor)
    (x_len : list Z) : result (tensor * list Z) :=
  match blk with
  | BMask blk => MaskConvBlock1d.call blk kind x x_len
  | BDws blk => DwsConvBlock1d.call blk kind x x_len
  end.

(** The convolution of a block that sets the lengths, the first one. *)
Definition conv_block_first (blk : conv_block) : MaskConv1d.t :=
  match blk with
  | BMask blk => MaskConvBlock1d.conv blk
  | BDws blk => DwsConvBlock1d.dw_conv blk
  end.

(** A block stands as its constructor leaves it, with the kernel size
    [k], the stride [s], the padding [p] and the dilation [d], when its
    first convolution has these and masks, and, in a depthwise-separable
    block, the second convolution is pointwise and masks. *)
Definition configured (blk : conv_block) (k s p d : Z) : Prop :=
  let c := conv_block_first blk in
  MaskConv1d.ksize c = k ∧ MaskConv1d.stride c = s ∧ MaskConv1d.pad c = p ∧
  MaskConv1d.dilate c = d ∧ MaskConv1d.use_mask c = true ∧
  match blk with
  | BMask _ => True
  | BDws blk =>
      let c := DwsConvBlock1d.pw_conv blk in
      MaskConv1d.ksize c = 1 ∧ MaskConv1d.stride c = 1 ∧ MaskConv1d.pad c = 0 ∧
      MaskConv1d.dilate c = 1 ∧ MaskConv1d.use_mask c = true
  end.

(** ** The configurations (function [get_jasper]) *)

(** [sum([[a] * r for (a, r) in zip(per_stage, stage_repeat)], [])]; a
    list times a negative number is the empty list. *)
Definition repeat_stages {A} (per_stage : list A) (stage_repeat : list Z)
    : list A :=
  zip per_stage stage_repeat ≫= (λ ar, replicate (Z.to_nat ar.2) ar.1).

(** [np.full((8,), 1)] with [stage_repeat[1:-2] *= main_stage_repeat]. *)
Definition stage_repeat (main_stage_repeat : Z) : list Z :=
  [1] ++ replicate 5 (1 * main_stage_repeat) ++ [1; 1].

Record jasper_config : Type := {
  cfg_channels : list Z;
  cfg_ksizes : list Z;
  cfg_dropout_rates : list Q;
  cfg_repeat : Z;
}.

(** The arguments [get_jasper] gives to [Jasper], from the model type
    and the two numbers [blocks] and [repeat] of the version. *)
Definition get_jasper_config (model_type : string) (blocks repeat : Z)
    : result jasper_config :=
  let main_stage_repeat := blocks / 5 in
  '(channels_per_stage, ksizes_per_stage, dropout_rates_per_stage) ←
    (if decide (model_type = "jasper")
     then Ok ([256; 256; 384; 512; 640; 768; 896; 1024],
              [11; 11; 13; 17; 21; 25; 29; 1],
              [2 # 10; 2 # 10; 2 # 10; 2 # 10; 3 # 10; 3 # 10; 4 # 10; 4 # 10]%Q)
     else if decide (model_type = "quartznet")
     then Ok ([256; 256; 256; 512; 512; 512; 512; 1024],
              [33; 33; 39; 51; 63; 75; 87; 1],
              replicate 8 0%Q)
     else Err ValueError);
  let stage_repeat := stage_repeat main_stage_repeat in
  Ok {|
    cfg_channels := repeat_stages channels_per_stage stage_repeat;
    cfg_ksizes := repeat_stages ksizes_per_stage stage_repeat;
    cfg_dropout_rates := repeat_stages dropout_rates_per_stage stage_repeat;
    cfg_repeat := repeat;
  |}.

(** ** The final block and the network (classes [JasperFinalBlock] and
    [Jasper])

    The blocks are those above; their constructor, the numeric primitives
    and the output link of the framework are parameters. *)

(** [l[-k]], for [k] from 1 on. *)
Definition list_from_end {A} (l : list A) (k : nat) : result A :=
  if decide (k ≤ length l)%nat
  then match l !! (length l - k)%nat with
       | Some a => Ok a
       | None => Err IndexError
       end
  else Err IndexError.

(** The lengths of a threaded value. *)
Definition lengths_of {act len} (st : threaded act len) : len :=
  match st with
  | Plain x_len => x_len
  | Dense x_len _ _ => x_len
  end.

Section Network.

(** The class [DwsConvBlock1d] or [MaskConvBlock1d], after the first
    argument, called with [in_channels], [out_channels], [ksize],
    [stride], [pad], [dilate], [bn_eps], [dropout_rate], and whether
    there is an activation. *)
Variable new_block : bool → Z → Z → Z → Z → Z → Z → Q → Q → bool → conv_block.
(** [conv1d1(in_channels, out_channels, use_bias)] and the call of the
    link it returns. *)
Context {link : Type}.
Variable conv1d1 : Z → Z → bool → link.
Variable run_link : link → tensor → result tensor.
Variable stack_sum : list tensor → result tensor.
Variable add : tensor → tensor → result tensor.
Variable relu : tensor → tensor.
Variable dropout : Q → tensor → tensor.

(** [mask_conv1d1_block(in_channels, out_channels, bn_eps,
    dropout_rate=0.0, activation=None)]: a [MaskConvBlock1d] of kernel
    size 1, with the defaults [stride=1], [pad=0] and [dilate=1]. *)
Definition mask_conv1d1_block (in_channels out_channels : Z) (bn_eps : Q)
    : conv_block :=
  new_block false in_channels out_channels 1 1 0 1 bn_eps 0 false.

(** [block_class(in_channels, out_channels, ksize, stride=1, pad, bn_eps,
    dropout_rate, activation)], with the default [dilate=1]. *)
Definition block_class (use_dw : bool) (in_channels out_channels ksize pad : Z)
    (bn_eps dropout_rate : Q) (activation : bool) : conv_block :=
  new_block use_dw in_channels out_channels ksize 1 pad 1 bn_eps dropout_rate
    activation.

(** The call of a block inside the network, where the tensors are
    framework variables. *)
Definition run_block (blk : conv_block) (x : tensor) (x_len : list Z)
    : result (tensor * list Z) :=
  conv_block_call blk FVariable x x_len.

Definition unit_call (u : JasperUnit.t conv_block) (x : tensor)
    (x_len : threaded tensor (list Z))
    : result (tensor * threaded tensor (list Z)) :=
  JasperUnit.call run_block stack_sum add relu dropout u x x_len.

Record final_block_t : Type := {
  final_use_dr : bool;
  conv1 : conv_block;
  conv2 : conv_block;
}.

(** [JasperFinalBlock.__init__]; [2 * ksizes[-2] // 2 - 1] is
    [((2 * ksizes[-2]) // 2) - 1]. *)
Definition JasperFinalBlock_init (in_channels : Z) (channels ksizes : list Z)
    (bn_eps : Q) (dropout_rates : list Q) (use_dw use_dr : bool)
    : result final_block_t :=
  c2 ← list_from_end channels 2;
  k2 ← list_from_end ksizes 2;
  r2 ← list_from_end dropout_rates 2;
  c1 ← list_from_end channels 1;
  k1 ← list_from_end ksizes 1;
  r1 ← list_from_end dropout_rates 1;
  Ok {|
    final_use_dr := use_dr;
    conv1 := new_block use_dw in_channels c2 k2 1 (2 * k2 / 2 - 1) 2 bn_eps r2 true;
    conv2 := new_block false c2 c1 k1 1 (k1 / 2) 1 bn_eps r1 true;
  |}.

(** [JasperFinalBlock.__call__].  In dense mode [x_len[0]] is the first
    entry of the tuple; on an array of lengths it is a scalar, which the
    framework refuses where the mask is built, and on an empty array
    there is no first entry.  A tuple outside of dense mode is refused in
    the same place. *)
Definition JasperFinalBlock_call (self : final_block_t) (x : tensor)
    (x_len : threaded tensor (list Z)) : result (tensor * list Z) :=
  x_len ←
    (match x_len with
     | Dense l _ _ => if final_use_dr self then Ok l else Err TypeError
     | Plain l =>
         if final_use_dr self
         then match l with [] => Err IndexError | _ :: _ => Err TypeError end
         else Ok l
     end);
  '(x, x_len) ← run_block (conv1 self) x x_len;
  run_block (conv2 self) x x_len.

Record Jasper_t : Type := {
  preprocessor : NemoMelSpecExtractor.t;
  init_block : conv_block;
  units : list (JasperUnit.t conv_block);
  final_block : final_block_t;
  output : link;
}.

(** [Jasper.__init__], without the decoder of [return_text].  The field
    [preprocessor] is read only by a model made with [from_audio]. *)
Definition Jasper_init (channels ksizes : list Z) (bn_eps : Q)
    (dropout_rates : list Q) (repeat : Z) (use_dw use_dr : bool)
    (in_channels classes : Z) : result Jasper_t :=
  c0 ← list_first channels;
  k0 ← list_first ksizes;
  r0 ← list_first dropout_rates;
  st ← Jasper.add_units mask_conv1d1_block block_class bn_eps repeat use_dw
         use_dr (c0, [], [])
         (zip (Jasper.inner channels)
              (zip (Jasper.inner ksizes) (Jasper.inner dropout_rates)));
  final ← JasperFinalBlock_init st.1.1 channels ksizes bn_eps dropout_rates
            use_dw use_dr;
  c_last ← list_from_end channels 1;
  Ok {|
    preprocessor := NemoMelSpecExtractor.default;
    init_block := new_block use_dw in_channels c0 k0 2 (k0 / 2) 1 bn_eps r0 true;
    units := st.2;
    final_block := final;
    output := conv1d1 c_last classes true;
  |}.

(** [self.features(x, x_len)]: [self.features] is a
    [DualPathSequential], modelled above from the specification, of the
    initial block, the units and the final block in this order.  The
    initial block is the one that is given the argument of the network. *)
Definition Jasper_features (self : Jasper_t) (kind : array_kind) (x : tensor)
    (x_len : list Z) : result (tensor * list Z) :=
  '(x, x_len) ← conv_block_call (init_block self) kind x x_len;
  '(x, st) ← DualPathSequential_call unit_call (units self) x (Plain x_len);
  JasperFinalBlock_call (final_block self) x st.

(** [Jasper.__call__] of a model made with [from_audio=False] and
    [return_text=False], on features and their lengths. *)
Definition Jasper_call (self : Jasper_t) (kind : array_kind) (x : tensor)
    (x_len : list Z) : result (tensor * list Z) :=
  '(x, x_len) ← Jasper_features self kind x x_len;
  x ← run_link (output self) x;
  Ok (x, x_len).

(** [Jasper.__call__] of a model made with [from_audio=True] and
    [return_text=False], on a batch of waveforms: the extractor returns
    NumPy arrays. *)
Definition Jasper_call_audio {sample : Type}
    (mel_value : list sample → nat → nat → Z) (self : Jasper_t)
    (xs : list (list sample)) : result (tensor * list Z) :=
  '(x, x_len) ← NemoMelSpecExtractor.call mel_value (preprocessor self) xs;
  Jasper_call self NdArray x x_len.

(** [get_jasper], without the loading of pretrained weights;
    [in_channels] and [classes] are among the keyword arguments that are
    passed on. *)
Definition get_jasper (model_type : string) (blocks repeat : Z)
    (use_dw use_dr : bool) (bn_eps : Q) (in_channels classes : Z)
    : result Jasper_t :=
  cfg ← get_jasper_config model_type blocks repeat;
  Jasper_init (cfg_channels cfg) (cfg_ksizes cfg) bn_eps
    (cfg_dropout_rates cfg) (cfg_repeat cfg) use_dw use_dr in_channels classes.

End Network.

Arguments Jasper_t : clear implicits.

(** ** The configurations of IGCV3 (file [igcv3.py]) *)

(** [make_even] of [get_mobilenetv2] *)
Definition make_even (x : Z) : Z :=
  if decide (x `mod` 2 = 0) then x else x + 1.

(** The function that [get_mobilenetv2] folds over the layers: a layer
    that downsamples opens a stage, another one goes to the last stage.
    [x[-1]] needs a last stage. *)
Definition add_layer (x : list (list Z)) (y : Z * Z * Z)
    : result (list (list Z)) :=
  let '(c, n, downsample) := y in
  if decide (downsample ≠ 0)
  then Ok (x ++ [replicate (Z.to_nat n) c])
  else
    match last x with
    | Some stage => Ok (removelast x ++ [stage ++ replicate (Z.to_nat n) c])
    | None => Err IndexError
    end.

Fixpoint reduce_layers (x : list (list Z)) (ys : list (Z * Z * Z))
    : result (list (list Z)) :=
  match ys with
  | [] => Ok x
  | y :: ys => x ← add_layer x y; reduce_layers x ys
  end.

(** [reduce(..., zip(channels_per_layers, layers, downsample), [[]])] *)
Definition stage_channels (channels_per_layers layers downsample : list Z)
    : result (list (list Z)) :=
  reduce_layers [[]] (zip (zip channels_per_layers layers) downsample).

Record igcv3_config : Type := {
  igcv3_channels : list (list Z);
  igcv3_init_block_channels : Z;
  igcv3_final_block_channels : Z;
}.

Section Igcv3.

(** [int(c * width_scale)], the product in floating point, truncated. *)
Variable int_mul : Z → Q → Z.

(** The arguments [get_mobilenetv2] gives to [IGCV3], for the width scale
    that is the rational [width_scale]; [width_scale > 1.0] is the
    negation of [width_scale <= 1.0]. *)
Definition get_mobilenetv2_config (width_scale : Q) : result igcv3_config :=
  let init_block_channels := 32 in
  let final_block_channels := 1280 in
  let layers := [1; 4; 6; 8; 6; 6; 1] in
  let downsample := [0; 1; 1; 1; 0; 1; 0] in
  let channels_per_layers := [16; 24; 32; 64; 96; 160; 320] in
  channels ← stage_channels channels_per_layers layers downsample;
  if negb (Qeq_bool width_scale 1)
  then
    Ok {|
      igcv3_channels :=
        (λ ci : list Z, (λ cij, make_even (int_mul cij width_scale)) <$> ci)
        <$> channels;
      igcv3_init_block_channels :=
        make_even (int_mul init_block_channels width_scale);
      igcv3_final_block_channels :=
        if negb (Qle_bool width_scale 1)
        then make_even (int_mul final_block_channels width_scale)
        else final_block_channels;
    |}
  else
    Ok {|
      igcv3_channels := channels;
      igcv3_init_block_channels := init_block_channels;
      igcv3_final_block_channels := final_block_channels;
    |}.

End Igcv3.

Module InvResUnit.

(** What [__init__] gives to the blocks it builds: [conv1] goes from
    [in_channels] to [mid_channels] in [groups] groups, [c_shuffle]
    shuffles [mid_channels] channels in [groups] groups, [conv2] is
    depthwise over [mid_channels] channels with the stride [stride], and
    [conv3] goes from [mid_channels] to [out_channels] in [groups]
    groups. *)
Record t : Type := {
  residual : bool;
  in_channels : Z;
  mid_channels : Z;
  out_channels : Z;
  stride : Z;
  groups : Z;
}.

Definition init (in_channels out_channels stride : Z) (expansion : bool) : t := {|
  residual := bool_decide (in_channels = out_channels) && bool_decide (stride = 1);
  in_channels := in_channels;
  mid_channels := if expansion then in_channels * 6 else in_channels;
  out_channels := out_channels;
  stride := stride;
  groups := 2;
|}.

End InvResUnit.

(** The inner loop of [IGCV3.__init__], from the unit [j] of the stage
    [i] on: the units, and the count of channels they leave. *)
Fixpoint igcv3_stage (i j : nat) (in_channels : Z) (channels_per_stage : list Z)
    : list InvResUnit.t * Z :=
  match channels_per_stage with
  | [] => ([], in_channels)
  | out_channels :: rest =>
      let stride := if bool_decide (j = 0%nat ∧ i ≠ 0%nat) then 2 else 1 in
      let expansion := bool_decide (i ≠ 0%nat ∨ j ≠ 0%nat) in
      let unit := InvResUnit.init in_channels out_channels stride expansion in
      let '(units, c) := igcv3_stage i (S j) out_channels rest in
      (unit :: units, c)
  end.

(** The outer loop, from the stage [i] on. *)
Fixpoint igcv3_stages (i : nat) (in_channels : Z) (channels : list (list Z))
    : list (list InvResUnit.t) :=
  match channels with
  | [] => []
  | channels_per_stage :: rest =>
      let '(units, c) := igcv3_stage i 0 in_channels channels_per_stage in
      units :: igcv3_stages (S i) c rest
  end.

(** ** The masked convolution on float32 entries and int64 lengths

    The arrays of [MaskConv1d] hold float32 entries, which can be
    infinite or NaN, and the lengths are a vector of 64-bit integers,
    whose arithmetic wraps around.  This part embeds [MaskConv1d] with
    both: an entry is a finite value, taken without rounding, or a value
    that is not finite; a sum or a product with an operand that is not
    finite is not finite (an infinity times zero and the difference of
    two infinities are NaN).  The module [MaskConv1d] above, whose
    entries are numbers and whose lengths are integers, is this one on
    finite entries and on lengths that do not wrap (lemma
    [forward_finite]). *)

Inductive fval : Type :=
  | Finite (v : Z)
  | NonFinite.

Definition fadd (a b : fval) : fval :=
  match a, b with
  | Finite u, Finite v => Finite (u + v)
  | _, _ => NonFinite
  end.

Definition fmul (a b : fval) : fval :=
  match a, b with
  | Finite u, Finite v => Finite (u * v)
  | _, _ => NonFinite
  end.

Definition is_finite (a : fval) : Prop := ∃ v, a = Finite v.

(** A 3-D array of such entries, [batch x channels x time]. *)
Record ftensor : Type := FTensor {
  fshape : nat * nat * nat;
  fdata : list (list (list fval));
}.

Definition fdim0 (x : ftensor) : nat := (fshape x).1.1.
Definition fdim1 (x : ftensor) : nat := (fshape x).1.2.
Definition fdim2 (x : ftensor) : nat := (fshape x).2.

Definition fmk_tensor (B C T : nat) (f : nat → nat → nat → fval) : ftensor :=
  FTensor (B, C, T)
    (tabulate B (λ i, tabulate C (λ c, tabulate T (λ t, f i c t)))).

Definition fget (x : ftensor) (i c t : nat) : fval :=
  default (Finite 0) (row ← (item ← fdata x !! i; item !! c); row !! t).

(** The array of the same shape whose entries are the finite entries of
    [x]. *)
Definition finite_tensor (x : tensor) : ftensor :=
  fmk_tensor (dim0 x) (dim1 x) (dim2 x) (λ i c t, Finite (get x i c t)).

(** [sum(f(i) for i in range(n))] *)
Definition fsum_upto (n : nat) (f : nat → fval) : fval :=
  foldr (λ i acc, fadd (f i) acc) (Finite 0) (seq 0 n).

(** The entry of [x] at time [t], with the zero padding of the
    convolution. *)
Definition fget_padded (x : ftensor) (i c : nat) (t : Z) : fval :=
  if decide (0 ≤ t < Z.of_nat (fdim2 x)) then fget x i c (Z.to_nat t)
  else Finite 0.

(** [F.convolution_1d(x, W, b, stride, pad, dilate, groups)] *)
Definition fconvolution_1d (x W : ftensor) (b : option (list fval))
    (stride pad dilate : Z) (groups : nat) : result ftensor :=
  let c_out := fdim0 W in
  let c_grp := fdim1 W in
  let k := fdim2 W in
  if decide (0 < stride ∧ 0 ≤ pad ∧ 0 < dilate ∧ (0 < groups)%nat ∧
             fdim1 x = (c_grp * groups)%nat ∧ (c_out `mod` groups = 0)%nat ∧
             0 < conv_outsize (Z.of_nat (fdim2 x)) (Z.of_nat k) stride pad dilate)
  then
    let t_out := Z.to_nat (conv_outsize (Z.of_nat (fdim2 x)) (Z.of_nat k) stride pad dilate) in
    Ok (fmk_tensor (fdim0 x) c_out t_out (λ i o t,
          let g := (o / (c_out / groups))%nat in
          fadd (default (Finite 0) (b' ← b; b' !! o))
            (fsum_upto c_grp (λ c, fsum_upto k (λ j,
               fmul (fget W o c j)
                 (fget_padded x i (g * c_grp + c)
                    (Z.of_nat t * stride + Z.of_nat j * dilate - pad)))))))
  else Err ValueError.

(** A 64-bit integer, and the lengths for which no step of
    [(x_len + 2 * pad - dilate * (ksize - 1) - 1) // stride + 1] leaves
    the 64-bit integers: the length, the three numbers that are added to,
    subtracted from and divide the vector, and every intermediate
    vector. *)
Definition in_int64 (z : Z) : Prop := - 2 ^ 63 ≤ z < 2 ^ 63.

Definition no_wrap (ksize stride pad dilate len : Z) : Prop :=
  in_int64 len ∧ in_int64 (2 * pad) ∧ in_int64 (dilate * (ksize - 1)) ∧
  in_int64 stride ∧
  in_int64 (len + 2 * pad) ∧
  in_int64 (len + 2 * pad - dilate * (ksize - 1)) ∧
  in_int64 (len + 2 * pad - dilate * (ksize - 1) - 1) ∧
  in_int64 ((len + 2 * pad - dilate * (ksize - 1) - 1) / stride + 1).

Module FMaskConv1d.

Record t : Type := {
  W : ftensor;
  b : option (list fval);
  ksize : Z;
  stride : Z;
  pad : Z;
  dilate : Z;
  groups : nat;
  use_mask : bool;
}.

(** [x * mask]: the mask is converted to 1.0 and 0.0. *)
Definition mul_mask (x : ftensor) (x_len : list Z) : result ftensor :=
  B ← broadcast_dim (fdim0 x) (length x_len);
  Ok (fmk_tensor B (fdim1 x) (fdim2 x) (λ i c t,
        fmul (fget x (bidx (fdim0 x) i) c t)
          (Finite (Z.b2z (MaskConv1d.mask_at x_len i t))))).

(** [x *= mask] on a NumPy array. *)
Definition imul_mask (x : ftensor) (x_len : list Z) : result ftensor :=
  B ← broadcast_dim (fdim0 x) (length x_len);
  if decide (B = fdim0 x)
  then Ok (fmk_tensor (fdim0 x) (fdim1 x) (fdim2 x) (λ i c t,
             fmul (fget x i c t)
               (Finite (Z.b2z (MaskConv1d.mask_at x_len i t)))))
  else Err ValueError.

Definition apply_mask (kind : array_kind) (x : ftensor) (x_len : list Z)
    : result ftensor :=
  match kind with
  | NdArray => imul_mask x x_len
  | FVariable => mul_mask x x_len
  end.

(** The length one item is given by the masking branch: every operation
    on the vector of 64-bit integers wraps around. *)
Definition out_len (self : t) (len : Z) : Z :=
  MaskConv1d.wrap64
    (MaskConv1d.wrap64
       (MaskConv1d.wrap64
          (MaskConv1d.wrap64
             (MaskConv1d.wrap64 (len + 2 * pad self)
              - dilate self * (ksize self - 1)) - 1)
        / stride self) + 1).

Definition masked_input (self : t) (kind : array_kind) (x : ftensor)
    (x_len : list Z) : result ftensor :=
  if use_mask self then apply_mask kind x x_len else Ok x.

Definition new_len (self : t) (x_len : list Z) : list Z :=
  if use_mask self then out_len self <$> x_len else x_len.

(** [__call__], as a function of the values of its arguments. *)
Definition forward (self : t) (kind : array_kind) (x : ftensor)
    (x_len : list Z) : result (ftensor * list Z) :=
  x ← masked_input self kind x x_len;
  let x_len := new_len self x_len in
  x ← fconvolution_1d x (W self) (b self) (stride self) (pad self)
        (dilate self) (groups self);
  Ok (x, x_len).

(** [__init__], as [MaskConv1d_init] above. *)
Definition init (w : nat → nat → nat → fval) (bias : nat → fval)
    (in_channels out_channels : nat) (ksize stride pad dilate : Z)
    (groups : nat) (use_bias use_mask : bool) : result t :=
  if decide (groups = 0%nat) then Err ZeroDivisionError
  else if decide ((out_channels `mod` groups = 0)%nat ∧
                  (in_channels `mod` groups = 0)%nat ∧ 0 ≤ ksize)
  then Ok {|
    W := fmk_tensor out_channels (in_channels / groups) (Z.to_nat ksize) w;
    b := if use_bias then Some (tabulate out_channels bias) else None;
    ksize := ksize;
    stride := stride;
    pad := pad;
    dilate := dilate;
    groups := groups;
    use_mask := use_mask;
  |}
  else Err ValueError.

(** [mask_conv1d1] *)
Definition mask_conv1d1 (w : nat → nat → nat → fval) (bias : nat → fval)
    (in_channels out_channels : nat) (stride : Z) (groups : nat)
    (use_bias : bool) : result t :=
  init w bias in_channels out_channels 1 stride 0 1 groups use_bias true.

(** The convolution with the same parameters and finite weights. *)
Definition of_finite (self : MaskConv1d.t) : t := {|
  W := finite_tensor (MaskConv1d.W self);
  b := (λ l : list Z, Finite <$> l) <$> MaskConv1d.b self;
  ksize := MaskConv1d.ksize self;
  stride := MaskConv1d.stride self;
  pad := MaskConv1d.pad self;
  dilate := MaskConv1d.dilate self;
  groups := MaskConv1d.groups self;
  use_mask := MaskConv1d.use_mask self;
|}.

End FMaskConv1d.

(** [ChannelShuffle1d.__call__] on single-precision entries, as
    [ChannelShuffle1d.call] above. *)
Definition fchannel_shuffle (self : ChannelShuffle1d.t) (x : ftensor)
    : result ftensor :=
  let '(batch, channels, seq_len) := fshape x in
  if decide (ChannelShuffle1d.groups self = 0%nat) then Err ZeroDivisionError
  else
    let channels_per_group := (channels / ChannelShuffle1d.groups self)%nat in
    if decide (batch * ChannelShuffle1d.groups self * channels_per_group * seq_len
               = batch * channels * seq_len)%nat
    then Ok (fmk_tensor batch channels seq_len (λ b c t,
               fget x b ((c `mod` ChannelShuffle1d.groups self) * channels_per_group
                         + c / ChannelShuffle1d.groups self)%nat t))
    else Err TypeError.

(** [DwsConvBlock1d] on single-precision entries and 64-bit lengths, as
    [DwsConvBlock1d] above. *)
Module FDwsConvBlock1d.

Record t : Type := {
  dw_conv : FMaskConv1d.t;
  pw_conv : FMaskConv1d.t;
  use_channel_shuffle : bool;
  shuffle : ChannelShuffle1d.t;
  use_bn : bool;
  bn : ftensor → ftensor;
  activate : bool;
  activ : ftensor → ftensor;
  use_dropout : bool;
  dropout : ftensor → ftensor;
}.

Definition init (w_dw : nat → nat → nat → fval) (bias_dw : nat → fval)
    (w_pw : nat → nat → nat → fval) (bias_pw : nat → fval)
    (bn : ftensor → ftensor) (dropout : Q → ftensor → ftensor)
    (in_channels out_channels : nat) (ksize stride pad dilate : Z)
    (groups : nat) (use_bias use_bn : bool)
    (activation : option (ftensor → ftensor)) (dropout_rate : Q) : result t :=
  let use_channel_shuffle := bool_decide (1 < groups)%nat in
  dw_conv ← FMaskConv1d.init w_dw bias_dw in_channels in_channels ksize
              stride pad dilate in_channels use_bias true;
  pw_conv ← FMaskConv1d.mask_conv1d1 w_pw bias_pw in_channels out_channels 1
              groups use_bias;
  shuffle ←
    (if use_channel_shuffle then ChannelShuffle1d.init out_channels groups
     else Ok {| ChannelShuffle1d.groups := groups |});
  Ok {|
    dw_conv := dw_conv;
    pw_conv := pw_conv;
    use_channel_shuffle := use_channel_shuffle;
    shuffle := shuffle;
    use_bn := use_bn;
    bn := bn;
    activate := bool_decide (is_Some activation);
    activ := default id activation;
    use_dropout := negb (Qeq_bool dropout_rate 0);
    dropout := dropout dropout_rate;
  |}.

Definition call (self : t) (kind : array_kind) (x : ftensor) (x_len : list Z)
    : result (ftensor * list Z) :=
  '(x, x_len) ← FMaskConv1d.forward (dw_conv self) kind x x_len;
  '(x, x_len) ← FMaskConv1d.forward (pw_conv self) FVariable x x_len;
  x ← (if use_channel_shuffle self then fchannel_shuffle (shuffle self) x
       else Ok x);
  let x := if use_bn self then bn self x else x in
  let x := if activate self then activ self x else x in
  let x := if use_dropout self then dropout self x else x in
  Ok (x, x_len).

End FDwsConvBlock1d.

(** The stages that [get_mobilenetv2] describes.  The stage that is open
    at the start holds the channels of the layers that come before the
    first layer that downsamples. *)
Fixpoint open_stage (ys : list (Z * Z * Z)) : list Z :=
  match ys with
  | [] => []
  | (c, n, downsample) :: ys =>
      if decide (downsample ≠ 0) then []
      else replicate (Z.to_nat n) c ++ open_stage ys
  end.

(** Every layer that downsamples starts a stage, which holds its channels
    and those of the layers up to the next layer that downsamples. *)
Fixpoint later_stages (ys : list (Z * Z * Z)) : list (list Z) :=
  match ys with
  | [] => []
  | (c, n, downsample) :: ys =>
      if decide (downsample ≠ 0)
      then (replicate (Z.to_nat n) c ++ open_stage ys) :: later_stages ys
      else later_stages ys
  end.

(** ** Further instances *)

Module Examples.

(** [Reference.ones_3] with another value in its last frame. *)
Definition ones_3_noisy : tensor := of_lists 1 1 3 [[[1; 1; 7]]].

(** A pointwise convolution of stride 2 over one channel, with the weight
    one and no bias, five frames of ones, and what the convolution returns
    for them with the valid length 3. *)
Definition pointwise2 : MaskConv1d.t :=
  match mask_conv1d1 (λ _ _ _, 1) (λ _, 0) 1 1 2 1 false with
  | Ok conv => conv
  | Err _ => Reference.conv3
  end.

Definition ones_5 : tensor := of_lists 1 1 5 [[[1; 1; 1; 1; 1]]].

Definition pointwise2_5 : tensor := of_lists 1 1 3 [[[1; 1; 0]]].

(** Six channels of one frame, and their shuffle in two groups. *)
Definition channels_6 : tensor :=
  of_lists 1 6 1 [[[1]; [2]; [3]; [4]; [5]; [6]]].

Definition shuffled_6 : tensor :=
  of_lists 1 6 1 [[[1]; [4]; [2]; [5]; [3]; [6]]].

(** Two channels of three frames. *)
Definition channels_2 : tensor := of_lists 1 2 3 [[[1; 2; 3]; [4; 5; 6]]].

(** Four channels of two frames, and their shuffle in two groups. *)
Definition channels_4 : tensor :=
  of_lists 1 4 2 [[[1; 2]; [3; 4]; [5; 6]; [7; 8]]].

Definition shuffled_4 : tensor :=
  of_lists 1 4 2 [[[1; 2]; [5; 6]; [3; 4]; [7; 8]]].

(** Blocks without normalisation whose weights are all one, of the class
    [MaskConvBlock1d] whatever the first argument, and the same with one
    channel whatever the counts of channels. *)
Definition ones_block (in_channels out_channels : nat)
    (ksize stride pad dilate : Z) (activation : bool) : conv_block :=
  BMask {|
    MaskConvBlock1d.conv := {|
      MaskConv1d.W := mk_tensor out_channels in_channels (Z.to_nat ksize) (λ _ _ _, 1);
      MaskConv1d.b := None;
      MaskConv1d.ksize := ksize;
      MaskConv1d.stride := stride;
      MaskConv1d.pad := pad;
      MaskConv1d.dilate := dilate;
      MaskConv1d.groups := 1;
      MaskConv1d.use_mask := true;
    |};
    MaskConvBlock1d.use_bn := false;
    MaskConvBlock1d.bn := id;
    MaskConvBlock1d.activate := activation;
    MaskConvBlock1d.activ := Reference.relu;
    MaskConvBlock1d.use_dropout := false;
    MaskConvBlock1d.dropout := id;
  |}.

Definition new_block (_ : bool) (in_channels out_channels ksize stride pad dilate : Z)
    (_ _ : Q) (activation : bool) : conv_block :=
  ones_block (Z.to_nat in_channels) (Z.to_nat out_channels) ksize stride pad
    dilate activation.

Definition new_block_1 (_ : bool) (_ _ ksize stride pad dilate : Z)
    (_ _ : Q) (activation : bool) : conv_block :=
  ones_block 1 1 ksize stride pad dilate activation.

(** The product of an integer and a scale, exact and rounded down. *)
Definition int_mul (c : Z) (width_scale : Q) : Z :=
  Qfloor (inject_Z c * width_scale).

(** Three frames of one channel whose last entry is not finite, and the
    same with a one there. *)
Definition ones_3_inf : ftensor :=
  fmk_tensor 1 1 3 (λ _ _ t, if decide (t < 2)%nat then Finite 1 else NonFinite).

(** A pointwise convolution with the padding 1, the stride 1 and the
    weight one, and one with the stride 2 and no padding. *)
Definition fpointwise_pad1 : FMaskConv1d.t :=
  FMaskConv1d.of_finite (Reference.ones_conv 1 1 1 1).

Definition fpointwise2 : FMaskConv1d.t := FMaskConv1d.of_finite pointwise2.

(** An output link that returns its argument. *)
Definition conv1d1 (_ _ : Z) (_ : bool) : unit := tt.

Definition run_link (_ : unit) (x : tensor) : result tensor := Ok x.

End Examples.

(** * Properties *)

(** One step of a computation in [result]: the bind of a known outcome. *)
Tactic Notation "result_step" := cbn [mbind result_bind].
Tactic Notation "result_step" "in" hyp(H) := cbn [mbind result_bind] in H.

(** ** The greedy CTC decoder *)

Section CtcDecoderFacts.
Import CtcDecoder.

Lemma fold_step_collapse blank prediction acc previous :
  fst (fold_left (step blank) prediction (acc, previous))
  = acc ++ collapse_from blank previous prediction.
Proof.
  revert acc previous.
  induction prediction as [|p rest IH]; intros acc previous; simpl.
  - by rewrite app_nil_r.
  - rewrite IH, andb_comm.
    destruct (negb (p =? blank) && _); [|done].
    by rewrite <- app_assoc.
Qed.

Lemma decoded_prediction_collapse blank prediction :
  decoded_prediction blank prediction = collapse blank prediction.
Proof. apply (fold_step_collapse blank prediction [] blank). Qed.

(** The dictionary built by [__init__] holds exactly the indices of the
    vocabulary. *)
Lemma lookup_imap_from (vocabulary : list string) (n : nat) (k : Z) :
  (list_to_map (imap (λ i c, (Z.of_nat (n + i), c)) vocabulary)
     : gmap Z string) !! k
  = if decide (Z.of_nat n ≤ k) then vocabulary !! (Z.to_nat k - n)%nat else None.
Proof.
  revert n. induction vocabulary as [|c rest IH]; intros n.
  - simpl. rewrite lookup_empty. by case_decide.
  - rewrite imap_cons. cbn [list_to_map foldr uncurry fst snd].
    destruct (decide (k = Z.of_nat (n + 0))) as [->|Hne].
    + rewrite lookup_insert_eq. rewrite decide_True by lia.
      by replace (Z.to_nat (Z.of_nat (n + 0)) - n)%nat with 0%nat by lia.
    + rewrite lookup_insert_ne by done.
      rewrite (imap_ext _ (λ i c, (Z.of_nat (S n + i), c))); last first.
      { intros i x _. simpl. f_equal. lia. }
      rewrite IH. repeat case_decide; try lia; [|done].
      replace (Z.to_nat k - n)%nat with (S (Z.to_nat k - S n)) by lia.
      done.
Qed.

Lemma labels_map_lookup vocabulary k :
  labels_map (init vocabulary) !! k
  = if decide (0 ≤ k) then vocabulary !! Z.to_nat k else None.
Proof.
  pose proof (lookup_imap_from vocabulary 0 k) as H.
  unfold init; simpl in *. rewrite H.
  case_decide; case_decide; try lia; [|done].
  by rewrite Nat.sub_0_r.
Qed.

Lemma dict_get_labels_Ok vocabulary k :
  is_Ok (dict_get (labels_map (init vocabulary)) k)
  ↔ 0 ≤ k < Z.of_nat (length vocabulary).
Proof.
  unfold dict_get. rewrite labels_map_lookup. case_decide.
  - destruct (vocabulary !! Z.to_nat k) eqn:E.
    + apply lookup_lt_Some in E. split; [lia | by eexists].
    + apply lookup_ge_None in E. split; [intros [? ?]; done | lia].
  - split; [intros [? ?]; done | lia].
Qed.

Lemma mapM_result_cons {A B} (f : A → result B) (a : A) (l : list A) :
  mapM f (a :: l) = y ← f a; k ← mapM f l; Ok (y :: k).
Proof. done. Qed.

Lemma mapM_result_Ok {A B} (f : A → result B) (l : list A) :
  is_Ok (mapM f l) ↔ Forall (λ a, is_Ok (f a)) l.
Proof.
  induction l as [|a l IH]; simpl.
  - split; [constructor | by eexists].
  - rewrite Forall_cons, <- IH. unfold is_Ok.
    destruct (f a) as [b|e]; simpl.
    + destruct (mapM f l) as [bs|e]; simpl.
      * split; [intros _; split; by eexists | intros _; by eexists].
      * split; [intros [? ?]; done | intros [_ [? ?]]; done].
    + split; [intros [? ?]; done | intros [[? ?] _]; done].
Qed.

Lemma fmap_result_Ok {A B} (f : A → B) (m : result A) :
  is_Ok (f <$> m) ↔ is_Ok m.
Proof.
  unfold is_Ok. destruct m; simpl.
  - split; intros _; by eexists.
  - split; intros [? ?]; done.
Qed.

(** Every index that is kept is an index of the input other than the
    blank one. *)
Lemma collapse_from_elem blank previous frames p :
  p ∈ collapse_from blank previous frames → p ∈ frames ∧ p ≠ blank.
Proof.
  revert previous. induction frames as [|q rest IH]; intros previous; simpl.
  - by intros ?%elem_of_nil.
  - destruct (negb (q =? blank) && _) eqn:E.
    + intros [->|H]%elem_of_cons.
      * apply andb_prop in E as [E _]. split; [left | lia].
      * destruct (IH _ H). split; [by right | done].
    + intros H. destruct (IH _ H). split; [by right | done].
Qed.

(** The first index of the input that lies outside of [0, blank] is
    kept, since the index before it lies inside. *)
Lemma collapse_from_in_range blank previous frames :
  0 ≤ previous ≤ blank →
  Forall (λ p, 0 ≤ p < blank) (collapse_from blank previous frames) →
  Forall (λ p, 0 ≤ p ≤ blank) frames.
Proof.
  revert previous. induction frames as [|q rest IH]; intros previous Hprev; simpl.
  - constructor.
  - destruct (decide (0 ≤ q ≤ blank)) as [Hq|Hq].
    + intros H. constructor; [done|]. apply (IH q Hq).
      destruct (negb (q =? blank) && _); [by inversion H | done].
    + replace (negb (q =? blank) && (negb (q =? previous) || (previous =? blank)))
        with true.
      * intros H. inversion H; subst. lia.
      * symmetry. apply andb_true_intro. split.
        -- apply negb_true_iff, Z.eqb_neq. lia.
        -- apply orb_true_intro. left. apply negb_true_iff, Z.eqb_neq. lia.
Qed.

Lemma hypothesis_Ok vocabulary prediction :
  is_Ok (hypothesis (init vocabulary) prediction)
  ↔ Forall (λ p, 0 ≤ p ≤ Z.of_nat (length vocabulary)) prediction.
Proof.
  unfold hypothesis. rewrite fmap_result_Ok, mapM_result_Ok.
  rewrite decoded_prediction_collapse. unfold collapse.
  change (blank_id (init vocabulary)) with (Z.of_nat (length vocabulary)).
  set (blank := Z.of_nat (length vocabulary)).
  rewrite (Forall_iff _ _ (λ p, 0 ≤ p < blank)); last first.
  { intros p. apply dict_get_labels_Ok. }
  split.
  - apply collapse_from_in_range. lia.
  - intros H. apply Forall_forall. intros p Hp.
    apply collapse_from_elem in Hp as [Hp Hne].
    rewrite Forall_forall in H. specialize (H p Hp). lia.
Qed.

End CtcDecoderFacts.

(** C1.  For every blank index and every sequence of label indices, the
    list [decoded_prediction] that the decoder builds is the list the
    collapse rule describes: starting with [previous = blank], a frame [p]
    is appended iff [p != blank] and ([p != previous] or
    [previous == blank]), and [previous] becomes [p] in either case; the
    string the decoder emits is made of the labels of that list.  The
    four listed inputs give the listed outputs with blank 5, also through
    [__call__] on a vocabulary of five letters. *)
Theorem ctc_collapse_rule :
  (∀ blank prediction,
     CtcDecoder.decoded_prediction blank prediction
     = CtcDecoder.collapse blank prediction) ∧
  (∀ self prediction,
     CtcDecoder.hypothesis self prediction
     = CtcDecoder.join
         <$> mapM (dict_get (CtcDecoder.labels_map self))
               (CtcDecoder.collapse (CtcDecoder.blank_id self) prediction)) ∧
  CtcDecoder.decoded_prediction 5 [1; 1; 2; 5; 2; 3] = [1; 2; 2; 3] ∧
  CtcDecoder.decoded_prediction 5 [5; 5; 5] = [] ∧
  CtcDecoder.decoded_prediction 5 [1; 5; 1] = [1; 1] ∧
  CtcDecoder.decoded_prediction 5 [4; 4; 4; 4] = [4] ∧
  CtcDecoder.call (CtcDecoder.init ["a"; "b"; "c"; "d"; "e"]%string)
    [[1; 1; 2; 5; 2; 3]; [5; 5; 5]; [1; 5; 1]; [4; 4; 4; 4]]
  = Ok ["bccd"; ""; "bb"; "e"]%string.
Proof.
  split; [apply decoded_prediction_collapse|].
  split.
  { intros self prediction. unfold CtcDecoder.hypothesis.
    by rewrite decoded_prediction_collapse. }
  repeat split; vm_compute; reflexivity.
Qed.

(** C10, as the code has it.  The blank index is [len(vocabulary)].
    Decoding a batch succeeds, with one string per sequence, exactly when
    every index of every sequence lies in [0, len(vocabulary)]; the empty
    sequence is decoded to the empty string.  An index outside of that
    range is looked up in [labels_map] and raises [KeyError]. *)
Theorem ctc_decoder_succeeds_iff_in_range :
  ∀ (vocabulary : list string) (predictions : list (list Z)),
    CtcDecoder.blank_id (CtcDecoder.init vocabulary)
    = Z.of_nat (length vocabulary) ∧
    ((∃ hypotheses, CtcDecoder.call (CtcDecoder.init vocabulary) predictions
                    = Ok hypotheses
                    ∧ length hypotheses = length predictions)
     ↔ Forall (Forall (λ p, 0 ≤ p ≤ Z.of_nat (length vocabulary))) predictions) ∧
    CtcDecoder.call (CtcDecoder.init vocabulary) [[]] = Ok [""%string].
Proof.
  intros vocabulary predictions. split; [done|]. split; [|done].
  assert (Hlen : ∀ hs, CtcDecoder.call (CtcDecoder.init vocabulary) predictions = Ok hs
                 → length hs = length predictions).
  { unfold CtcDecoder.call. induction predictions as [|p ps IH]; simpl.
    - intros hs [= <-]. done.
    - destruct (CtcDecoder.hypothesis _ p); simpl; [|done].
      destruct (mapM _ ps); simpl; [|done].
      intros hs [= <-]. simpl. f_equal. by apply IH. }
  rewrite <- (Forall_iff (λ p, is_Ok (CtcDecoder.hypothesis (CtcDecoder.init vocabulary) p)));
    last first.
  { intros p. apply hypothesis_Ok. }
  rewrite <- mapM_result_Ok. unfold is_Ok, CtcDecoder.call.
  split.
  - intros (hs & H & _). by exists hs.
  - intros (hs & H). exists hs. split; [done|]. by apply Hlen.
Qed.

(** C10, as stated, fails: an index outside of the vocabulary other than
    the blank one raises [KeyError]. *)
Lemma ctc_decoder_key_error :
  CtcDecoder.call (CtcDecoder.init ["a"%string]) [[2]] = Err KeyError ∧
  ¬ is_Ok (CtcDecoder.call (CtcDecoder.init ["a"%string]) [[2]]).
Proof.
  split; [vm_compute; reflexivity|].
  intros [hs H]. vm_compute in H. discriminate.
Qed.

(** ** Arrays *)

Section ArrayFacts.

Lemma lookup_tabulate {A} (n : nat) (f : nat → A) (i : nat) :
  tabulate n f !! i = if decide (i < n)%nat then Some (f i) else None.
Proof.
  unfold tabulate. rewrite list_lookup_fmap. case_decide.
  - by rewrite lookup_seq_lt.
  - by rewrite lookup_seq_ge by lia.
Qed.

Lemma tabulate_ext {A} (n : nat) (f g : nat → A) :
  (∀ i, (i < n)%nat → f i = g i) → tabulate n f = tabulate n g.
Proof.
  intros H. unfold tabulate. apply list_eq. intros i.
  rewrite !list_lookup_fmap.
  destruct (seq 0 n !! i) as [j|] eqn:E; [|done].
  apply lookup_seq in E as [-> ?]. simpl. f_equal. by apply H.
Qed.

Lemma get_mk_tensor B C T f i c t :
  get (mk_tensor B C T f) i c t
  = if decide ((i < B)%nat ∧ (c < C)%nat ∧ (t < T)%nat) then f i c t else 0.
Proof.
  unfold get, mk_tensor; simpl. rewrite lookup_tabulate.
  destruct (decide (i < B)%nat); simpl; [|by rewrite decide_False by lia].
  rewrite lookup_tabulate.
  destruct (decide (c < C)%nat); simpl; [|by rewrite decide_False by lia].
  rewrite lookup_tabulate.
  destruct (decide (t < T)%nat); simpl.
  - by rewrite decide_True by lia.
  - by rewrite decide_False by lia.
Qed.

Lemma get_mk_tensor_in B C T f i c t :
  (i < B)%nat → (c < C)%nat → (t < T)%nat →
  get (mk_tensor B C T f) i c t = f i c t.
Proof. intros. rewrite get_mk_tensor. by rewrite decide_True by lia. Qed.

Lemma mget_mk_matrix C T f c t :
  mget (mk_matrix C T f) c t
  = if decide ((c < C)%nat ∧ (t < T)%nat) then f c t else 0.
Proof.
  unfold mget, mk_matrix; simpl. rewrite lookup_tabulate.
  destruct (decide (c < C)%nat); simpl; [|by rewrite decide_False by lia].
  rewrite lookup_tabulate.
  destruct (decide (t < T)%nat); simpl.
  - by rewrite decide_True by lia.
  - by rewrite decide_False by lia.
Qed.

Lemma mk_tensor_ext B C T f g :
  (∀ i c t, (i < B)%nat → (c < C)%nat → (t < T)%nat → f i c t = g i c t) →
  mk_tensor B C T f = mk_tensor B C T g.
Proof.
  intros H. unfold mk_tensor. f_equal.
  apply tabulate_ext; intros i Hi.
  apply tabulate_ext; intros c Hc.
  apply tabulate_ext; intros t Ht. by apply H.
Qed.

Lemma canonical_mk_tensor B C T f : canonical (mk_tensor B C T f).
Proof.
  unfold canonical. change (dim0 (mk_tensor B C T f)) with B.
  change (dim1 (mk_tensor B C T f)) with C.
  change (dim2 (mk_tensor B C T f)) with T.
  apply mk_tensor_ext. intros. by rewrite get_mk_tensor_in.
Qed.

End ArrayFacts.

(** ** The mel-spectrogram extractor *)

Section ExtractorFacts.
Import NemoMelSpecExtractor.
Context {sample : Type}.
Variable mel_value : list sample → nat → nat → Z.

(** The rounded-up quotient, in integers. *)
Lemma Qceiling_div (a b : Z) :
  Qceiling (inject_Z a / inject_Z b) = - ((- a) / b).
Proof.
  unfold Qceiling. f_equal. rewrite Zdiv_Qdiv.
  apply Qfloor_comp. rewrite inject_Z_opp. unfold Qdiv. ring.
Qed.

Lemma ceiling_bounds (a b : Z) :
  0 < b → b * (- ((- a) / b) - 1) < a ≤ b * - ((- a) / b).
Proof.
  intros Hb.
  pose proof (Z.div_mod (- a) b ltac:(lia)).
  pose proof (Z.mod_pos_bound (- a) b Hb). nia.
Qed.

Lemma frame_count_Ok self n :
  hop_length self ≠ 0 →
  frame_count self n = Ok (- ((- Z.of_nat n) / hop_length self)).
Proof.
  intros H. unfold frame_count. rewrite decide_False by done.
  by rewrite Qceiling_div.
Qed.

Lemma cols_log_mel self xi :
  cols (log_mel mel_value self xi) = stft_frames self (length xi).
Proof. done. Qed.

Lemma rows_log_mel self xi :
  rows (log_mel mel_value self xi) = n_filters self.
Proof. done. Qed.

(** The valid length never exceeds the number of frames. *)
Lemma frame_count_le_stft_frames self n :
  0 < hop_length self →
  0 ≤ - ((- Z.of_nat n) / hop_length self) ≤ Z.of_nat (stft_frames self n).
Proof.
  intros Hh. unfold stft_frames.
  set (h := hop_length self) in *. set (L := Z.of_nat n).
  assert (0 ≤ L) by lia.
  pose proof (ceiling_bounds L h Hh) as Hc.
  set (k := - (- L / h)) in *.
  assert (0 ≤ k) by nia.
  assert (L - 1 ≤ L + 2 * (n_fft self / 2) - n_fft self).
  { pose proof (Z.div_mod (n_fft self) 2 ltac:(lia)).
    pose proof (Z.mod_pos_bound (n_fft self) 2 ltac:(lia)). lia. }
  assert (k - 1 ≤ (L + 2 * (n_fft self / 2) - n_fft self) / h).
  { apply Z.div_le_lower_bound; [done|]. nia. }
  lia.
Qed.

Lemma item_spec self (xi : list sample) :
  hop_length self ≠ 0 →
  xi ≠ [] →
  item mel_value self xi
  = if decide (cols (log_mel mel_value self xi) = 1%nat)
    then Err AssertionError
    else Ok (- ((- Z.of_nat (length xi)) / hop_length self),
             log_mel mel_value self xi).
Proof.
  intros H Hne. unfold item. rewrite frame_count_Ok by done.
  result_step. by rewrite decide_False.
Qed.

Lemma item_empty self : hop_length self ≠ 0 → item mel_value self [] = Err ValueError.
Proof. intros H. unfold item. by rewrite frame_count_Ok. Qed.

(** The first loop: an assertion failure at the first item whose matrix
    has one frame, and the list of valid lengths and matrices if there
    is none. *)
Lemma items_spec self (xs : list (list sample)) :
  hop_length self ≠ 0 →
  Forall (λ xi, xi ≠ []) xs →
  mapM (item mel_value self) xs
  = if decide (Exists (λ xi, cols (log_mel mel_value self xi) = 1%nat) xs)
    then Err AssertionError
    else Ok ((λ xi, (- ((- Z.of_nat (length xi)) / hop_length self),
                     log_mel mel_value self xi)) <$> xs).
Proof.
  intros Hh Hne. induction xs as [|xi xs IH].
  - destruct (decide _) as [H|H]; [by apply Exists_nil in H | done].
  - apply Forall_cons in Hne as [Hxi Hne]. specialize (IH Hne).
    rewrite mapM_result_cons, item_spec by done.
    destruct (decide (cols (log_mel mel_value self xi) = 1%nat)) as [H1|H1].
    + rewrite decide_True; [done|]. by left.
    + result_step. rewrite IH.
      destruct (decide (Exists _ xs)) as [He|He].
      * rewrite decide_True; [done|]. by right.
      * rewrite decide_False; [done|].
        intros [?|?]%Exists_cons; done.
Qed.

Lemma assign_item_fits x i k yi :
  fits x (k, yi) →
  assign_item x i k yi
  = Ok (mk_tensor (dim0 x) (dim1 x) (dim2 x) (λ j c t,
          if decide (j = i ∧ (t < Z.to_nat k)%nat)
          then mget yi c t else get x j c t)).
Proof.
  intros (Hr & Hk & Hc & Hd); simpl in *. unfold assign_item.
  assert (slice_stop k (dim2 x) = Z.to_nat k) as ->.
  { unfold slice_stop. rewrite decide_True by done. lia. }
  assert (slice_stop k (cols yi) = Z.to_nat k) as ->.
  { unfold slice_stop. rewrite decide_True by done. lia. }
  rewrite decide_True by auto. f_equal.
  apply mk_tensor_ext. intros j c t Hj Hcc Ht.
  destruct (decide (j = i ∧ (t < Z.to_nat k)%nat)) as [[-> Htk]|]; [|done].
  unfold bidx. f_equal; case_decide; lia.
Qed.

Lemma fill_spec items : ∀ x i0,
  Forall (fits x) items →
  canonical x →
  ∃ x', fill x i0 items = Ok x' ∧ shape x' = shape x ∧ canonical x' ∧
    ∀ j c t, (j < dim0 x)%nat → (c < dim1 x)%nat → (t < dim2 x)%nat →
      get x' j c t
      = match (if decide (i0 ≤ j)%nat then items !! (j - i0)%nat else None) with
        | Some (k, yi) =>
            if decide (t < Z.to_nat k)%nat then mget yi c t else get x j c t
        | None => get x j c t
        end.
Proof.
  induction items as [|[k yi] rest IH]; intros x i0 Hfit Hcan.
  - exists x. repeat split; [done|]. intros j c t _ _ _.
    case_decide; [|done]. by rewrite lookup_nil.
  - apply Forall_cons in Hfit as [Hfit Hrest]. cbn [fill].
    rewrite assign_item_fits by done. result_step.
    set (x1 := mk_tensor _ _ _ _).
    destruct (IH x1 (S i0)) as (x' & Hfill & Hshape & Hcan' & Hget).
    { eapply Forall_impl; [exact Hrest|]. intros [k' y'] H. exact H. }
    { apply canonical_mk_tensor. }
    exists x'. split; [done|]. split.
    { rewrite Hshape. unfold x1, mk_tensor; simpl.
      unfold dim0, dim1, dim2. by destruct (shape x) as [[? ?] ?]. }
    split; [done|]. intros j c t Hj Hc Ht.
    rewrite Hget by done. unfold x1 at 1 2.
    rewrite !get_mk_tensor_in by done.
    destruct (decide (i0 ≤ j)%nat) as [Hle|Hle].
    + destruct (decide (j = i0)) as [->|Hne].
      * rewrite decide_False by lia. rewrite Nat.sub_diag. simpl.
        destruct (decide (t < Z.to_nat k)%nat).
        -- by rewrite decide_True by done.
        -- rewrite decide_False by tauto. done.
      * rewrite decide_True by lia.
        replace (j - i0)%nat with (S (j - S i0)) by lia. simpl.
        rewrite decide_False by tauto. done.
    + rewrite !decide_False by lia. done.
Qed.

(** The value of [__call__] on a batch that is not empty and has no
    item of one frame. *)
Lemma call_spec self (xs : list (list sample)) :
  0 < hop_length self →
  xs ≠ [] →
  Forall (λ xi, xi ≠ []) xs →
  ¬ Exists (λ xi, cols (log_mel mel_value self xi) = 1%nat) xs →
  call mel_value self xs
  = Ok (mk_tensor (length xs) (n_filters self)
          (aligned self (max_list ((λ xi, stft_frames self (length xi)) <$> xs)))
          (λ i c t,
             match xs !! i with
             | Some xi =>
                 if decide (t < Z.to_nat (- ((- Z.of_nat (length xi)) / hop_length self)))%nat
                 then mel_value xi c t else 0
             | None => 0
             end),
        (λ xi, - ((- Z.of_nat (length xi)) / hop_length self)) <$> xs).
Proof.
  intros Hh Hne Hall Hex. unfold call.
  rewrite items_spec by (done || lia). rewrite decide_False by done.
  result_step.
  set (items := _ <$> xs).
  assert (Hys : items.*2 = log_mel mel_value self <$> xs).
  { unfold items. rewrite <- list_fmap_compose. done. }
  assert (Hls : items.*1
            = (λ xi, - ((- Z.of_nat (length xi)) / hop_length self)) <$> xs).
  { unfold items. rewrite <- list_fmap_compose. done. }
  rewrite Hys, Hls.
  destruct xs as [|x0 xs']; [done|].
  cbn [fmap list_fmap list_first mbind result_bind].
  change (log_mel mel_value self x0 :: (log_mel mel_value self <$> xs'))
    with (log_mel mel_value self <$> x0 :: xs').
  change ((- (- Z.of_nat (length x0) / hop_length self))
          :: ((λ xi, - ((- Z.of_nat (length xi)) / hop_length self)) <$> xs'))
    with ((λ xi, - ((- Z.of_nat (length xi)) / hop_length self)) <$> x0 :: xs').
  rewrite <- list_fmap_compose.
  set (xs := x0 :: xs') in *.
  set (m := max_list _).
  assert (Hm : m = max_list ((λ xi, stft_frames self (length xi)) <$> xs)) by done.
  rewrite rows_log_mel.
  set (z := mk_tensor _ _ _ (λ _ _ _, 0)).
  destruct (fill_spec items z 0%nat) as (x' & Hfill & Hshape & Hcan & Hget).
  { unfold items. apply Forall_fmap, Forall_forall. intros xi Hxi.
    pose proof (frame_count_le_stft_frames self (length xi) Hh) as [H0 H1].
    repeat split; simpl; [done| |].
    - rewrite cols_log_mel. lia.
    - rewrite cols_log_mel. change (dim2 z) with m. rewrite Hm.
      apply max_list_elem_of_le, list_elem_of_fmap. by exists xi. }
  { apply canonical_mk_tensor. }
  rewrite Hfill. result_step. do 2 f_equal.
  assert (Hval : ∀ i c t, (i < length xs)%nat → (c < n_filters self)%nat →
            (t < m)%nat →
            get x' i c t
            = match xs !! i with
              | Some xi =>
                  if decide (t < Z.to_nat (- ((- Z.of_nat (length xi)) / hop_length self)))%nat
                  then mel_value xi c t else 0
              | None => 0
              end).
  { intros i c t Hi Hc Ht. rewrite (Hget i c t Hi Hc Ht).
    rewrite decide_True by lia. rewrite Nat.sub_0_r.
    unfold items. rewrite list_lookup_fmap.
    unfold z. rewrite get_mk_tensor_in by done.
    destruct (xs !! i) as [xi|] eqn:Exi; simpl; [|done].
    destruct (decide _) as [Hlt|]; [|done].
    unfold log_mel. rewrite mget_mk_matrix. rewrite decide_True; [done|].
    split; [done|].
    pose proof (frame_count_le_stft_frames self (length xi) Hh). lia. }
  assert (Hd : dim0 x' = length xs ∧ dim1 x' = n_filters self ∧ dim2 x' = m).
  { unfold dim0, dim1, dim2. rewrite Hshape. done. }
  destruct Hd as (Hd0 & Hd1 & Hd2).
  unfold aligned. fold m.
  destruct (decide (Z.of_nat m `mod` pad_align self ≠ 0)) as [Hp|Hp].
  - unfold pad_time. rewrite Hd0, Hd1, Hd2.
    apply mk_tensor_ext. intros i c t Hi Hc Ht.
    destruct (decide (t < m)%nat) as [Hlt|Hge].
    + by apply Hval.
    + destruct (xs !! i) as [xi|] eqn:Exi; [|done].
      rewrite decide_False; [done|].
      pose proof (frame_count_le_stft_frames self (length xi) Hh).
      assert (stft_frames self (length xi) ≤ m)%nat; [|lia].
      rewrite Hm. apply max_list_elem_of_le, list_elem_of_fmap.
      exists xi. split; [done|]. by eapply list_elem_of_lookup_2.
  - rewrite Hcan, Hd0, Hd1, Hd2.
    apply mk_tensor_ext. intros i c t Hi Hc Ht. by apply Hval.
Qed.

End ExtractorFacts.

Section ExtractorOutcome.
Import NemoMelSpecExtractor.
Context {sample : Type}.
Variable mel_value : list sample → nat → nat → Z.

Lemma call_empty self : call mel_value self [] = Err IndexError.
Proof. done. Qed.

Lemma call_single_frame self (xs : list (list sample)) :
  0 < hop_length self →
  Forall (λ xi, xi ≠ []) xs →
  Exists (λ xi, cols (log_mel mel_value self xi) = 1%nat) xs →
  call mel_value self xs = Err AssertionError.
Proof.
  intros Hh Hall Hex. unfold call. rewrite items_spec by (done || lia).
  by rewrite decide_True.
Qed.

Lemma items_Ok_nonempty self (xs : list (list sample)) items :
  hop_length self ≠ 0 →
  mapM (item mel_value self) xs = Ok items → Forall (λ xi, xi ≠ []) xs.
Proof.
  intros Hh. revert items. induction xs as [|xi xs IH]; intros items.
  - constructor.
  - rewrite mapM_result_cons.
    destruct xi as [|a xi]; [by rewrite item_empty|].
    destruct (item mel_value self (a :: xi)); [|done].
    result_step.
    destruct (mapM (item mel_value self) xs) as [items'|] eqn:E; [|done].
    intros _. constructor; [done|]. by eapply IH.
Qed.

(** A call that returns was given a batch that is not empty and has no
    item of one frame. *)
Lemma call_Ok_inv self (xs : list (list sample)) r :
  0 < hop_length self →
  call mel_value self xs = Ok r →
  xs ≠ [] ∧ Forall (λ xi, xi ≠ []) xs ∧
  ¬ Exists (λ xi, cols (log_mel mel_value self xi) = 1%nat) xs.
Proof.
  intros Hh Hcall.
  assert (Hall : Forall (λ xi, xi ≠ []) xs).
  { unfold call in Hcall.
    destruct (mapM (item mel_value self) xs) as [items|] eqn:E; [|done].
    eapply items_Ok_nonempty; [|exact E]. lia. }
  split; [|split; [done|]].
  - intros ->. by rewrite call_empty in Hcall.
  - intros Hex. by rewrite call_single_frame in Hcall.
Qed.

Lemma aligned_spec self m :
  0 < pad_align self →
  Z.of_nat (aligned self m) `mod` pad_align self = 0 ∧
  Z.of_nat m ≤ Z.of_nat (aligned self m) < Z.of_nat m + pad_align self.
Proof.
  intros Hp. unfold aligned.
  pose proof (Z.mod_pos_bound (Z.of_nat m) (pad_align self) Hp) as Hb.
  pose proof (Z.div_mod (Z.of_nat m) (pad_align self) ltac:(lia)) as Hdm.
  set (r := Z.of_nat m `mod` pad_align self) in *.
  set (q := Z.of_nat m `div` pad_align self) in *.
  destruct (decide (r ≠ 0)).
  - split; [|lia].
    replace (Z.of_nat (m + Z.to_nat (pad_align self - r)))
      with ((q + 1) * pad_align self) by lia.
    apply Z.mod_mul. lia.
  - split; [|lia]. fold r. lia.
Qed.

End ExtractorOutcome.

(** ** The extractor with its default arguments *)

Section DefaultExtractor.
Import NemoMelSpecExtractor.
Context {sample : Type}.
Variable mel_value : list sample → nat → nat → Z.

(** With 512 FFT bins and a hop of 160 samples, a waveform of [n] samples
    has [1 + n // 160] frames. *)
Lemma default_stft_frames (n : nat) :
  stft_frames default n = Z.to_nat (1 + Z.of_nat n / 160).
Proof.
  unfold stft_frames, default, init. simpl.
  change (512 / 2) with 256. do 3 f_equal. lia.
Qed.

(** The matrix has one frame exactly when the waveform is shorter than
    one hop. *)
Lemma default_single_frame (xi : list sample) :
  cols (log_mel mel_value default xi) = 1%nat ↔ (length xi < 160)%nat.
Proof.
  rewrite cols_log_mel, default_stft_frames.
  pose proof (Z.div_pos (Z.of_nat (length xi)) 160 ltac:(lia) ltac:(lia)).
  pose proof (Z.div_small_iff (Z.of_nat (length xi)) 160 ltac:(lia)).
  split; intros Hc; [|assert (Z.of_nat (length xi) / 160 = 0)]; lia.
Qed.

Lemma default_single_frame_exists (xs : list (list sample)) :
  Exists (λ xi, cols (log_mel mel_value default xi) = 1%nat) xs
  ↔ Exists (λ xi, (length xi < 160)%nat) xs.
Proof.
  rewrite !Exists_exists. split; intros (xi & Hin & H); exists xi;
    (split; [done|]); by apply default_single_frame.
Qed.

(** The lengths of an accepted batch, for every extractor. *)
Lemma call_lengths self (xs : list (list sample)) x x_len :
  0 < hop_length self →
  call mel_value self xs = Ok (x, x_len) →
  Forall2 (λ xi n,
      frame_count self (length xi) = Ok n ∧
      hop_length self * (n - 1) < Z.of_nat (length xi) ≤ hop_length self * n)
    xs x_len.
Proof.
  intros Hh Hcall.
  destruct (call_Ok_inv mel_value self xs _ Hh Hcall) as (Hne & Hall & Hex).
  rewrite (call_spec mel_value self xs Hh Hne Hall Hex) in Hcall.
  injection Hcall as _ <-.
  apply Forall2_fmap_r, Forall_Forall2_diag, Forall_forall.
  intros xi _. split; [apply frame_count_Ok; lia|].
  by apply ceiling_bounds.
Qed.

End DefaultExtractor.

(** C5, as the code has it.  Take a batch that is not empty, of
    waveforms of one sample at least.  The extractor with its default
    arguments, whose hop is 160 samples, returns exactly when every
    waveform has 160 samples or more, and fails with the assertion error
    otherwise.  When an extractor returns, whatever its hop, the valid
    length it reports for a waveform of [L] samples is the quotient of
    [L] by the hop rounded up, the integer [n] with
    [hop_length * (n - 1) < L <= hop_length * n], one per waveform and in
    order. *)
Theorem valid_frame_count_is_ceiling :
  ∀ (sample : Type) (mel_value : list sample → nat → nat → Z)
    (xs : list (list sample)),
    xs ≠ [] →
    Forall (λ xi, (1 ≤ length xi)%nat) xs →
    (is_Ok (NemoMelSpecExtractor.call mel_value NemoMelSpecExtractor.default xs)
     ↔ Forall (λ xi, (160 ≤ length xi)%nat) xs) ∧
    (Exists (λ xi, (length xi < 160)%nat) xs →
     NemoMelSpecExtractor.call mel_value NemoMelSpecExtractor.default xs
     = Err AssertionError) ∧
    (∀ (self : NemoMelSpecExtractor.t) (x : tensor) (x_len : list Z),
       0 < NemoMelSpecExtractor.hop_length self →
       NemoMelSpecExtractor.call mel_value self xs = Ok (x, x_len) →
       Forall2 (λ xi n,
           NemoMelSpecExtractor.frame_count self (length xi) = Ok n ∧
           NemoMelSpecExtractor.hop_length self * (n - 1)
             < Z.of_nat (length xi)
             ≤ NemoMelSpecExtractor.hop_length self * n)
         xs x_len).
Proof.
  intros sample mel_value xs Hne Hpos.
  assert (Hh : 0 < NemoMelSpecExtractor.hop_length NemoMelSpecExtractor.default)
    by done.
  assert (Hall : Forall (λ xi : list sample, xi ≠ []) xs).
  { eapply Forall_impl; [exact Hpos|]. intros [|s xi] H; [simpl in H; lia|done]. }
  assert (Hshort : Exists (λ xi, (length xi < 160)%nat) xs →
            NemoMelSpecExtractor.call mel_value NemoMelSpecExtractor.default xs
            = Err AssertionError).
  { intros Hex. apply call_single_frame; [done..|].
    by apply default_single_frame_exists. }
  split; [|split; [exact Hshort|]].
  - split.
    + intros [r Hr]. apply Forall_forall. intros xi Hin.
      destruct (decide (160 ≤ length xi)%nat) as [|Hlt]; [done|].
      rewrite Hshort in Hr; [done|].
      apply Exists_exists. exists xi. split; [done|lia].
    + intros Hlong.
      assert (Hex : ¬ Exists (λ xi, cols (NemoMelSpecExtractor.log_mel mel_value
                                NemoMelSpecExtractor.default xi) = 1%nat) xs).
      { rewrite default_single_frame_exists, Exists_exists.
        intros (xi & Hin & Hlt).
        rewrite Forall_forall in Hlong. specialize (Hlong xi Hin). lia. }
      rewrite (call_spec mel_value _ xs Hh Hne Hall Hex). by eexists.
  - intros self x x_len Hself Hcall.
    by apply (call_lengths mel_value self xs x x_len).
Qed.

(** An instance: 400 samples give the valid length 3. *)
Lemma valid_frame_count_is_ceiling_witness :
  [replicate 400 0] ≠ [] ∧
  Forall (λ xi : list Z, (1 ≤ length xi)%nat) [replicate 400 0] ∧
  0 < NemoMelSpecExtractor.hop_length NemoMelSpecExtractor.default ∧
  ∃ x,
    NemoMelSpecExtractor.call Reference.mel_value NemoMelSpecExtractor.default
      [replicate 400 0] = Ok (x, [3]) ∧
    Forall2 (λ (xi : list Z) n,
        NemoMelSpecExtractor.frame_count NemoMelSpecExtractor.default
          (length xi) = Ok n ∧
        NemoMelSpecExtractor.hop_length NemoMelSpecExtractor.default * (n - 1)
          < Z.of_nat (length xi)
          ≤ NemoMelSpecExtractor.hop_length NemoMelSpecExtractor.default * n)
      [replicate 400 0] [3].
Proof.
  assert (H1 : [replicate 400 (0 : Z)] ≠ []) by discriminate.
  assert (H2 : Forall (λ xi : list Z, (1 ≤ length xi)%nat) [replicate 400 0]).
  { constructor; [vm_compute; lia|constructor]. }
  assert (H0 : 0 < NemoMelSpecExtractor.hop_length NemoMelSpecExtractor.default)
    by (vm_compute; reflexivity).
  split; [exact H1|]. split; [exact H2|]. split; [exact H0|].
  eexists.
  match goal with |- ?A ∧ _ =>
    assert (H3 : A) by (vm_compute; reflexivity)
  end.
  split; [exact H3|].
  exact (proj2 (proj2 (valid_frame_count_is_ceiling Z Reference.mel_value
                         [replicate 400 0] H1 H2))
           NemoMelSpecExtractor.default _ [3] H0 H3).
Defined.

(** C5, as stated, fails: a waveform of 100 samples has the length
    [L >= 1] and the quotient rounded up is 1, and yet no valid length is
    reported for it: its matrix has one frame and the call raises. *)
Lemma extractor_rejects_short_waveform :
  (1 ≤ length (replicate 100 (0 : Z)))%nat ∧
  NemoMelSpecExtractor.frame_count NemoMelSpecExtractor.default 100 = Ok 1 ∧
  cols (NemoMelSpecExtractor.log_mel Reference.mel_value
          NemoMelSpecExtractor.default (replicate 100 0)) = 1%nat ∧
  NemoMelSpecExtractor.call Reference.mel_value NemoMelSpecExtractor.default
    [replicate 100 0] = Err AssertionError ∧
  ¬ is_Ok (NemoMelSpecExtractor.call Reference.mel_value
             NemoMelSpecExtractor.default [replicate 100 0]).
Proof.
  split; [vm_compute; lia|].
  split; [vm_compute; reflexivity|].
  split; [vm_compute; reflexivity|].
  split; [vm_compute; reflexivity|].
  intros [r H]. vm_compute in H. discriminate.
Qed.

(** C6, as the code has it.  Take the extractor with its default
    arguments and a batch that is not empty, of waveforms that are not
    empty.  The extractor fails with the assertion error exactly when
    some item's matrix has one frame only, which is when some waveform
    has fewer than 160 samples; otherwise it returns a tensor and one
    valid length per item. *)
Theorem extractor_fails_iff_single_frame :
  ∀ (sample : Type) (mel_value : list sample → nat → nat → Z)
    (xs : list (list sample)),
    xs ≠ [] →
    Forall (λ xi, xi ≠ []) xs →
    (NemoMelSpecExtractor.call mel_value NemoMelSpecExtractor.default xs
     = Err AssertionError
     ↔ Exists (λ xi, cols (NemoMelSpecExtractor.log_mel mel_value
                             NemoMelSpecExtractor.default xi) = 1%nat) xs) ∧
    (Exists (λ xi, cols (NemoMelSpecExtractor.log_mel mel_value
                           NemoMelSpecExtractor.default xi) = 1%nat) xs
     ↔ Exists (λ xi, (length xi < 160)%nat) xs) ∧
    (¬ Exists (λ xi, cols (NemoMelSpecExtractor.log_mel mel_value
                             NemoMelSpecExtractor.default xi) = 1%nat) xs →
     ∃ x x_len,
       NemoMelSpecExtractor.call mel_value NemoMelSpecExtractor.default xs
       = Ok (x, x_len) ∧
       dim0 x = length xs ∧ length x_len = length xs).
Proof.
  intros sample mel_value xs Hne Hall.
  assert (Hh : 0 < NemoMelSpecExtractor.hop_length NemoMelSpecExtractor.default)
    by done.
  set (self := NemoMelSpecExtractor.default) in *.
  assert (Hok : ¬ Exists (λ xi, cols (NemoMelSpecExtractor.log_mel mel_value self xi) = 1%nat) xs →
          ∃ x x_len, NemoMelSpecExtractor.call mel_value self xs = Ok (x, x_len) ∧
            dim0 x = length xs ∧ length x_len = length xs).
  { intros Hex. rewrite (call_spec mel_value self xs Hh Hne Hall Hex).
    do 2 eexists. split; [reflexivity|]. split; [done|]. by rewrite length_fmap. }
  split; [|split; [apply default_single_frame_exists|exact Hok]]. split.
  - intros Herr.
    destruct (decide (Exists (λ xi, cols (NemoMelSpecExtractor.log_mel mel_value self xi) = 1%nat) xs))
      as [Hex|Hex]; [done|].
    destruct (Hok Hex) as (x & x_len & Hcall & _). congruence.
  - by apply call_single_frame.
Qed.

(** An instance: the batch of one waveform of 320 samples is accepted. *)
Lemma extractor_fails_iff_single_frame_witness :
  [Reference.waveform_320] ≠ [] ∧
  Forall (λ xi : list Z, xi ≠ []) [Reference.waveform_320] ∧
  ∃ x x_len,
    NemoMelSpecExtractor.call Reference.mel_value NemoMelSpecExtractor.default
      [Reference.waveform_320] = Ok (x, x_len) ∧
    dim0 x = 1%nat ∧ length x_len = 1%nat.
Proof.
  assert (H1 : [Reference.waveform_320] ≠ []) by discriminate.
  assert (H2 : Forall (λ xi : list Z, xi ≠ []) [Reference.waveform_320]).
  { constructor; [discriminate | constructor]. }
  split; [exact H1|]. split; [exact H2|].
  refine (proj2 (proj2 (extractor_fails_iff_single_frame Z Reference.mel_value
                          [Reference.waveform_320] H1 H2)) _).
  intros Hex. apply Exists_cons in Hex as [Hex|Hex].
  - vm_compute in Hex. discriminate.
  - by apply Exists_nil in Hex.
Defined.

(** C6, as stated, fails: no item of the empty batch has a matrix of one
    frame, and yet the call raises, at [ys[0]]. *)
Lemma extractor_empty_batch_raises :
  ¬ Exists (λ xi, cols (NemoMelSpecExtractor.log_mel Reference.mel_value
                          NemoMelSpecExtractor.default xi) = 1%nat) [] ∧
  NemoMelSpecExtractor.call Reference.mel_value NemoMelSpecExtractor.default []
  = Err IndexError ∧
  ¬ is_Ok (NemoMelSpecExtractor.call Reference.mel_value
             NemoMelSpecExtractor.default []).
Proof.
  split; [by intros ?%Exists_nil|]. split; [done|].
  intros [r H]. discriminate.
Qed.

(** A waveform without samples is not accepted either. *)
Lemma extractor_empty_waveform_rejected :
  ¬ is_Ok (NemoMelSpecExtractor.call Reference.mel_value
             NemoMelSpecExtractor.default [[]]).
Proof. intros [r H]. vm_compute in H. discriminate. Qed.

(** C7, as the code has it.  For every batch the extractor accepts, the
    time axis of the returned tensor is the least multiple of 16 that is
    not below the greatest number of frames of the batch; item [i] holds
    the first [x_len[i]] frames of its matrix, the valid ones, and zeros
    from there on.  (The matrix of an item can have one frame more than
    its valid length; that frame is not copied.) *)
Theorem extractor_output_aligned :
  ∀ (sample : Type) (mel_value : list sample → nat → nat → Z)
    (hop_length n_fft : Z) (n_filters : nat) (xs : list (list sample))
    (x : tensor) (x_len : list Z),
    let self := NemoMelSpecExtractor.init hop_length n_fft n_filters in
    let m := max_list ((λ xi, cols (NemoMelSpecExtractor.log_mel mel_value self xi)) <$> xs) in
    0 < hop_length →
    NemoMelSpecExtractor.call mel_value self xs = Ok (x, x_len) →
    Z.of_nat (dim2 x) `mod` 16 = 0 ∧
    (m ≤ dim2 x < m + 16)%nat ∧
    x = mk_tensor (length xs) n_filters (dim2 x) (λ i c t,
          match xs !! i, x_len !! i with
          | Some xi, Some k =>
              if decide (t < Z.to_nat k)%nat
              then mget (NemoMelSpecExtractor.log_mel mel_value self xi) c t
              else 0
          | _, _ => 0
          end) ∧
    Forall2 (λ xi k, 0 ≤ k ∧ (Z.to_nat k ≤ cols (NemoMelSpecExtractor.log_mel mel_value self xi))%nat)
      xs x_len.
Proof.
  intros sample mel_value hop n_fft n_filters xs x x_len self m Hh Hcall.
  destruct (call_Ok_inv mel_value self xs _ Hh Hcall) as (Hne & Hall & Hex).
  rewrite (call_spec mel_value self xs Hh Hne Hall Hex) in Hcall.
  injection Hcall as <- <-.
  change (dim2 (mk_tensor _ _ ?T _)) with T.
  change (NemoMelSpecExtractor.n_filters self) with n_filters.
  change (NemoMelSpecExtractor.hop_length self) with hop.
  destruct (aligned_spec self m ltac:(done)) as [Hmod Hrange].
  change (NemoMelSpecExtractor.pad_align self) with 16 in Hmod, Hrange.
  change (max_list (_ <$> xs)) with m.
  split; [exact Hmod|]. split; [lia|]. split.
  - apply mk_tensor_ext. intros i c t Hi Hc Ht.
    rewrite list_lookup_fmap.
    destruct (xs !! i) as [xi|] eqn:Exi; simpl; [|done].
    destruct (decide _) as [Hlt|]; [|done].
    unfold NemoMelSpecExtractor.log_mel. rewrite mget_mk_matrix.
    rewrite decide_True; [done|]. split; [done|].
    pose proof (frame_count_le_stft_frames self (length xi) Hh) as Hle.
    change (NemoMelSpecExtractor.hop_length self) with hop in Hle. lia.
  - apply Forall2_fmap_r, Forall_Forall2_diag, Forall_forall.
    intros xi _.
    pose proof (frame_count_le_stft_frames self (length xi) Hh) as Hle.
    change (NemoMelSpecExtractor.hop_length self) with hop in Hle.
    simpl. rewrite cols_log_mel. lia.
Qed.

(** An instance: three frames are padded to sixteen. *)
Lemma extractor_output_aligned_witness :
  0 < 160 ∧
  NemoMelSpecExtractor.call Reference.mel_value
    (NemoMelSpecExtractor.init 160 512 64) [Reference.waveform_320]
  = Ok (Reference.features_320, [2]) ∧
  Z.of_nat (dim2 Reference.features_320) `mod` 16 = 0.
Proof.
  assert (H0 : 0 < 160) by lia.
  assert (H1 : NemoMelSpecExtractor.call Reference.mel_value
                 (NemoMelSpecExtractor.init 160 512 64) [Reference.waveform_320]
               = Ok (Reference.features_320, [2]))
    by (vm_compute; reflexivity).
  split; [exact H0|]. split; [exact H1|].
  exact (proj1 (extractor_output_aligned Z Reference.mel_value 160 512 64
                  [Reference.waveform_320] Reference.features_320 [2] H0 H1)).
Defined.

(** C7, as stated, fails: a waveform of two hops has a matrix of three
    frames and a valid length of two; the third frame is not part of the
    returned tensor, which therefore is not that matrix padded with
    zeros. *)
Lemma extractor_drops_last_frame :
  let yi := NemoMelSpecExtractor.log_mel Reference.mel_value
              NemoMelSpecExtractor.default Reference.waveform_320 in
  NemoMelSpecExtractor.call Reference.mel_value NemoMelSpecExtractor.default
    [Reference.waveform_320] = Ok (Reference.features_320, [2]) ∧
  cols yi = 3%nat ∧
  mget yi 0 2 = 3 ∧
  get Reference.features_320 0 0 2 = 0 ∧
  Reference.features_320
  ≠ NemoMelSpecExtractor.right_padded [yi] 64 16.
Proof.
  split; [vm_compute; reflexivity|].
  split; [vm_compute; reflexivity|].
  split; [vm_compute; reflexivity|].
  split; [vm_compute; reflexivity|].
  intros H. apply (f_equal (λ x, get x 0 0 2)) in H.
  vm_compute in H. discriminate.
Qed.

(** ** The masked 1-D convolution *)

Section MaskConv1dFacts.
Import MaskConv1d.

Lemma broadcast_dim_Ok m n B :
  broadcast_dim m n = Ok B →
  (m = n ∧ B = m) ∨ (m ≠ n ∧ m = 1%nat ∧ B = n) ∨ (m ≠ n ∧ n = 1%nat ∧ B = m).
Proof.
  unfold broadcast_dim. repeat case_decide; intros [= <-]; lia.
Qed.

Lemma broadcast_dim_same n : broadcast_dim n n = Ok n.
Proof. unfold broadcast_dim. by rewrite decide_True. Qed.

(** An item that has a length of its own reads that length. *)
Lemma mask_at_lookup (x_len : list Z) i len t :
  x_len !! i = Some len → mask_at x_len i t = bool_decide (Z.of_nat t < len).
Proof.
  intros H. unfold mask_at, bidx.
  pose proof (lookup_lt_Some _ _ _ H) as Hlt.
  destruct (decide (length x_len = 1%nat)).
  - assert (i = 0%nat) as -> by lia. by rewrite H.
  - by rewrite H.
Qed.

Lemma b2z_idem (b : bool) (v : Z) : v * Z.b2z b * Z.b2z b = v * Z.b2z b.
Proof. destruct b; simpl; lia. Qed.

Lemma imul_mask_idem x x_len y :
  imul_mask x x_len = Ok y → imul_mask y x_len = Ok y.
Proof.
  unfold imul_mask. destruct (broadcast_dim (dim0 x) (length x_len)) as [B|] eqn:EB;
    [|done]. result_step.
  case_decide as HB; [|done]. subst B. intros [= <-].
  change (dim0 (mk_tensor ?b _ _ _)) with b.
  change (dim1 (mk_tensor _ ?c _ _)) with c.
  change (dim2 (mk_tensor _ _ ?t _)) with t.
  rewrite EB. result_step. rewrite decide_True by done.
  f_equal. apply mk_tensor_ext. intros i c t Hi Hc Ht.
  rewrite get_mk_tensor_in by done. apply b2z_idem.
Qed.

Lemma mul_mask_idem x x_len y :
  mul_mask x x_len = Ok y → mul_mask y x_len = Ok y.
Proof.
  unfold mul_mask. destruct (broadcast_dim (dim0 x) (length x_len)) as [B|] eqn:EB;
    [|done]. result_step. intros [= <-].
  change (dim0 (mk_tensor ?b _ _ _)) with b.
  change (dim1 (mk_tensor _ ?c _ _)) with c.
  change (dim2 (mk_tensor _ _ ?t _)) with t.
  assert (broadcast_dim B (length x_len) = Ok B) as ->.
  { apply broadcast_dim_Ok in EB. unfold broadcast_dim.
    repeat case_decide; f_equal; lia. }
  result_step. f_equal.
  apply mk_tensor_ext. intros i c t Hi Hc Ht.
  assert (bidx B i = i) as ->.
  { unfold bidx. case_decide; lia. }
  rewrite get_mk_tensor_in by done. apply b2z_idem.
Qed.

Lemma apply_mask_Ok kind x x_len :
  length x_len = dim0 x → is_Ok (apply_mask kind x x_len).
Proof.
  intros H. destruct kind; simpl; unfold imul_mask, mul_mask;
    rewrite H, broadcast_dim_same; result_step.
  - rewrite decide_True by done. by eexists.
  - by eexists.
Qed.

Lemma wrap64_small (z : Z) : - 2 ^ 63 ≤ z < 2 ^ 63 → wrap64 z = z.
Proof. intros H. unfold wrap64. rewrite Z.mod_small; lia. Qed.

(** On lengths, paddings and kernel extents below 2^61 the 64-bit
    computation of the length does not wrap around. *)
Lemma out_len64_agrees self len :
  0 < stride self →
  0 ≤ len < 2 ^ 61 →
  0 ≤ 2 * pad self < 2 ^ 61 →
  0 ≤ dilate self * (ksize self - 1) < 2 ^ 61 →
  out_len64 self len = out_len self len.
Proof.
  intros Hs Hl Hp Hd. unfold out_len64, out_len, stride0, pad0.
  set (d := dilate self * (ksize self - 1)) in *.
  rewrite (wrap64_small (len + 2 * pad self)) by lia.
  rewrite (wrap64_small (len + 2 * pad self - d)) by lia.
  rewrite (wrap64_small (len + 2 * pad self - d - 1)) by lia.
  set (a := len + 2 * pad self - d - 1).
  assert (- 2 ^ 61 - 1 ≤ a / stride self < 2 ^ 62).
  { split.
    - apply Z.div_le_lower_bound; [done|]. nia.
    - apply Z.div_lt_upper_bound; [done|]. nia. }
  rewrite (wrap64_small (a / stride self)) by lia.
  apply wrap64_small. lia.
Qed.

Lemma forward_Ok_inv self kind x x_len y y_len :
  forward self kind x x_len = Ok (y, y_len) →
  ∃ xm, masked_input self kind x x_len = Ok xm ∧
    convolution_1d xm (W self) (b self) (stride self) (pad self) (dilate self)
      (groups self) = Ok y ∧
    y_len = new_len self x_len ∧ 0 < stride self.
Proof.
  unfold forward. destruct (masked_input self kind x x_len) as [xm|]; [|done].
  result_step.
  destruct (convolution_1d xm _ _ _ _ _ _) as [y'|] eqn:Ec; [|done].
  result_step. intros [= <- <-]. exists xm.
  repeat split; try done.
  unfold convolution_1d in Ec. case_decide; [tauto|done].
Qed.

(** A call returns when there is one length per item and the framework
    accepts the convolution. *)
Lemma forward_returns self kind x x_len :
  length x_len = dim0 x →
  0 < stride self → 0 ≤ pad self → 0 < dilate self → (0 < groups self)%nat →
  dim1 x = (dim1 (W self) * groups self)%nat →
  (dim0 (W self) `mod` groups self = 0)%nat →
  0 < conv_outsize (Z.of_nat (dim2 x)) (Z.of_nat (dim2 (W self)))
        (stride self) (pad self) (dilate self) →
  is_Ok (forward self kind x x_len).
Proof.
  intros Hlen Hs Hp Hd Hg Hc Hm Ho. unfold forward, masked_input.
  assert (∃ xm, (if use_mask self then apply_mask kind x x_len else Ok x) = Ok xm
                ∧ dim1 xm = dim1 x ∧ dim2 xm = dim2 x) as (xm & -> & H1 & H2).
  { destruct (use_mask self); [|by exists x].
    destruct kind; simpl; unfold imul_mask, mul_mask;
      rewrite Hlen, broadcast_dim_same; result_step.
    - rewrite decide_True by done. by eexists.
    - by eexists. }
  result_step. unfold convolution_1d. rewrite H1, H2.
  rewrite decide_True by done. result_step. by eexists.
Qed.

End MaskConv1dFacts.

(** C3, as stated, fails: of three frames, two are valid; the output has
    the valid length 2 and a third frame that is not zero, since the
    window of that frame reaches back to the second, valid, frame of the
    input. *)
Lemma mask_conv_output_nonzero_beyond_valid_length :
  MaskConv1d.use_mask Reference.conv3 = true ∧
  MaskConv1d.forward Reference.conv3 NdArray Reference.ones_3 [2]
  = Ok (Reference.conv_3, [2]) ∧
  get Reference.conv_3 0 0 2 = 1 ∧
  ¬ (∀ (i : nat) (len : Z) (c t : nat),
       ([2] : list Z) !! i = Some len → len ≤ Z.of_nat t →
       get Reference.conv_3 i c t = 0).
Proof.
  split; [reflexivity|].
  split; [vm_compute; reflexivity|].
  split; [vm_compute; reflexivity|].
  intros H. specialize (H 0%nat 2 0%nat 2%nat eq_refl ltac:(lia)).
  vm_compute in H. discriminate.
Qed.

(** C8.  Masking a tensor that was masked with the same valid lengths
    gives that tensor back. *)
Theorem masking_idempotent :
  ∀ (kind : array_kind) (x : tensor) (x_len : list Z) (y : tensor),
    MaskConv1d.apply_mask kind x x_len = Ok y →
    MaskConv1d.apply_mask kind y x_len = Ok y.
Proof.
  intros [] x x_len y; simpl.
  - apply imul_mask_idem.
  - apply mul_mask_idem.
Qed.

(** An instance: [1; 1; 1] masked at length 2, and masked again. *)
Lemma masking_idempotent_witness :
  MaskConv1d.apply_mask NdArray Reference.ones_3 [2] = Ok Reference.masked_3 ∧
  MaskConv1d.apply_mask NdArray Reference.masked_3 [2] = Ok Reference.masked_3.
Proof.
  assert (H : MaskConv1d.apply_mask NdArray Reference.ones_3 [2]
              = Ok Reference.masked_3) by (vm_compute; reflexivity).
  split; [exact H|].
  exact (masking_idempotent NdArray Reference.ones_3 [2] Reference.masked_3 H).
Defined.

(** ** The masked 1-D convolution and the store *)

Section MaskConv1dCallFacts.
Import MaskConv1d MaskConv1dCall.

Lemma fresh_lookup (s : store) : s !! fresh (dom s) = None.
Proof. apply not_elem_of_dom, is_fresh. Qed.

Lemma fresh_ne (s : store) (l : nat) : is_Some (s !! l) → l ≠ fresh (dom s).
Proof. intros H ->. rewrite fresh_lookup in H. by destruct H. Qed.

Lemma tensor_at_Some s l kx : tensor_at s l = Some kx → is_Some (s !! l).
Proof. unfold tensor_at. destruct (s !! l); [by eexists | done]. Qed.

Lemma tensor_at_insert_ne s l l' o :
  l ≠ l' → tensor_at (<[l' := o]> s) l = tensor_at s l.
Proof. intros H. unfold tensor_at. by rewrite lookup_insert_ne. Qed.

(** The convolution proper, on a reference: the store gains the new
    variable and is otherwise unchanged. *)
Lemma convolve_spec self (x x_len : nat) (s : store) :
  (('(_, xv) ← read_tensor x;
    y ← lift (convolution_1d xv (W self) (b self) (stride self) (pad self)
                (dilate self) (groups self));
    y ← alloc (OVariable y);
    mret (y, x_len)) : action (nat * nat)) s
  = match tensor_at s x with
    | None => (Err TypeError, s)
    | Some (_, xv) =>
        match convolution_1d xv (W self) (b self) (stride self) (pad self)
                (dilate self) (groups self) with
        | Err e => (Err e, s)
        | Ok y => (Ok (fresh (dom s), x_len), <[fresh (dom s) := OVariable y]> s)
        end
    end.
Proof.
  unfold mbind, action_bind, read_tensor, lift, alloc, mret, action_ret.
  destruct (tensor_at s x) as [[kind xv]|]; [|done].
  by destruct (convolution_1d xv _ _ _ _ _ _).
Qed.

(** The masking branch, as a function of the store. *)
Lemma call_masked_spec self (x x_len : nat) (s : store) :
  use_mask self = true →
  call self x x_len s
  = match s !! x_len with
    | Some (OLengths lens) =>
        match tensor_at s x with
        | None => (Err TypeError, s)
        | Some (kind, xv) =>
            match apply_mask kind xv lens with
            | Err e => (Err e, s)
            | Ok xm =>
                let s1 := match kind with
                          | NdArray => <[x := ONdArray xm]> s
                          | FVariable => <[fresh (dom s) := OVariable xm]> s
                          end in
                let l2 := fresh (dom s1) in
                let s2 := <[l2 := OLengths (out_len self <$> lens)]> s1 in
                match convolution_1d xm (W self) (b self) (stride self)
                        (pad self) (dilate self) (groups self) with
                | Err e => (Err e, s2)
                | Ok y => (Ok (fresh (dom s2), l2),
                           <[fresh (dom s2) := OVariable y]> s2)
                end
            end
        end
    | _ => (Err TypeError, s)
    end.
Proof.
  intros Hm. unfold call. rewrite Hm.
  unfold mbind at 1. unfold action_bind at 1.
  unfold mbind at 1. unfold action_bind at 1.
  unfold read_lengths at 1.
  destruct (s !! x_len) as [[| |lens]|] eqn:El; try done.
  unfold mbind at 1. unfold action_bind at 1.
  unfold imul at 1.
  unfold mbind at 1. unfold action_bind at 1.
  unfold read_tensor at 1.
  destruct (tensor_at s x) as [[kind xv]|] eqn:Ex; [|done].
  unfold mbind at 1. unfold action_bind at 1. unfold lift at 1.
  destruct (apply_mask kind xv lens) as [xm|e] eqn:Ea; [|done].
  destruct kind.
  - unfold mbind at 1. unfold action_bind at 1. unfold write at 1.
    unfold mret at 1. unfold action_ret at 1.
    unfold mbind at 1. unfold action_bind at 1. unfold alloc at 1.
    unfold mret at 1. unfold action_ret at 1.
    rewrite convolve_spec. cbn zeta.
    set (s1 := <[x := ONdArray xm]> s).
    set (l2 := fresh (dom s1)).
    assert (tensor_at (<[l2 := OLengths (out_len self <$> lens)]> s1) x
            = Some (NdArray, xm)) as ->.
    { rewrite tensor_at_insert_ne.
      - unfold tensor_at, s1. by rewrite lookup_insert_eq.
      - apply fresh_ne. unfold s1. rewrite lookup_insert_eq. by eexists. }
    done.
  - unfold alloc at 1.
    unfold mbind at 1. unfold action_bind at 1. unfold alloc at 1.
    unfold mret at 1. unfold action_ret at 1.
    rewrite convolve_spec. cbn zeta.
    set (s1 := <[fresh (dom s) := OVariable xm]> s).
    set (l2 := fresh (dom s1)).
    assert (tensor_at (<[l2 := OLengths (out_len self <$> lens)]> s1) (fresh (dom s))
            = Some (FVariable, xm)) as ->.
    { rewrite tensor_at_insert_ne.
      - unfold tensor_at, s1. by rewrite lookup_insert_eq.
      - apply fresh_ne. unfold s1. rewrite lookup_insert_eq. by eexists. }
    done.
Qed.

Lemma call_unmasked_spec self (x x_len : nat) (s : store) :
  use_mask self = false →
  call self x x_len s
  = match tensor_at s x with
    | None => (Err TypeError, s)
    | Some (_, xv) =>
        match convolution_1d xv (W self) (b self) (stride self) (pad self)
                (dilate self) (groups self) with
        | Err e => (Err e, s)
        | Ok y => (Ok (fresh (dom s), x_len), <[fresh (dom s) := OVariable y]> s)
        end
    end.
Proof.
  intros Hm. unfold call. rewrite Hm.
  unfold mbind at 1. unfold action_bind at 1.
  unfold mret at 1. unfold action_ret at 1.
  apply convolve_spec.
Qed.

Lemma insert_fresh_lookup (s : store) (l : nat) (o : object) :
  is_Some (s !! l) → <[fresh (dom s) := o]> s !! l = s !! l.
Proof. intros H. apply lookup_insert_ne. symmetry. by apply fresh_ne. Qed.

Lemma insert_fresh_is_Some (s : store) (l : nat) (o : object) :
  is_Some (s !! l) → is_Some (<[fresh (dom s) := o]> s !! l).
Proof. intros H. by rewrite insert_fresh_lookup. Qed.

Lemma returned_values_fresh (s : store) (l : nat) (y : tensor) (lens : list Z) :
  s !! l = Some (OLengths lens) →
  returned_values (Ok (fresh (dom s), l)) (<[fresh (dom s) := OVariable y]> s)
  = Ok (y, lens).
Proof.
  intros H. unfold returned_values. result_step.
  rewrite lookup_insert_eq, insert_fresh_lookup by (by eexists).
  by rewrite H.
Qed.

End MaskConv1dCallFacts.

(** C9, as the code has it.  A call of the masked convolution on live
    references leaves the caller's length vector and every other object
    of the store unchanged; it leaves the input tensor unchanged when
    masking is disabled or when the tensor is a framework variable; and
    what it returns is a function of the values of its arguments alone,
    so that calls on equal inputs return equal results.  With masking
    enabled, a NumPy array passed as input is overwritten by [x *= mask]
    with its masked version. *)
Theorem mask_conv_call_effects :
  ∀ (self : MaskConv1d.t) (x x_len : nat) (s s' : store)
    (r : result (nat * nat)),
    is_Some (s !! x) → is_Some (s !! x_len) →
    MaskConv1dCall.call self x x_len s = (r, s') →
    s' !! x_len = s !! x_len ∧
    (∀ l, l ≠ x → is_Some (s !! l) → s' !! l = s !! l) ∧
    (MaskConv1d.use_mask self = false ∨ (∃ xv, s !! x = Some (OVariable xv)) →
     s' !! x = s !! x) ∧
    (∀ kind xv lens,
       tensor_at s x = Some (kind, xv) → s !! x_len = Some (OLengths lens) →
       MaskConv1dCall.returned_values r s'
       = MaskConv1d.forward self kind xv lens) ∧
    (∀ xv lens xm,
       MaskConv1d.use_mask self = true →
       s !! x = Some (ONdArray xv) → s !! x_len = Some (OLengths lens) →
       MaskConv1d.apply_mask NdArray xv lens = Ok xm →
       s' !! x = Some (ONdArray xm)).
Proof.
  intros self x x_len s s' r Hx Hl Hcall.
  assert (Hframe : (∀ l, is_Some (s !! l) →
             (l ≠ x ∨ MaskConv1d.use_mask self = false
              ∨ ∃ xv, s !! x = Some (OVariable xv)) → s' !! l = s !! l) ∧
          (∀ kind xv lens,
             tensor_at s x = Some (kind, xv) → s !! x_len = Some (OLengths lens) →
             MaskConv1dCall.returned_values r s'
             = MaskConv1d.forward self kind xv lens) ∧
          (∀ xv lens xm,
             MaskConv1d.use_mask self = true →
             s !! x = Some (ONdArray xv) → s !! x_len = Some (OLengths lens) →
             MaskConv1d.apply_mask NdArray xv lens = Ok xm →
             s' !! x = Some (ONdArray xm)) ∧
          (x_len = x → MaskConv1d.use_mask self = true → s' = s)).
  { destruct (MaskConv1d.use_mask self) eqn:Em.
    - rewrite call_masked_spec in Hcall by done.
      destruct (s !! x_len) as [[| |lens]|] eqn:El;
        try (injection Hcall as <- <-; repeat split; try done;
             intros; simplify_eq).
      destruct (tensor_at s x) as [[kind xv]|] eqn:Ex; last first.
      { injection Hcall as <- <-. repeat split; try done.
        intros xv lens' xm _ Hxv. unfold tensor_at in Ex. by rewrite Hxv in Ex. }
      unfold MaskConv1d.forward, MaskConv1d.masked_input, MaskConv1d.new_len.
      rewrite Em.
      destruct (MaskConv1d.apply_mask kind xv lens) as [xm|e] eqn:Ea; last first.
      { injection Hcall as <- <-. repeat split; try done.
        - intros kind' xv' lens' [= <- <-] [= <-]. by rewrite Ea.
        - intros xv' lens' xm' _ Hxv [= <-] Ha. unfold tensor_at in Ex.
          rewrite Hxv in Ex. injection Ex as <- <-. congruence. }
      cbn zeta in Hcall.
      set (s1 := match kind with
                 | NdArray => <[x := ONdArray xm]> s
                 | FVariable => <[fresh (dom s) := OVariable xm]> s
                 end) in *.
      set (l2 := fresh (dom s1)) in *.
      set (s2 := <[l2 := OLengths (MaskConv1d.out_len self <$> lens)]> s1) in *.
      assert (Hs1 : ∀ l, is_Some (s !! l) → is_Some (s1 !! l)).
      { intros l Hsl. unfold s1. destruct kind.
        - destruct (decide (l = x)) as [->|Hne].
          + rewrite lookup_insert_eq. by eexists.
          + by rewrite lookup_insert_ne.
        - by apply insert_fresh_is_Some. }
      assert (Hs1' : ∀ l, is_Some (s !! l) →
                (l ≠ x ∨ ∃ xv, s !! x = Some (OVariable xv)) → s1 !! l = s !! l).
      { intros l Hsl Hor. unfold s1. destruct kind.
        - destruct Hor as [Hne|[xv' Hxv']].
          + by rewrite lookup_insert_ne.
          + unfold tensor_at in Ex. by rewrite Hxv' in Ex.
        - by apply insert_fresh_lookup. }
      assert (Hs2 : ∀ l, is_Some (s1 !! l) → s2 !! l = s1 !! l).
      { intros l Hsl. by apply insert_fresh_lookup. }
      assert (Hne : x_len ≠ x).
      { intros ->. unfold tensor_at in Ex. by rewrite El in Ex. }
      assert (Hx1 : ∀ xv', s !! x = Some (ONdArray xv') → s1 !! x = Some (ONdArray xm)).
      { intros xv' Hxv'. unfold tensor_at in Ex. rewrite Hxv' in Ex.
        injection Ex as <- <-. unfold s1. by rewrite lookup_insert_eq. }
      destruct (convolution_1d xm _ _ _ _ _ _) as [y|e] eqn:Ec.
      + injection Hcall as <- <-. repeat split.
        * intros l Hsl [?|[?|?]]; try done.
          -- rewrite insert_fresh_lookup, Hs2, Hs1' by (rewrite ?Hs2; auto). done.
          -- rewrite insert_fresh_lookup, Hs2, Hs1' by (rewrite ?Hs2; auto). done.
        * intros kind' xv' lens' [= <- <-] [= <-].
          rewrite Ea. result_step. rewrite Ec. result_step.
          apply returned_values_fresh. unfold s2. by rewrite lookup_insert_eq.
        * intros xv' lens' xm' _ Hxv [= <-] Ha.
          rewrite insert_fresh_lookup, Hs2 by (rewrite ?Hs2; eauto).
          unfold tensor_at in Ex. rewrite Hxv in Ex. injection Ex as <- <-.
          rewrite (Hx1 _ Hxv). congruence.
        * done.
      + injection Hcall as <- <-. repeat split.
        * intros l Hsl [?|[?|?]]; try done.
          -- rewrite Hs2, Hs1' by auto. done.
          -- rewrite Hs2, Hs1' by auto. done.
        * intros kind' xv' lens' [= <- <-] [= <-].
          rewrite Ea. result_step. by rewrite Ec.
        * intros xv' lens' xm' _ Hxv [= <-] Ha.
          rewrite Hs2 by eauto.
          unfold tensor_at in Ex. rewrite Hxv in Ex. injection Ex as <- <-.
          rewrite (Hx1 _ Hxv). congruence.
        * done.
    - rewrite call_unmasked_spec in Hcall by done.
      unfold MaskConv1d.forward, MaskConv1d.masked_input, MaskConv1d.new_len.
      rewrite Em.
      destruct (tensor_at s x) as [[kind xv]|] eqn:Ex; last first.
      { injection Hcall as <- <-. repeat split; done. }
      destruct (convolution_1d xv _ _ _ _ _ _) as [y|e] eqn:Ec.
      + injection Hcall as <- <-. repeat split; try done.
        * intros l Hsl _. by apply insert_fresh_lookup.
        * intros kind' xv' lens' [= <- <-] Hlens. result_step.
          rewrite Ec. result_step.
          by apply returned_values_fresh.
      + injection Hcall as <- <-. repeat split; try done.
        intros kind' xv' lens' [= <- <-] Hlens. result_step.
        by rewrite Ec. }
  destruct Hframe as (Hf & Hv & Hin & Heq).
  split; [|split; [|split; [|split]]].
  - destruct (decide (x_len = x)) as [->|Hne].
    + destruct (MaskConv1d.use_mask self) eqn:Em.
      * by rewrite Heq.
      * apply Hf; auto.
    + apply Hf; auto.
  - intros l Hne Hsl. apply Hf; auto.
  - intros Hor. apply Hf; auto.
  - exact Hv.
  - exact Hin.
Qed.

(** An instance: the lengths at reference 1 are the same after the call. *)
Lemma mask_conv_call_effects_witness :
  is_Some (Reference.store_3 !! 0%nat) ∧
  is_Some (Reference.store_3 !! 1%nat) ∧
  (MaskConv1dCall.call Reference.conv3 0 1 Reference.store_3).2 !! 1%nat
  = Reference.store_3 !! 1%nat.
Proof.
  assert (H0 : is_Some (Reference.store_3 !! 0%nat)).
  { exists (ONdArray Reference.ones_3). vm_compute. reflexivity. }
  assert (H1 : is_Some (Reference.store_3 !! 1%nat)).
  { exists (OLengths [2]). vm_compute. reflexivity. }
  split; [exact H0|]. split; [exact H1|].
  exact (proj1 (mask_conv_call_effects Reference.conv3 0 1 Reference.store_3
                  _ _ H0 H1 (surjective_pairing _))).
Defined.

(** C9, as stated, fails: the call below returns, and afterwards the
    caller's array holds [1; 1; 0] where it held [1; 1; 1]. *)
Lemma mask_conv_overwrites_ndarray_input :
  Reference.store_3 !! 0%nat = Some (ONdArray Reference.ones_3) ∧
  (MaskConv1dCall.call Reference.conv3 0 1 Reference.store_3).1 = Ok (3%nat, 2%nat) ∧
  (MaskConv1dCall.call Reference.conv3 0 1 Reference.store_3).2 !! 0%nat
  = Some (ONdArray Reference.masked_3) ∧
  (MaskConv1dCall.call Reference.conv3 0 1 Reference.store_3).2 !! 0%nat
  ≠ Reference.store_3 !! 0%nat.
Proof.
  split; [vm_compute; reflexivity|].
  split; [vm_compute; reflexivity|].
  split; [vm_compute; reflexivity|].
  intros H. vm_compute in H. discriminate.
Qed.

(** ** The dense-residual units *)

Section DenseResidualFacts.
Context {act len layer : Type}.
Variable run_layer : layer → act → len → result (act * len).
Variable mask_conv1d1_block : Z → Z → Q → layer.
Variable block_class : bool → Z → Z → Z → Z → Q → Q → bool → layer.
Variable stack_sum : list act → result act.
Variable add : act → act → result act.
Variable relu : act → act.
Variable dropout : Q → act → act.

(** A unit built in dense mode has one identity block per entry of the
    list [in_channels]. *)
Lemma init_dense l out_channels ksize bn_eps rate repeat use_dw u :
  JasperUnit.init mask_conv1d1_block block_class (ChList l) out_channels
    ksize bn_eps rate repeat use_dw true = Ok u →
  JasperUnit.dense_unit u (length l).
Proof.
  unfold JasperUnit.init.
  destruct (JasperUnit.list_last l) as [c|]; [|done].
  result_step. intros [= <-].
  split; [done|]. eexists. split; [reflexivity|]. by rewrite length_fmap.
Qed.

(** The loop that builds the units keeps as many entries in
    [in_channels_list] as there are units, so that unit [j + 1] has
    [j + 1] identity blocks. *)
Lemma add_units_dense bn_eps repeat use_dw cfgs : ∀ c L us c' L' us',
  Jasper.add_units mask_conv1d1_block block_class bn_eps repeat use_dw true
    (c, L, us) cfgs = Ok (c', L', us') →
  length L = length us →
  (∀ j u, us !! j = Some u → JasperUnit.dense_unit u (S j)) →
  ∀ j u, us' !! j = Some u → JasperUnit.dense_unit u (S j).
Proof.
  induction cfgs as [|[out [ks rate]] rest IH]; intros c L us c' L' us'.
  - intros [= <- <- <-]. done.
  - cbn [Jasper.add_units]. unfold Jasper.add_unit at 1.
    destruct (JasperUnit.init _ _ _ _ _ _ _ _ _ _) as [u0|] eqn:Ei; [|done].
    result_step. intros Hrest HL Hus.
    apply init_dense in Ei. rewrite length_app in Ei. simpl in Ei.
    eapply IH; [exact Hrest | by rewrite !length_app, HL |].
    intros j u Hj. apply lookup_app_Some in Hj as [Hj|[Hge Hj]].
    + by apply Hus.
    + apply list_lookup_singleton_Some in Hj as [Hj0 <-].
      replace (S j) with (length L + 1)%nat by lia. done.
Qed.

Lemma units_dense channels ksizes bn_eps rates repeat use_dw us :
  Jasper.units mask_conv1d1_block block_class channels ksizes bn_eps rates
    repeat use_dw true = Ok us →
  ∀ j u, us !! j = Some u → JasperUnit.dense_unit u (S j).
Proof.
  unfold Jasper.units. destruct (list_first channels) as [c|]; [|done].
  result_step.
  destruct (Jasper.add_units _ _ _ _ _ _ _ _) as [[[c' L'] us']|] eqn:Ea; [|done].
  result_step. intros [= <-].
  eapply add_units_dense; [exact Ea | done |].
  intros j u Hj. by rewrite lookup_nil in Hj.
Qed.

(** The parallel container returns one result per entry when there are as
    many blocks as entries. *)
Lemma parallel_lengths (blocks : list layer) : ∀ (y : list act) (y_len : list len) z m,
  DualPathParallelConcurent_call run_layer blocks y y_len = Ok (z, m) →
  length y = length blocks → length y_len = length blocks →
  length z = length blocks ∧ length m = length blocks.
Proof.
  induction blocks as [|blk blocks IH]; intros y y_len z m.
  - intros [= <- <-]. done.
  - destruct y as [|yi y]; [done|]. destruct y_len as [|li y_len]; [done|].
    cbn [DualPathParallelConcurent_call].
    destruct (run_layer blk yi li) as [[zi mi]|]; [|done].
    result_step.
    destruct (DualPathParallelConcurent_call run_layer blocks y y_len)
      as [[z' m']|] eqn:Er; [|done].
    result_step. intros [= <- <-] Hy Hl.
    destruct (IH y y_len z' m' Er) as [Hz Hm]; simpl in *; lia.
Qed.

(** The history of a unit, once its input is appended, is one longer. *)
Lemma history_lengths n (x : act) (st : threaded act len) x_len y y_len :
  JasperUnit.history_size n st →
  JasperUnit.history x st = (x_len, y, y_len) →
  length y = S n ∧ length y_len = S n.
Proof.
  unfold JasperUnit.history, JasperUnit.history_size.
  destruct st as [l|l [y0|] [yl0|]]; try done.
  - intros -> [= _ <- <-]. done.
  - intros [Hy Hl] [= _ <- <-]. rewrite !length_app. simpl. lia.
  - intros -> [= _ <- <-]. done.
Qed.

(** A unit built in dense mode has one pointwise block per entry of the
    list [in_channels], each to [out_channels]. *)
Lemma init_dense_blocks l out_channels ksize bn_eps rate repeat use_dw u :
  JasperUnit.init mask_conv1d1_block block_class (ChList l) out_channels
    ksize bn_eps rate repeat use_dw true = Ok u →
  JasperUnit.use_dr u = true ∧
  JasperUnit.identity_block u
  = Parallel ((λ c, mask_conv1d1_block c out_channels bn_eps) <$> l).
Proof.
  unfold JasperUnit.init.
  destruct (JasperUnit.list_last l) as [c|]; [|done].
  result_step. by intros [= <-].
Qed.

(** The loop that builds the units: a unit it adds, the one for the
    configuration [i], projects the entries of [in_channels_list] at the
    start, the current [in_channels] and the output channels of the
    [i] configurations before it. *)
Lemma add_units_blocks bn_eps repeat use_dw cfgs : ∀ c L us c' L' us',
  Jasper.add_units mask_conv1d1_block block_class bn_eps repeat use_dw true
    (c, L, us) cfgs = Ok (c', L', us') →
  ∀ j u, us' !! j = Some u →
    us !! j = Some u ∨
    ∃ i out ks rate,
      j = (length us + i)%nat ∧ cfgs !! i = Some (out, (ks, rate)) ∧
      JasperUnit.use_dr u = true ∧
      JasperUnit.identity_block u
      = Parallel ((λ c0, mask_conv1d1_block c0 out bn_eps)
                  <$> (L ++ c :: take i (cfgs.*1))).
Proof.
  induction cfgs as [|[out [ks rate]] rest IH]; intros c L us c' L' us'.
  - intros [= <- <- <-] j u Hj. by left.
  - cbn [Jasper.add_units]. unfold Jasper.add_unit at 1.
    destruct (JasperUnit.init _ _ _ _ _ _ _ _ _ _) as [u0|] eqn:Ei; [|done].
    result_step. intros Hrest j u Hj.
    apply init_dense_blocks in Ei as [Hdr Hib].
    destruct (IH _ _ _ _ _ _ Hrest j u Hj)
      as [Hold|(i & out' & ks' & rate' & -> & Hi & Hdr' & Hib')].
    + apply lookup_app_Some in Hold as [Hold|[Hge Hold]]; [by left|].
      apply list_lookup_singleton_Some in Hold as [Hj0 <-].
      right. exists 0%nat, out, ks, rate.
      split_and!; [lia|done|done|]. by rewrite Hib.
    + right. exists (S i), out', ks', rate'.
      split_and!; [rewrite length_app; simpl; lia|done|done|].
      rewrite Hib'. by rewrite <- app_assoc.
Qed.

Lemma take_fst_zip {A B} (a : list A) : ∀ (b : list B) (j : nat),
  (j ≤ length (zip a b))%nat → take j ((zip a b).*1) = take j a.
Proof.
  induction a as [|x a IH]; intros b j Hj; [done|].
  destruct b as [|y b]; [simpl in Hj; by replace j with 0%nat by lia|].
  destruct j as [|j]; [done|]. simpl in *. f_equal. apply IH. lia.
Qed.

Lemma inner_cons {A} (c : A) (tl : list A) :
  Jasper.inner (c :: tl) = take (length tl - 2) tl.
Proof.
  unfold Jasper.inner. simpl.
  destruct tl as [|x [|x' tl]]; [done..|]. simpl. by rewrite Nat.sub_0_r.
Qed.

(** Unit [j + 1] of a network in dense mode projects the first [j + 1]
    channel counts of [channels] to the next one. *)
Lemma units_blocks channels ksizes bn_eps rates repeat use_dw us :
  Jasper.units mask_conv1d1_block block_class channels ksizes bn_eps rates
    repeat use_dw true = Ok us →
  ∀ j u, us !! j = Some u →
    JasperUnit.use_dr u = true ∧
    ∃ out, channels !! S j = Some out ∧
      JasperUnit.identity_block u
      = Parallel ((λ c, mask_conv1d1_block c out bn_eps)
                  <$> take (S j) channels).
Proof.
  unfold Jasper.units, list_first.
  destruct channels as [|c tl]; [done|]. result_step.
  destruct (Jasper.add_units _ _ _ _ _ _ _ _) as [[[c' L'] us']|] eqn:Ea; [|done].
  result_step. intros [= <-] j u Hj.
  destruct (add_units_blocks _ _ _ _ _ _ _ _ _ _ Ea j u Hj)
    as [Hold|(i & out & ks & rate & -> & Hi & Hdr & Hib)]; [done|].
  split; [done|]. exists out. simpl in *.
  pose proof (lookup_lt_Some _ _ _ Hi) as Hlt.
  rewrite take_fst_zip in Hib by lia.
  apply lookup_zip_with_Some in Hi as (out' & rest & [= <- _] & Hout & _).
  rewrite inner_cons in Hout, Hib.
  apply lookup_take_Some in Hout as [Hout Hi'].
  split; [done|].
  rewrite take_take in Hib. by rewrite Nat.min_l in Hib by lia.
Qed.

(** The parallel container gives entry [i] of the history, with its
    length, to block [i], and returns the results in order. *)
Lemma parallel_terms (blocks : list layer) :
  ∀ (y : list act) (y_len : list len) z m,
    DualPathParallelConcurent_call run_layer blocks y y_len = Ok (z, m) →
    length y = length blocks → length y_len = length blocks →
    ∀ i, (i < length blocks)%nat →
      ∃ blk h hl t tl,
        blocks !! i = Some blk ∧ y !! i = Some h ∧ y_len !! i = Some hl ∧
        run_layer blk h hl = Ok (t, tl) ∧ z !! i = Some t.
Proof.
  induction blocks as [|blk blocks IH]; intros y y_len z m.
  - intros _ _ _ i Hi. simpl in Hi. lia.
  - destruct y as [|yi y]; [done|]. destruct y_len as [|li y_len]; [done|].
    cbn [DualPathParallelConcurent_call].
    destruct (run_layer blk yi li) as [[zi mi]|] eqn:Er; [|done].
    result_step.
    destruct (DualPathParallelConcurent_call run_layer blocks y y_len)
      as [[z' m']|] eqn:Ep; [|done].
    result_step. intros [= <- <-] Hy Hl [|i] Hi.
    + by exists blk, yi, li, zi, mi.
    + simpl in *. apply (IH y y_len z' m' Ep); lia.
Qed.

(** The input of a unit and its length are the last entries of the
    history. *)
Lemma history_last (x : act) (st : threaded act len) x_len y y_len :
  JasperUnit.history x st = (x_len, y, y_len) →
  last y = Some x ∧ last y_len = Some x_len.
Proof.
  unfold JasperUnit.history.
  destruct st as [l|l [y0|] [yl0|]]; intros [= <- <- <-];
    by rewrite ?last_snoc.
Qed.

(** One unit in dense mode. *)
Lemma call_dense n (u : JasperUnit.t layer) x st x' st' :
  JasperUnit.dense_unit u (S n) →
  JasperUnit.history_size n st →
  JasperUnit.call run_layer stack_sum add relu dropout u x st = Ok (x', st') →
  ∃ x_len y y_len x_len' blocks terms shortcut xb s,
    JasperUnit.history x st = (x_len, y, y_len) ∧
    st' = Dense x_len' (Some y) (Some y_len) ∧
    length y = S n ∧ length y_len = S n ∧
    JasperUnit.identity_block u = Parallel blocks ∧
    length terms = S n ∧
    (∀ i, (i < S n)%nat →
       ∃ blk h hl t tl,
         blocks !! i = Some blk ∧ y !! i = Some h ∧ y_len !! i = Some hl ∧
         run_layer blk h hl = Ok (t, tl) ∧ terms !! i = Some t) ∧
    stack_sum terms = Ok shortcut ∧
    DualPathSequential_call run_layer (JasperUnit.body u) x x_len
    = Ok (xb, x_len') ∧
    add xb shortcut = Ok s ∧
    x' = (if JasperUnit.use_dropout u
          then dropout (JasperUnit.dropout_rate u) (relu s) else relu s).
Proof.
  intros (Hdr & blocks & Hib & Hlen) Hst.
  unfold JasperUnit.call. rewrite Hdr.
  destruct (JasperUnit.history x st) as [[x_len y] y_len] eqn:Eh.
  destruct (history_lengths n x st x_len y y_len Hst Eh) as [Hy Hl].
  unfold JasperUnit.identity_call. rewrite Hib.
  destruct (DualPathParallelConcurent_call run_layer blocks y y_len)
    as [[identity m]|] eqn:Ep; [|done].
  result_step.
  destruct (parallel_lengths blocks y y_len identity m Ep) as [Hz _]; [lia..|].
  pose proof (parallel_terms blocks y y_len identity m Ep) as Hterms.
  rewrite Hlen in Hterms.
  destruct (stack_sum identity) as [shortcut|] eqn:Es; [|done].
  result_step.
  destruct (DualPathSequential_call run_layer (JasperUnit.body u) x x_len)
    as [[xb lb]|] eqn:Eb; [|done].
  result_step.
  destruct (add xb shortcut) as [s|] eqn:Ea; [|done].
  result_step. intros [= <- <-].
  exists x_len, y, y_len, lb, blocks, identity, shortcut, xb, s.
  repeat split; try done; [lia|].
  intros i Hi. apply Hterms; lia.
Qed.

(** A run through units in dense mode, the first of which has [n + 1]
    identity blocks, the next [n + 2], and so on, from a history of [n]
    entries. *)
Lemma run_units_history (us : list (JasperUnit.t layer)) : ∀ n x st x' st',
  (∀ j u, us !! j = Some u → JasperUnit.dense_unit u (S (n + j))) →
  JasperUnit.history_size n st →
  Jasper.run_units run_layer stack_sum add relu dropout us x st = Ok (x', st') →
  JasperUnit.history_size (n + length us) st'.
Proof.
  unfold Jasper.run_units.
  induction us as [|u us IH]; intros n x st x' st' Hus Hst.
  - intros [= <- <-]. by rewrite Nat.add_0_r.
  - cbn [DualPathSequential_call].
    destruct (JasperUnit.call _ _ _ _ _ u x st) as [[x1 st1]|] eqn:Ec; [|done].
    result_step. intros Hrest.
    destruct (call_dense n u x st x1 st1)
      as (l & y & yl & l' & _ & _ & _ & _ & _ & _ & -> & Hy & Hl & _).
    { specialize (Hus 0%nat u eq_refl). by rewrite Nat.add_0_r in Hus. }
    { done. }
    { done. }
    replace (n + length (u :: us))%nat with (S n + length us)%nat by (simpl; lia).
    eapply (IH (S n)); [| |exact Hrest].
    + intros j u' Hj. specialize (Hus (S j) u' Hj).
      by replace (S n + j)%nat with (n + S j)%nat by lia.
    + done.
Qed.

End DenseResidualFacts.

(** C4.  In a network built in dense mode, let unit [k >= 1] be called on
    the tensor [x] and the threaded value that the units before it
    produced from the output of the initial block.  When it returns the
    tensor [x'], the value it threads on is the tuple of the lengths, the
    history of tensors and the history of lengths; both histories have
    [k] entries, the last of which are [x] and its lengths; the unit has
    [k] pointwise blocks, block [i] from the channel count [i] of
    [channels] to the channel count [k]; the list it stacks and sums has
    [k] terms, term [i] being what block [i] returns for entry [i] of the
    history and its length; and [x'] is the activation, with the dropout
    the unit has, of the output of the body plus that sum. *)
Theorem dense_residual_history_count :
  ∀ (act len layer : Type)
    (run_layer : layer → act → len → result (act * len))
    (mask_conv1d1_block : Z → Z → Q → layer)
    (block_class : bool → Z → Z → Z → Z → Q → Q → bool → layer)
    (stack_sum : list act → result act)
    (add : act → act → result act)
    (relu : act → act)
    (dropout : Q → act → act)
    (channels ksizes : list Z) (bn_eps : Q) (dropout_rates : list Q)
    (repeat : Z) (use_dw : bool) (us : list (JasperUnit.t layer))
    (k : nat) (unit : JasperUnit.t layer)
    (x0 : act) (x_len0 : len) (x x' : act) (st st' : threaded act len),
    Jasper.units mask_conv1d1_block block_class channels ksizes bn_eps
      dropout_rates repeat use_dw true = Ok us →
    (1 ≤ k)%nat →
    us !! (k - 1)%nat = Some unit →
    Jasper.run_units run_layer stack_sum add relu dropout
      (take (k - 1) us) x0 (Plain x_len0) = Ok (x, st) →
    JasperUnit.call run_layer stack_sum add relu dropout unit x st
      = Ok (x', st') →
    ∃ x_len y y_len x_len' out terms shortcut xb s,
      JasperUnit.history x st = (x_len, y, y_len) ∧
      st' = Dense x_len' (Some y) (Some y_len) ∧
      length y = k ∧ length y_len = k ∧
      last y = Some x ∧ last y_len = Some x_len ∧
      channels !! k = Some out ∧
      JasperUnit.identity_block unit
      = Parallel ((λ c, mask_conv1d1_block c out bn_eps) <$> take k channels) ∧
      length (take k channels) = k ∧
      length terms = k ∧
      (∀ i, (i < k)%nat →
         ∃ c h hl t tl,
           channels !! i = Some c ∧ y !! i = Some h ∧ y_len !! i = Some hl ∧
           run_layer (mask_conv1d1_block c out bn_eps) h hl = Ok (t, tl) ∧
           terms !! i = Some t) ∧
      stack_sum terms = Ok shortcut ∧
      DualPathSequential_call run_layer (JasperUnit.body unit) x x_len
      = Ok (xb, x_len') ∧
      add xb shortcut = Ok s ∧
      x' = (if JasperUnit.use_dropout unit
            then dropout (JasperUnit.dropout_rate unit) (relu s) else relu s).
Proof.
  intros act len layer run_layer mc bc stack_sum add relu dropout
    channels ksizes bn_eps rates repeat use_dw us k unit x0 x_len0 x x' st st'
    Hus Hk Hunit Hrun Hcall.
  pose proof (units_dense mc bc channels ksizes bn_eps rates repeat use_dw us Hus)
    as Hdense.
  pose proof (units_blocks mc bc channels ksizes bn_eps rates repeat use_dw us Hus
                (k - 1)%nat unit Hunit) as (_ & out & Hout & Hib).
  replace (S (k - 1)) with k in Hout, Hib by lia.
  pose proof (lookup_lt_Some _ _ _ Hunit) as Hlt.
  pose proof (lookup_lt_Some _ _ _ Hout) as Hlt'.
  assert (Hst : JasperUnit.history_size (k - 1) st).
  { pose proof (run_units_history run_layer stack_sum add relu dropout
                  (take (k - 1) us) 0 x0 (Plain x_len0) x st) as H.
    rewrite length_take, Nat.min_l in H by lia. simpl in H.
    apply H; [|done|done].
    intros j u Hj. apply lookup_take_Some in Hj as [Hj _]. by apply Hdense. }
  destruct (call_dense run_layer stack_sum add relu dropout (k - 1) unit x st x' st')
    as (x_len & y & y_len & x_len' & blocks & terms & shortcut & xb & s &
        Hh & Hst' & Hy & Hl & Hib' & Ht & Hterms & Hs & Hb & Ha & Hx');
    [by apply Hdense | done | done |].
  rewrite Hib in Hib'. injection Hib' as <-.
  destruct (history_last x st x_len y y_len Hh) as [Hlx Hll].
  exists x_len, y, y_len, x_len', out, terms, shortcut, xb, s.
  repeat split; try done; try lia.
  - rewrite length_take. lia.
  - intros i Hi.
    destruct (Hterms i) as (blk & h & hl & t & tl & Hblk & Hh' & Hhl & Hr & Hti);
      [lia|].
    rewrite list_lookup_fmap in Hblk.
    destruct (take k channels !! i) as [c|] eqn:Ec; [|done].
    injection Hblk as <-.
    apply lookup_take_Some in Ec as [Ec _].
    by exists c, h, hl, t, tl.
Qed.

(** An instance: the second of two units, on weights that are all one.
    The history holds the input of the first unit and the input of the
    second one, and the output of the second unit is the activation of
    what its body gives plus the two projections. *)
Lemma dense_residual_history_count_witness :
  Jasper.units Reference.mask_conv1d1_block Reference.block_class
    [1; 1; 1; 1; 1] [3; 3; 3; 3; 1] 0%Q [0; 0; 0; 0; 0]%Q 1 false true
  = Ok Reference.units ∧
  (1 ≤ 2)%nat ∧
  Reference.units !! (2 - 1)%nat = Some Reference.unit2 ∧
  Jasper.run_units Reference.run_block Reference.stack_sum Reference.add
    Reference.relu Reference.dropout (take (2 - 1) Reference.units)
    Reference.ones_3 (Plain [2])
  = Ok (Reference.after_unit1.1, Reference.after_unit1.2) ∧
  JasperUnit.call Reference.run_block Reference.stack_sum Reference.add
    Reference.relu Reference.dropout Reference.unit2
    Reference.after_unit1.1 Reference.after_unit1.2
  = Ok (Reference.after_unit2.1, Reference.after_unit2.2) ∧
  ∃ x_len y y_len x_len' out terms shortcut xb s,
    JasperUnit.history Reference.after_unit1.1 Reference.after_unit1.2
    = (x_len, y, y_len) ∧
    Reference.after_unit2.2 = Dense x_len' (Some y) (Some y_len) ∧
    length y = 2%nat ∧ length y_len = 2%nat ∧
    last y = Some Reference.after_unit1.1 ∧ last y_len = Some x_len ∧
    [1; 1; 1; 1; 1] !! 2%nat = Some out ∧
    JasperUnit.identity_block Reference.unit2
    = Parallel ((λ c, Reference.mask_conv1d1_block c out 0%Q)
                <$> take 2 [1; 1; 1; 1; 1]) ∧
    length (take 2 [1; 1; 1; 1; 1]) = 2%nat ∧
    length terms = 2%nat ∧
    (∀ i, (i < 2)%nat →
       ∃ c h hl t tl,
         [1; 1; 1; 1; 1] !! i = Some c ∧ y !! i = Some h ∧
         y_len !! i = Some hl ∧
         Reference.run_block (Reference.mask_conv1d1_block c out 0%Q) h hl
         = Ok (t, tl) ∧
         terms !! i = Some t) ∧
    Reference.stack_sum terms = Ok shortcut ∧
    DualPathSequential_call Reference.run_block
      (JasperUnit.body Reference.unit2) Reference.after_unit1.1 x_len
    = Ok (xb, x_len') ∧
    Reference.add xb shortcut = Ok s ∧
    Reference.after_unit2.1
    = (if JasperUnit.use_dropout Reference.unit2
       then Reference.dropout (JasperUnit.dropout_rate Reference.unit2)
              (Reference.relu s)
       else Reference.relu s).
Proof.
  assert (H1 : Jasper.units Reference.mask_conv1d1_block Reference.block_class
                 [1; 1; 1; 1; 1] [3; 3; 3; 3; 1] 0%Q [0; 0; 0; 0; 0]%Q 1 false true
               = Ok Reference.units) by (vm_compute; reflexivity).
  assert (H2 : (1 ≤ 2)%nat) by lia.
  assert (H3 : Reference.units !! (2 - 1)%nat = Some Reference.unit2)
    by (vm_compute; reflexivity).
  assert (H4 : Jasper.run_units Reference.run_block Reference.stack_sum
                 Reference.add Reference.relu Reference.dropout
                 (take (2 - 1) Reference.units) Reference.ones_3 (Plain [2])
               = Ok (Reference.after_unit1.1, Reference.after_unit1.2))
    by (vm_compute; reflexivity).
  assert (H5 : JasperUnit.call Reference.run_block Reference.stack_sum
                 Reference.add Reference.relu Reference.dropout Reference.unit2
                 Reference.after_unit1.1 Reference.after_unit1.2
               = Ok (Reference.after_unit2.1, Reference.after_unit2.2))
    by (vm_compute; reflexivity).
  split; [exact H1|]. split; [exact H2|]. split; [exact H3|].
  split; [exact H4|]. split; [exact H5|].
  exact (dense_residual_history_count tensor (list Z) Reference.block
           Reference.run_block Reference.mask_conv1d1_block Reference.block_class
           Reference.stack_sum Reference.add Reference.relu Reference.dropout
           [1; 1; 1; 1; 1] [3; 3; 3; 3; 1] 0%Q [0; 0; 0; 0; 0]%Q 1 false
           Reference.units 2 Reference.unit2 Reference.ones_3 [2]
           _ _ _ _ H1 H2 H3 H4 H5).
Defined.

(** * Further properties *)

(** ** The greedy CTC decoder: what is kept *)

Section CtcDecoderMore.
Import CtcDecoder.

Lemma collapse_from_sublist blank previous frames :
  sublist (collapse_from blank previous frames) frames.
Proof.
  revert previous. induction frames as [|p rest IH]; intros previous; simpl.
  - constructor.
  - destruct (negb (p =? blank) && _).
    + apply sublist_skip, IH.
    + apply sublist_cons, IH.
Qed.

Lemma collapse_from_app_blank blank previous xs ys :
  collapse_from blank previous (xs ++ blank :: ys)
  = collapse_from blank previous xs ++ collapse_from blank blank ys.
Proof.
  revert previous. induction xs as [|p rest IH]; intros previous; simpl.
  - by rewrite Z.eqb_refl.
  - rewrite IH. by destruct (negb (p =? blank) && _).
Qed.

(** A run of one label is kept once. *)
Lemma collapse_from_run blank i n rest :
  i ≠ blank →
  collapse_from blank i (replicate n i ++ rest) = collapse_from blank i rest.
Proof.
  intros Hi. induction n as [|n IH]; simpl; [done|].
  rewrite Z.eqb_refl. simpl.
  assert ((i =? blank) = false) as -> by (apply Z.eqb_neq; done).
  by rewrite andb_false_r.
Qed.

Lemma collapse_alignment blank (word : list (Z * nat)) :
  Forall (λ p, p.1 ≠ blank) word →
  collapse_from blank blank
    (word ≫= (λ p, replicate (S p.2) p.1 ++ [blank]))
  = word.*1.
Proof.
  induction word as [|[i n] word IH]; intros Hw; [done|].
  apply Forall_cons in Hw as [Hi Hw]. simpl in Hi.
  cbn [mbind list_bind fmap list_fmap fst snd].
  rewrite <- app_assoc. cbn [replicate app collapse_from].
  rewrite Z.eqb_refl.
  assert ((i =? blank) = false) as -> by (apply Z.eqb_neq; done).
  cbn [negb andb orb]. f_equal.
  rewrite collapse_from_run by done. simpl.
  rewrite Z.eqb_refl. simpl. by apply IH.
Qed.

Lemma dict_get_vocabulary vocabulary (i : nat) (c : string) :
  vocabulary !! i = Some c →
  dict_get (labels_map (init vocabulary)) (Z.of_nat i) = Ok c.
Proof.
  intros Hi. unfold dict_get.
  rewrite labels_map_lookup, decide_True by lia.
  by rewrite Nat2Z.id, Hi.
Qed.

Lemma mapM_dict_get_Ok vocabulary (idx : list nat) (chars : list string) :
  Forall2 (λ i c, vocabulary !! i = Some c) idx chars →
  mapM (dict_get (labels_map (init vocabulary))) (Z.of_nat <$> idx) = Ok chars.
Proof.
  induction 1 as [|i c idx chars Hi _ IH]; [done|].
  rewrite fmap_cons, mapM_result_cons.
  rewrite (dict_get_vocabulary vocabulary i c Hi). result_step.
  rewrite IH. done.
Qed.

End CtcDecoderMore.

(** X1.  What the decoder keeps of a sequence is a subsequence of it, in
    order, without the blank index, and so no longer than it. *)
Theorem ctc_decoded_is_subsequence_without_blank :
  ∀ (blank : Z) (prediction : list Z),
    sublist (CtcDecoder.decoded_prediction blank prediction) prediction ∧
    (blank ∉ CtcDecoder.decoded_prediction blank prediction) ∧
    (length (CtcDecoder.decoded_prediction blank prediction)
     ≤ length prediction)%nat.
Proof.
  intros blank prediction. rewrite decoded_prediction_collapse.
  unfold CtcDecoder.collapse. split; [|split].
  - apply collapse_from_sublist.
  - intros H. apply collapse_from_elem in H as [_ H]. done.
  - apply sublist_length, collapse_from_sublist.
Qed.

(** X2.  A blank frame separates: what is decoded from two sequences put
    together with a blank between them is what is decoded from the first
    followed by what is decoded from the second. *)
Theorem ctc_blank_separates :
  ∀ (blank : Z) (xs ys : list Z),
    CtcDecoder.decoded_prediction blank (xs ++ blank :: ys)
    = CtcDecoder.decoded_prediction blank xs
      ++ CtcDecoder.decoded_prediction blank ys.
Proof.
  intros blank xs ys. rewrite !decoded_prediction_collapse.
  apply collapse_from_app_blank.
Qed.

(** X3.  A word is read back from its alignment: when every letter of a
    word, given by its index in the vocabulary, is held for one frame or
    more and followed by a blank frame, the decoder returns the letters of
    the word joined, repeated letters included. *)
Theorem ctc_alignment_round_trip :
  ∀ (vocabulary : list string) (word : list (nat * nat)) (chars : list string),
    Forall2 (λ p c, vocabulary !! p.1 = Some c) word chars →
    CtcDecoder.hypothesis (CtcDecoder.init vocabulary)
      (word ≫= (λ p, replicate (S p.2) (Z.of_nat p.1)
                      ++ [Z.of_nat (length vocabulary)]))
    = Ok (CtcDecoder.join chars).
Proof.
  intros vocabulary word chars Hw. unfold CtcDecoder.hypothesis.
  rewrite decoded_prediction_collapse. unfold CtcDecoder.collapse.
  change (CtcDecoder.blank_id (CtcDecoder.init vocabulary))
    with (Z.of_nat (length vocabulary)).
  set (blank := Z.of_nat (length vocabulary)).
  pose proof (collapse_alignment blank (prod_map Z.of_nat id <$> word)) as Hc.
  rewrite list_fmap_bind in Hc.
  assert (Heq : (word ≫= (λ p, replicate (S p.2) (Z.of_nat p.1) ++ [blank]))
                = word ≫= ((λ p : Z * nat, replicate (S p.2) p.1 ++ [blank])
                           ∘ prod_map Z.of_nat id)).
  { apply list_bind_ext; [|done]. by intros [i n]. }
  rewrite Heq, Hc.
  - rewrite <- list_fmap_compose.
    replace (fst ∘ prod_map Z.of_nat id <$> word) with (Z.of_nat <$> word.*1);
      last first.
    { rewrite <- list_fmap_compose. apply list_fmap_ext. by intros _ [i n] _. }
    rewrite (mapM_dict_get_Ok vocabulary word.*1 chars); [done|].
    apply Forall2_fmap_l. eapply Forall2_impl; [exact Hw|]. done.
  - apply Forall_fmap, Forall_forall. intros [i n] Hin. simpl.
    rewrite Forall2_lookup in Hw. apply list_elem_of_lookup in Hin as [j Hj].
    specialize (Hw j). rewrite Hj in Hw. inversion Hw as [p c Hv|]; subst.
    simpl in Hv. apply lookup_lt_Some in Hv. unfold blank. lia.
Qed.

(** An instance: "hello" over the vocabulary h, e, l, o, with the second
    letter held for two frames and the fourth for three. *)
Lemma ctc_alignment_round_trip_witness :
  Forall2 (λ (p : nat * nat) c, ["h"; "e"; "l"; "o"]%string !! p.1 = Some c)
    [(0, 0); (1, 1); (2, 0); (2, 2); (3, 0)]%nat
    ["h"; "e"; "l"; "l"; "o"]%string ∧
  CtcDecoder.hypothesis (CtcDecoder.init ["h"; "e"; "l"; "o"]%string)
    [0; 4; 1; 1; 4; 2; 4; 2; 2; 2; 4; 3; 4]
  = Ok "hello"%string.
Proof.
  assert (H : Forall2 (λ (p : nat * nat) c,
                ["h"; "e"; "l"; "o"]%string !! p.1 = Some c)
                [(0, 0); (1, 1); (2, 0); (2, 2); (3, 0)]%nat
                ["h"; "e"; "l"; "l"; "o"]%string).
  { repeat constructor. }
  split; [exact H|].
  exact (ctc_alignment_round_trip ["h"; "e"; "l"; "o"]%string
           [(0, 0); (1, 1); (2, 0); (2, 2); (3, 0)]%nat
           ["h"; "e"; "l"; "l"; "o"]%string H).
Defined.

(** ** The extractor and the first masked convolution *)

Section ExtractorMore.
Import NemoMelSpecExtractor.
Context {sample : Type}.
Variable mel_value : list sample → nat → nat → Z.

(** The matrix of an item has one frame more than valid ones at most. *)
Lemma stft_frames_le_frame_count self n :
  0 < hop_length self →
  Z.of_nat (stft_frames self n) ≤ - ((- Z.of_nat n) / hop_length self) + 1.
Proof.
  intros Hh. unfold stft_frames.
  set (h := hop_length self) in *. set (L := Z.of_nat n).
  assert (0 ≤ L) by lia.
  pose proof (ceiling_bounds L h Hh) as Hc.
  set (k := - (- L / h)) in *.
  assert (L + 2 * (n_fft self / 2) - n_fft self ≤ L).
  { pose proof (Z.div_mod (n_fft self) 2 ltac:(lia)).
    pose proof (Z.mod_pos_bound (n_fft self) 2 ltac:(lia)). lia. }
  assert ((L + 2 * (n_fft self / 2) - n_fft self) / h ≤ k).
  { apply Z.div_le_upper_bound; [done|]. nia. }
  assert (0 ≤ k) by nia. lia.
Qed.

(** A tensor that is zero from the valid lengths on is left as it is by
    the in-place masking. *)
Lemma imul_mask_fixed_point (x : tensor) (x_len : list Z) :
  canonical x →
  length x_len = dim0 x →
  (∀ i n c t, x_len !! i = Some n → n ≤ Z.of_nat t → get x i c t = 0) →
  MaskConv1d.imul_mask x x_len = Ok x.
Proof.
  intros Hcan Hlen Hzero. unfold MaskConv1d.imul_mask.
  rewrite Hlen, broadcast_dim_same. result_step.
  rewrite decide_True by done. f_equal.
  etrans; [|symmetry; exact Hcan].
  apply mk_tensor_ext. intros i c t Hi Hc Ht.
  destruct (x_len !! i) as [n|] eqn:En; last first.
  { apply lookup_ge_None in En. lia. }
  rewrite (mask_at_lookup x_len i n t En).
  destruct (decide (Z.of_nat t < n)).
  - rewrite bool_decide_true by done. simpl. lia.
  - rewrite bool_decide_false by done. rewrite (Hzero i n c t En) by lia. done.
Qed.

End ExtractorMore.

(** X4.  In what the extractor returns, every valid length is at least 1
    and at most the size of the time axis of the tensor, and the tensor is
    zero at every frame from the item's valid length on. *)
Theorem extractor_lengths_within_time_axis :
  ∀ (sample : Type) (mel_value : list sample → nat → nat → Z)
    (self : NemoMelSpecExtractor.t) (xs : list (list sample))
    (x : tensor) (x_len : list Z),
    0 < NemoMelSpecExtractor.hop_length self →
    NemoMelSpecExtractor.call mel_value self xs = Ok (x, x_len) →
    Forall (λ n, 1 ≤ n ≤ Z.of_nat (dim2 x)) x_len ∧
    (∀ i n c t, x_len !! i = Some n → n ≤ Z.of_nat t → get x i c t = 0).
Proof.
  intros sample mel_value self xs x x_len Hh Hcall.
  destruct (call_Ok_inv mel_value self xs _ Hh Hcall) as (Hne & Hall & Hex).
  rewrite (call_spec mel_value self xs Hh Hne Hall Hex) in Hcall.
  injection Hcall as <- <-. split.
  - apply Forall_fmap, Forall_forall. intros xi Hxi. simpl.
    change (dim2 (mk_tensor _ _ ?T _)) with T.
    pose proof (frame_count_le_stft_frames self (length xi) Hh) as [_ Hle].
    pose proof (ceiling_bounds (Z.of_nat (length xi))
                  (NemoMelSpecExtractor.hop_length self) Hh) as Hc.
    rewrite Forall_forall in Hall. specialize (Hall xi Hxi).
    assert (0 < length xi)%nat by (destruct xi; [done | simpl; lia]).
    split; [nia|].
    assert (NemoMelSpecExtractor.stft_frames self (length xi)
            ≤ max_list ((λ xi, NemoMelSpecExtractor.stft_frames self (length xi)) <$> xs))%nat.
    { apply max_list_elem_of_le, list_elem_of_fmap. by exists xi. }
    unfold NemoMelSpecExtractor.aligned. case_decide; lia.
  - intros i n c t Hi Ht. rewrite get_mk_tensor.
    destruct (decide _) as [_|]; [|done].
    rewrite list_lookup_fmap in Hi.
    destruct (xs !! i) as [xi|]; [|done]. injection Hi as <-.
    rewrite decide_False; [done|].
    pose proof (frame_count_le_stft_frames self (length xi) Hh). lia.
Qed.

(** An instance: 320 samples give the valid length 2 in 16 frames. *)
Lemma extractor_lengths_within_time_axis_witness :
  0 < NemoMelSpecExtractor.hop_length NemoMelSpecExtractor.default ∧
  NemoMelSpecExtractor.call Reference.mel_value NemoMelSpecExtractor.default
    [Reference.waveform_320] = Ok (Reference.features_320, [2]) ∧
  Forall (λ n, 1 ≤ n ≤ Z.of_nat (dim2 Reference.features_320)) [2].
Proof.
  assert (H0 : 0 < NemoMelSpecExtractor.hop_length NemoMelSpecExtractor.default)
    by (vm_compute; reflexivity).
  assert (H1 : NemoMelSpecExtractor.call Reference.mel_value
                 NemoMelSpecExtractor.default [Reference.waveform_320]
               = Ok (Reference.features_320, [2]))
    by (vm_compute; reflexivity).
  split; [exact H0|]. split; [exact H1|].
  exact (proj1 (extractor_lengths_within_time_axis Z Reference.mel_value
                  NemoMelSpecExtractor.default [Reference.waveform_320]
                  Reference.features_320 [2] H0 H1)).
Defined.

(** X5.  The matrix the extractor computes for an item holds the item's
    valid frames and at most one frame more: only that last frame can be
    left out of the returned tensor. *)
Theorem extractor_drops_one_frame_at_most :
  ∀ (sample : Type) (mel_value : list sample → nat → nat → Z)
    (self : NemoMelSpecExtractor.t) (xs : list (list sample))
    (x : tensor) (x_len : list Z),
    0 < NemoMelSpecExtractor.hop_length self →
    NemoMelSpecExtractor.call mel_value self xs = Ok (x, x_len) →
    Forall2 (λ xi n,
               n ≤ Z.of_nat (cols (NemoMelSpecExtractor.log_mel mel_value self xi))
               ≤ n + 1) xs x_len.
Proof.
  intros sample mel_value self xs x x_len Hh Hcall.
  destruct (call_Ok_inv mel_value self xs _ Hh Hcall) as (Hne & Hall & Hex).
  rewrite (call_spec mel_value self xs Hh Hne Hall Hex) in Hcall.
  injection Hcall as _ <-.
  apply Forall2_fmap_r, Forall_Forall2_diag, Forall_forall. intros xi _.
  unfold compose. rewrite cols_log_mel.
  pose proof (frame_count_le_stft_frames self (length xi) Hh).
  pose proof (stft_frames_le_frame_count self (length xi) Hh). lia.
Qed.

(** An instance: three frames for the valid length 2. *)
Lemma extractor_drops_one_frame_at_most_witness :
  0 < NemoMelSpecExtractor.hop_length NemoMelSpecExtractor.default ∧
  NemoMelSpecExtractor.call Reference.mel_value NemoMelSpecExtractor.default
    [Reference.waveform_320] = Ok (Reference.features_320, [2]) ∧
  Forall2 (λ xi n,
             n ≤ Z.of_nat (cols (NemoMelSpecExtractor.log_mel Reference.mel_value
                                   NemoMelSpecExtractor.default xi))
             ≤ n + 1) [Reference.waveform_320] [2].
Proof.
  assert (H0 : 0 < NemoMelSpecExtractor.hop_length NemoMelSpecExtractor.default)
    by (vm_compute; reflexivity).
  assert (H1 : NemoMelSpecExtractor.call Reference.mel_value
                 NemoMelSpecExtractor.default [Reference.waveform_320]
               = Ok (Reference.features_320, [2]))
    by (vm_compute; reflexivity).
  split; [exact H0|]. split; [exact H1|].
  exact (extractor_drops_one_frame_at_most Z Reference.mel_value
           NemoMelSpecExtractor.default [Reference.waveform_320]
           Reference.features_320 [2] H0 H1).
Defined.

(** X6.  What the extractor returns is masked already: the in-place
    masking of the first masked convolution, with the lengths the
    extractor returned, gives the same tensor. *)
Theorem extractor_output_is_masked :
  ∀ (sample : Type) (mel_value : list sample → nat → nat → Z)
    (self : NemoMelSpecExtractor.t) (xs : list (list sample))
    (x : tensor) (x_len : list Z),
    0 < NemoMelSpecExtractor.hop_length self →
    NemoMelSpecExtractor.call mel_value self xs = Ok (x, x_len) →
    MaskConv1d.apply_mask NdArray x x_len = Ok x.
Proof.
  intros sample mel_value self xs x x_len Hh Hcall.
  destruct (call_Ok_inv mel_value self xs _ Hh Hcall) as (Hne & Hall & Hex).
  rewrite (call_spec mel_value self xs Hh Hne Hall Hex) in Hcall.
  injection Hcall as Hx Hl.
  simpl. apply imul_mask_fixed_point.
  - rewrite <- Hx. apply canonical_mk_tensor.
  - rewrite <- Hx, <- Hl. by rewrite length_fmap.
  - intros i n c t Hi Ht.
    rewrite <- Hx, get_mk_tensor.
    destruct (decide _) as [_|]; [|done].
    rewrite <- Hl, list_lookup_fmap in Hi.
    destruct (xs !! i) as [xi|]; [|done]. injection Hi as <-.
    rewrite decide_False; [done|].
    pose proof (frame_count_le_stft_frames self (length xi) Hh). lia.
Qed.

(** An instance: the features of 320 samples. *)
Lemma extractor_output_is_masked_witness :
  0 < NemoMelSpecExtractor.hop_length NemoMelSpecExtractor.default ∧
  NemoMelSpecExtractor.call Reference.mel_value NemoMelSpecExtractor.default
    [Reference.waveform_320] = Ok (Reference.features_320, [2]) ∧
  MaskConv1d.apply_mask NdArray Reference.features_320 [2]
  = Ok Reference.features_320.
Proof.
  assert (H0 : 0 < NemoMelSpecExtractor.hop_length NemoMelSpecExtractor.default)
    by (vm_compute; reflexivity).
  assert (H1 : NemoMelSpecExtractor.call Reference.mel_value
                 NemoMelSpecExtractor.default [Reference.waveform_320]
               = Ok (Reference.features_320, [2]))
    by (vm_compute; reflexivity).
  split; [exact H0|]. split; [exact H1|].
  exact (extractor_output_is_masked Z Reference.mel_value
           NemoMelSpecExtractor.default [Reference.waveform_320]
           Reference.features_320 [2] H0 H1).
Defined.

(** ** The masked convolution: what its result depends on *)

Section MaskConv1dMore.
Import MaskConv1d.

Lemma masked_input_dims self kind x x_len xm :
  masked_input self kind x x_len = Ok xm →
  dim1 xm = dim1 x ∧ dim2 xm = dim2 x.
Proof.
  unfold masked_input. destruct (use_mask self); [|by intros [= <-]].
  destruct kind; simpl; unfold imul_mask, mul_mask;
    destruct (broadcast_dim _ _); try done; result_step.
  - case_decide; [|done]. by intros [= <-].
  - by intros [= <-].
Qed.

Lemma convolution_1d_dim2 x W b stride pad dilate groups y :
  convolution_1d x W b stride pad dilate groups = Ok y →
  0 < stride ∧
  Z.of_nat (dim2 y)
  = conv_outsize (Z.of_nat (dim2 x)) (Z.of_nat (dim2 W)) stride pad dilate.
Proof.
  unfold convolution_1d. case_decide as H; [|done]. intros [= <-].
  change (dim2 (mk_tensor _ _ ?T _)) with T. split; [tauto|]. lia.
Qed.

End MaskConv1dMore.

(** X8.  The lengths stay within the tensor: when the convolution's
    [ksize] is the kernel size of its weights and masking is enabled, the
    time axis of the output is the length formula applied to the time axis
    of the input, and valid lengths that do not exceed the input's time
    axis are mapped to valid lengths that do not exceed the output's. *)
Theorem mask_conv_lengths_within_output :
  ∀ (self : MaskConv1d.t) (kind : array_kind) (x : tensor) (x_len : list Z)
    (y : tensor) (y_len : list Z),
    MaskConv1d.use_mask self = true →
    MaskConv1d.ksize self = Z.of_nat (dim2 (MaskConv1d.W self)) →
    MaskConv1d.forward self kind x x_len = Ok (y, y_len) →
    Z.of_nat (dim2 y) = MaskConv1d.out_len self (Z.of_nat (dim2 x)) ∧
    (Forall (λ n, n ≤ Z.of_nat (dim2 x)) x_len →
     Forall (λ n, n ≤ Z.of_nat (dim2 y)) y_len).
Proof.
  intros self kind x x_len y y_len Hm Hk H.
  apply forward_Ok_inv in H as (xm & Hxm & Hc & -> & _).
  apply masked_input_dims in Hxm as [_ Hd2].
  apply convolution_1d_dim2 in Hc as [Hs Hc]. rewrite Hd2 in Hc.
  assert (Hout : Z.of_nat (dim2 y) = MaskConv1d.out_len self (Z.of_nat (dim2 x))).
  { rewrite Hc. unfold conv_outsize, MaskConv1d.out_len, MaskConv1d.stride0,
      MaskConv1d.pad0. by rewrite Hk. }
  split; [done|]. intros Hle.
  unfold MaskConv1d.new_len. rewrite Hm.
  apply Forall_fmap. eapply Forall_impl; [exact Hle|].
  intros n Hn. simpl. rewrite Hout.
  unfold MaskConv1d.out_len, MaskConv1d.stride0, MaskConv1d.pad0.
  simpl in Hn. apply Z.add_le_mono_r, Z.div_le_mono; lia.
Qed.

(** An instance: three frames in, three frames out, and the valid
    length 2 within both. *)
Lemma mask_conv_lengths_within_output_witness :
  MaskConv1d.forward Reference.conv3 NdArray Reference.ones_3 [2]
  = Ok (Reference.conv_3, [2]) ∧
  Z.of_nat (dim2 Reference.conv_3)
  = MaskConv1d.out_len Reference.conv3 (Z.of_nat (dim2 Reference.ones_3)) ∧
  Forall (λ n, n ≤ Z.of_nat (dim2 Reference.conv_3)) [2].
Proof.
  assert (H : MaskConv1d.forward Reference.conv3 NdArray Reference.ones_3 [2]
              = Ok (Reference.conv_3, [2])) by (vm_compute; reflexivity).
  split; [exact H|].
  destruct (mask_conv_lengths_within_output Reference.conv3 NdArray
              Reference.ones_3 [2] Reference.conv_3 [2] eq_refl eq_refl H)
    as [H1 H2].
  split; [exact H1|]. apply H2.
  constructor; [vm_compute; discriminate|constructor].
Defined.

(** ** The constructor of the masked convolution *)

Section MaskConv1dInit.

Import MaskConv1d.

Lemma MaskConv1d_init_Ok_inv w bias cin cout k s p d g use_bias use_mask conv :
  MaskConv1d_init w bias cin cout k s p d g use_bias use_mask = Ok conv →
  conv = {| W := mk_tensor cout (cin / g) (Z.to_nat k) w;
            b := if use_bias then Some (tabulate cout bias) else None;
            ksize := k; stride := s; pad := p; dilate := d; groups := g;
            use_mask := use_mask |} ∧
  (0 < g)%nat ∧ (cout `mod` g = 0)%nat ∧ (cin `mod` g = 0)%nat ∧ 0 ≤ k.
Proof.
  unfold MaskConv1d_init. case_decide as Hg; [done|]. case_decide as H; [|done].
  intros [= <-]. split; [done|]. split; [lia|tauto].
Qed.

End MaskConv1dInit.

(** ** The channel shuffle *)

Section ChannelShuffleFacts.

Import ChannelShuffle1d.

Lemma init_Ok_inv channels g s :
  init channels g = Ok s →
  s = {| groups := g |} ∧ (0 < g)%nat ∧ (g * (channels / g) = channels)%nat.
Proof.
  unfold init. case_decide as Hg; [done|]. case_decide as Hm; [|done].
  intros [= <-]. split; [done|]. split; [lia|].
  pose proof (Nat.div_mod_eq channels g). lia.
Qed.

(** The channel that the shuffle reads lies within the tensor. *)
Lemma source_channel_lt (g cpg c : nat) :
  (c < g * cpg)%nat → (c `mod` g * cpg + c / g < g * cpg)%nat.
Proof.
  intros Hc. assert (0 < g)%nat by (destruct g; lia).
  pose proof (Nat.mod_upper_bound c g ltac:(lia)).
  assert (c / g < cpg)%nat by (apply Nat.Div0.div_lt_upper_bound; lia).
  nia.
Qed.

Lemma source_channel_inverse (g cpg c : nat) :
  (c < g * cpg)%nat →
  let d := (c `mod` cpg * g + c / cpg)%nat in
  (d `mod` g * cpg + d / g = c)%nat.
Proof.
  intros Hc d. assert (0 < cpg)%nat by (destruct cpg; lia).
  assert (0 < g)%nat by (destruct g; lia).
  assert (Hi : (c / cpg < g)%nat) by (apply Nat.Div0.div_lt_upper_bound; lia).
  assert (Hm : (d `mod` g = c / cpg)%nat).
  { unfold d. rewrite Nat.add_comm, Nat.Div0.mod_add. by apply Nat.mod_small. }
  assert (Hd : (d / g = c `mod` cpg)%nat).
  { unfold d. rewrite Nat.add_comm, Nat.div_add by lia.
    rewrite Nat.div_small by done. lia. }
  rewrite Hm, Hd. pose proof (Nat.div_mod_eq c cpg). lia.
Qed.

Lemma call_spec_divisible g (x : tensor) :
  (0 < g)%nat → (g * (dim1 x / g) = dim1 x)%nat →
  call {| groups := g |} x
  = Ok (mk_tensor (dim0 x) (dim1 x) (dim2 x) (λ b c t,
          get x b (c `mod` g * (dim1 x / g) + c / g)%nat t)).
Proof.
  intros Hg Hd. unfold call. destruct x as [[[B C] T] d]; simpl in *.
  rewrite decide_False by lia. rewrite decide_True; [done|].
  unfold dim1 in Hd; simpl in Hd. nia.
Qed.

Lemma call_Ok_inv_shuffle s (x y : tensor) :
  call s x = Ok y →
  shape y = shape x ∧
  ∀ b c t, (b < dim0 x)%nat → (c < dim1 x)%nat → (t < dim2 x)%nat →
    (c `mod` groups s * (dim1 x / groups s) + c / groups s < dim1 x)%nat ∧
    get y b c t = get x b (c `mod` groups s * (dim1 x / groups s) + c / groups s)%nat t.
Proof.
  unfold call. destruct x as [[[B C] T] d]; unfold dim0, dim1, dim2; simpl.
  case_decide as Hg; [done|]. case_decide as Hsz; [|done].
  intros [= <-]. split; [done|]. intros b c t Hb Hc Ht.
  assert (HC : (groups s * (C / groups s) = C)%nat).
  { generalize dependent (C / groups s)%nat. intros q Hsz.
    apply (Nat.mul_cancel_l _ _ (B * T)); [|lia].
    destruct B, T; simpl; lia. }
  split.
  - pose proof (source_channel_lt (groups s) (C / groups s) c) as Hlt.
    rewrite HC in Hlt. by apply Hlt.
  - by rewrite get_mk_tensor_in.
Qed.

End ChannelShuffleFacts.

(** X11.  The shuffle is undone by the shuffle with the complementary
    count of groups: shuffling a tensor of [channels] channels with
    [groups] groups and then with [channels // groups] groups gives the
    tensor back. *)
Theorem channel_shuffle_round_trip :
  ∀ (g : nat) (x : tensor) (s1 s2 : ChannelShuffle1d.t),
    canonical x →
    ChannelShuffle1d.init (dim1 x) g = Ok s1 →
    ChannelShuffle1d.init (dim1 x) (dim1 x / g) = Ok s2 →
    ChannelShuffle1d.call s1 x ≫= ChannelShuffle1d.call s2 = Ok x.
Proof.
  intros g x s1 s2 Hcan H1 H2.
  apply init_Ok_inv in H1 as (-> & Hg & Hd).
  apply init_Ok_inv in H2 as (-> & Hcpg & _).
  set (cpg := (dim1 x / g)%nat) in *.
  rewrite call_spec_divisible by done. result_step.
  assert (Hq : (dim1 x / cpg = g)%nat).
  { rewrite <- Hd at 1. apply Nat.div_mul. lia. }
  rewrite call_spec_divisible;
    change (dim1 (mk_tensor _ ?C _ _)) with C; [|done|rewrite Hq; lia].
  change (dim0 (mk_tensor ?B _ _ _)) with B.
  change (dim2 (mk_tensor _ _ ?T _)) with T.
  f_equal. etrans; [|symmetry; exact Hcan].
  apply mk_tensor_ext. intros b c t Hb Hc Ht. rewrite Hq.
  assert (Hc' : (c < g * cpg)%nat) by lia.
  rewrite get_mk_tensor_in; [| done | | done].
  - fold cpg. by rewrite (source_channel_inverse g cpg c Hc').
  - rewrite <- Hd. rewrite (Nat.mul_comm g cpg).
    rewrite (Nat.mul_comm (c `mod` cpg) g).
    pose proof (Nat.mod_upper_bound c cpg ltac:(lia)).
    assert (c / cpg < g)%nat by (apply Nat.Div0.div_lt_upper_bound; lia).
    nia.
Qed.

(** An instance: six channels in two groups, then in three. *)
Lemma channel_shuffle_round_trip_witness :
  ChannelShuffle1d.call {| ChannelShuffle1d.groups := 2 |} Examples.channels_6
  = Ok Examples.shuffled_6 ∧
  ChannelShuffle1d.call {| ChannelShuffle1d.groups := 2 |} Examples.channels_6
    ≫= ChannelShuffle1d.call {| ChannelShuffle1d.groups := 3 |}
  = Ok Examples.channels_6.
Proof.
  split; [vm_compute; reflexivity|].
  apply (channel_shuffle_round_trip 2 Examples.channels_6
           {| ChannelShuffle1d.groups := 2 |} {| ChannelShuffle1d.groups := 3 |});
    vm_compute; reflexivity.
Defined.

(** X12.  The shuffle with one group, and the shuffle with one channel
    per group, change nothing. *)
Theorem channel_shuffle_trivial_groups :
  ∀ (g : nat) (x : tensor) (s : ChannelShuffle1d.t),
    canonical x →
    ChannelShuffle1d.init (dim1 x) g = Ok s →
    g = 1%nat ∨ g = dim1 x →
    ChannelShuffle1d.call s x = Ok x.
Proof.
  intros g x s Hcan Hs Hg.
  apply init_Ok_inv in Hs as (-> & Hpos & Hd).
  rewrite call_spec_divisible by done.
  f_equal. etrans; [|symmetry; exact Hcan].
  apply mk_tensor_ext. intros b c t Hb Hc Ht. f_equal.
  destruct Hg as [->| ->].
  - rewrite Nat.mod_1_r, !Nat.div_1_r. lia.
  - rewrite Nat.div_same by lia. rewrite Nat.mod_small, Nat.div_small by done. lia.
Qed.

(** An instance: two channels in one group. *)
Lemma channel_shuffle_trivial_groups_witness :
  ChannelShuffle1d.call {| ChannelShuffle1d.groups := 1 |} Examples.channels_2
  = Ok Examples.channels_2.
Proof.
  apply (channel_shuffle_trivial_groups 1 Examples.channels_2);
    [vm_compute; reflexivity|vm_compute; reflexivity|by left].
Defined.

(** X13.  The shuffle and the masking commute: with one length per item,
    masking a tensor and shuffling the result gives what masking the
    shuffled tensor gives, so that the shuffle moves no padding into the
    valid frames. *)
Theorem channel_shuffle_commutes_with_mask :
  ∀ (s : ChannelShuffle1d.t) (kind : array_kind) (x y : tensor) (x_len : list Z),
    length x_len = dim0 x →
    ChannelShuffle1d.call s x = Ok y →
    MaskConv1d.apply_mask kind x x_len ≫= ChannelShuffle1d.call s
    = MaskConv1d.apply_mask kind y x_len.
Proof.
  intros s kind x y x_len Hlen Hy.
  pose proof (call_Ok_inv_shuffle s x y Hy) as [Hsh Hget].
  assert (Hm : ∀ z, shape z = shape x →
            MaskConv1d.apply_mask kind z x_len
            = Ok (mk_tensor (dim0 x) (dim1 x) (dim2 x) (λ i c t,
                    get z i c t * Z.b2z (MaskConv1d.mask_at x_len i t)))).
  { intros z Hz. unfold dim0, dim1, dim2. rewrite <- Hz.
    fold (dim0 z) (dim1 z) (dim2 z).
    assert (Hlz : length x_len = dim0 z) by (unfold dim0; by rewrite Hz).
    destruct kind; simpl; unfold MaskConv1d.imul_mask, MaskConv1d.mul_mask;
      rewrite Hlz, broadcast_dim_same; result_step.
    - by rewrite decide_True.
    - f_equal. apply mk_tensor_ext. intros i c t Hi _ _.
      unfold bidx. case_decide; [|done]. by replace i with 0%nat by lia. }
  rewrite (Hm x eq_refl), (Hm y Hsh). result_step.
  unfold ChannelShuffle1d.call in *.
  destruct x as [[[B C] T] d]. unfold dim0, dim1, dim2 in *. simpl in *.
  case_decide as Hg; [done|]. case_decide as Hsz; [|done].
  f_equal. apply mk_tensor_ext. intros b c t Hb Hc Ht.
  destruct (Hget b c t Hb Hc Ht) as [Hlt ->].
  by rewrite get_mk_tensor_in.
Qed.

(** An instance: four channels of two frames, of which one is valid. *)
Lemma channel_shuffle_commutes_with_mask_witness :
  ChannelShuffle1d.call {| ChannelShuffle1d.groups := 2 |} Examples.channels_4
  = Ok Examples.shuffled_4 ∧
  MaskConv1d.apply_mask FVariable Examples.channels_4 [1]
    ≫= ChannelShuffle1d.call {| ChannelShuffle1d.groups := 2 |}
  = MaskConv1d.apply_mask FVariable Examples.shuffled_4 [1].
Proof.
  assert (H : ChannelShuffle1d.call {| ChannelShuffle1d.groups := 2 |}
                Examples.channels_4 = Ok Examples.shuffled_4)
    by (vm_compute; reflexivity).
  split; [exact H|].
  exact (channel_shuffle_commutes_with_mask {| ChannelShuffle1d.groups := 2 |}
           FVariable Examples.channels_4 Examples.shuffled_4 [1] eq_refl H).
Defined.

(** ** The blocks, the units and the network: the valid lengths *)

Section BlockFacts.

Lemma forward_lengths (self : MaskConv1d.t) kind x x_len y y_len k s p d :
  MaskConv1d.ksize self = k → MaskConv1d.stride self = s →
  MaskConv1d.pad self = p → MaskConv1d.dilate self = d →
  MaskConv1d.use_mask self = true →
  MaskConv1d.forward self kind x x_len = Ok (y, y_len) →
  y_len = (λ n, (n + 2 * p - d * (k - 1) - 1) / s + 1) <$> x_len.
Proof.
  intros <- <- <- <- Hm H.
  apply forward_Ok_inv in H as (_ & _ & _ & -> & _).
  unfold MaskConv1d.new_len. by rewrite Hm.
Qed.

Lemma block_tail_lengths (f1 f2 f3 : tensor → tensor) (b1 b2 b3 : bool)
    (x y : tensor) (l l' : list Z) :
  (let x := if b1 then f1 x else x in
   let x := if b2 then f2 x else x in
   let x := if b3 then f3 x else x in
   (Ok (x, l) : result (tensor * list Z))) = Ok (y, l') → l' = l.
Proof. simpl. by intros [= _ <-]. Qed.

Lemma pointwise_lengths (l : list Z) :
  (λ n, (n + 2 * 0 - 1 * (1 - 1) - 1) / 1 + 1) <$> l = l.
Proof.
  rewrite <- (list_fmap_id l) at 2. apply list_fmap_ext. intros _ n _.
  simpl. rewrite Z.div_1_r. lia.
Qed.

Lemma dws_call_lengths (blk : DwsConvBlock1d.t) kind x x_len y y_len k s p d :
  configured (BDws blk) k s p d →
  DwsConvBlock1d.call blk kind x x_len = Ok (y, y_len) →
  y_len = (λ n, (n + 2 * p - d * (k - 1) - 1) / s + 1) <$> x_len.
Proof.
  intros (Hk & Hs & Hp & Hd & Hm & Hk' & Hs' & Hp' & Hd' & Hm').
  simpl in *. unfold DwsConvBlock1d.call.
  destruct (MaskConv1d.forward (DwsConvBlock1d.dw_conv blk) kind x x_len)
    as [[x1 l1]|] eqn:E1; [|done].
  result_step.
  destruct (MaskConv1d.forward (DwsConvBlock1d.pw_conv blk) FVariable x1 l1)
    as [[x2 l2]|] eqn:E2; [|done].
  result_step.
  apply (forward_lengths _ _ _ _ _ _ k s p d Hk Hs Hp Hd Hm) in E1.
  apply (forward_lengths _ _ _ _ _ _ 1 1 0 1 Hk' Hs' Hp' Hd' Hm') in E2.
  rewrite pointwise_lengths in E2. subst l2.
  destruct (if DwsConvBlock1d.use_channel_shuffle blk then _ else _)
    as [x3|]; [|done].
  result_step. intros H. apply block_tail_lengths in H. by rewrite H.
Qed.

Lemma conv_block_lengths (blk : conv_block) kind x x_len y y_len k s p d :
  configured blk k s p d →
  conv_block_call blk kind x x_len = Ok (y, y_len) →
  y_len = (λ n, (n + 2 * p - d * (k - 1) - 1) / s + 1) <$> x_len.
Proof.
  destruct blk as [blk|blk]; [|apply dws_call_lengths].
  intros (Hk & Hs & Hp & Hd & Hm & _). simpl in *.
  unfold MaskConvBlock1d.call.
  destruct (MaskConv1d.forward (MaskConvBlock1d.conv blk) kind x x_len)
    as [[x1 l1]|] eqn:E1; [|done].
  result_step.
  apply (forward_lengths _ _ _ _ _ _ k s p d Hk Hs Hp Hd Hm) in E1.
  intros H. apply block_tail_lengths in H. by rewrite H.
Qed.

Lemma mask_init_configured w bias bn dropout cin cout k s p d g use_bias use_bn
    activation rate blk :
  MaskConvBlock1d.init w bias bn dropout cin cout k s p d g use_bias use_bn
    activation rate = Ok blk →
  configured (BMask blk) k s p d.
Proof.
  unfold MaskConvBlock1d.init.
  destruct (MaskConv1d_init w _ _ _ _ _ _ _ _ _ _) as [c|] eqn:E1; [|done].
  result_step. apply MaskConv1d_init_Ok_inv in E1 as [-> _].
  intros [= <-]. by repeat split.
Qed.

(** The padding [ksize // 2] keeps the lengths for an odd kernel size. *)
Lemma same_padding_lengths (k : Z) (l : list Z) :
  k `mod` 2 = 1 →
  (λ n, (n + 2 * (k / 2) - 1 * (k - 1) - 1) / 1 + 1) <$> l = l.
Proof.
  intros Hk. rewrite <- (list_fmap_id l) at 2. apply list_fmap_ext.
  intros _ n _. simpl. rewrite Z.div_1_r.
  pose proof (Z.div_mod k 2 ltac:(lia)). lia.
Qed.

(** The padding [2 * ksize // 2 - 1] keeps them under the dilation 2. *)
Lemma dilated_padding_lengths (k : Z) (l : list Z) :
  (λ n, (n + 2 * (2 * k / 2 - 1) - 2 * (k - 1) - 1) / 1 + 1) <$> l = l.
Proof.
  rewrite <- (list_fmap_id l) at 2. apply list_fmap_ext.
  intros _ n _. simpl. rewrite Z.div_1_r.
  replace (2 * k / 2) with k by (rewrite Z.mul_comm, Z.div_mul; lia). lia.
Qed.

Lemma sequential_lengths (blocks : list conv_block) : ∀ x l y l',
  Forall (λ blk, ∃ k, k `mod` 2 = 1 ∧ configured blk k 1 (k / 2) 1) blocks →
  DualPathSequential_call run_block blocks x l = Ok (y, l') → l' = l.
Proof.
  induction blocks as [|blk blocks IH]; intros x l y l' Hall.
  - by intros [= _ <-].
  - cbn [DualPathSequential_call].
    destruct (run_block blk x l) as [[x1 l1]|] eqn:E1; [|done].
    result_step. intros Hrest.
    apply Forall_cons in Hall as [(k & Hk & Hc) Hall].
    apply (conv_block_lengths _ _ _ _ _ _ _ _ _ _ Hc) in E1.
    rewrite same_padding_lengths in E1 by done. subst l1.
    by apply (IH x1 l y l').
Qed.

End BlockFacts.

(** ** The units and the network: the valid lengths *)

Section NetworkFacts.

Variable new_block : bool → Z → Z → Z → Z → Z → Z → Q → Q → bool → conv_block.
Hypothesis new_block_configured : ∀ dw cin cout k s p d eps r a,
  configured (new_block dw cin cout k s p d eps r a) k s p d.
Variable stack_sum : list tensor → result tensor.
Variable add : tensor → tensor → result tensor.
Variable relu : tensor → tensor.
Variable dropout : Q → tensor → tensor.

Lemma init_body in_channels out_channels ksize bn_eps rate repeat use_dw use_dr u :
  JasperUnit.init (mask_conv1d1_block new_block) (block_class new_block)
    in_channels out_channels ksize bn_eps rate repeat use_dw use_dr = Ok u →
  Forall (λ blk, configured blk ksize 1 (ksize / 2) 1) (JasperUnit.body u).
Proof.
  unfold JasperUnit.init.
  destruct (if use_dr then _ else _) as [[identity c]|]; [|done].
  result_step. intros [= <-]. simpl. unfold tabulate.
  apply Forall_fmap, Forall_forall. intros i _. simpl. unfold block_class.
  apply new_block_configured.
Qed.

Lemma unit_call_lengths (u : JasperUnit.t conv_block) x st y st' :
  Forall (λ blk, ∃ k, k `mod` 2 = 1 ∧ configured blk k 1 (k / 2) 1)
    (JasperUnit.body u) →
  unit_call stack_sum add relu dropout u x st = Ok (y, st') →
  lengths_of st' = lengths_of st.
Proof.
  intros Hbody. unfold unit_call, JasperUnit.call.
  destruct (JasperUnit.use_dr u).
  - destruct (JasperUnit.history x st) as [[x_len h] h_len] eqn:Eh.
    assert (Hl : x_len = lengths_of st).
    { unfold JasperUnit.history in Eh.
      destruct st as [l|l yo ylo]; simpl in *; by injection Eh as <- _ _. }
    destruct (JasperUnit.identity_call run_block u h h_len) as [[identity m]|];
      [|done].
    result_step.
    destruct (stack_sum identity) as [s|]; [|done].
    result_step.
    destruct (DualPathSequential_call run_block (JasperUnit.body u) x x_len)
      as [[xb lb]|] eqn:Eb; [|done].
    result_step.
    destruct (add xb s) as [xs|]; [|done].
    result_step. intros [= _ <-]. simpl.
    apply sequential_lengths in Eb; [|done]. by rewrite Eb.
  - destruct st as [l|]; [|done].
    destruct (JasperUnit.identity_block u) as [|block]; [done|].
    destruct (run_block block x l) as [[identity m]|]; [|done].
    result_step.
    destruct (DualPathSequential_call run_block (JasperUnit.body u) x l)
      as [[xb lb]|] eqn:Eb; [|done].
    result_step.
    destruct (add xb identity) as [xs|]; [|done].
    result_step. intros [= _ <-]. simpl.
    by apply sequential_lengths in Eb.
Qed.

Lemma add_units_body bn_eps repeat use_dw use_dr cfgs : ∀ st st',
  Jasper.add_units (mask_conv1d1_block new_block) (block_class new_block)
    bn_eps repeat use_dw use_dr st cfgs = Ok st' →
  Forall (λ cfg : Z * (Z * Q), cfg.2.1 `mod` 2 = 1) cfgs →
  Forall (λ u, Forall (λ blk, ∃ k, k `mod` 2 = 1 ∧ configured blk k 1 (k / 2) 1)
                 (JasperUnit.body u)) st.2 →
  Forall (λ u, Forall (λ blk, ∃ k, k `mod` 2 = 1 ∧ configured blk k 1 (k / 2) 1)
                 (JasperUnit.body u)) st'.2.
Proof.
  induction cfgs as [|[out [ks rate]] rest IH]; intros [[c L] us] st'.
  - by intros [= <-].
  - cbn [Jasper.add_units]. unfold Jasper.add_unit at 1.
    destruct (JasperUnit.init _ _ _ _ _ _ _ _ _ _) as [u0|] eqn:Ei; [|done].
    result_step. intros Hrest Hodd Hus.
    apply Forall_cons in Hodd as [Hk Hodd]. simpl in Hk.
    apply (IH _ _ Hrest Hodd). simpl.
    apply Forall_app. split; [done|]. apply Forall_singleton.
    apply init_body in Ei. eapply Forall_impl; [exact Ei|].
    intros blk Hc. by exists ks.
Qed.

Lemma run_units_lengths (us : list (JasperUnit.t conv_block)) : ∀ x st y st',
  Forall (λ u, Forall (λ blk, ∃ k, k `mod` 2 = 1 ∧ configured blk k 1 (k / 2) 1)
                 (JasperUnit.body u)) us →
  DualPathSequential_call (unit_call stack_sum add relu dropout) us x st
  = Ok (y, st') →
  lengths_of st' = lengths_of st.
Proof.
  induction us as [|u us IH]; intros x st y st' Hus.
  - by intros [= _ <-].
  - cbn [DualPathSequential_call].
    destruct (unit_call _ _ _ _ u x st) as [[x1 st1]|] eqn:E1; [|done].
    result_step. intros Hrest.
    apply Forall_cons in Hus as [Hu Hus].
    apply unit_call_lengths in E1; [|done].
    rewrite <- E1. by apply (IH x1 st1 y st').
Qed.

Lemma final_block_lengths in_channels channels ksizes bn_eps rates use_dw use_dr
    f x st y l :
  JasperFinalBlock_init new_block in_channels channels ksizes bn_eps rates
    use_dw use_dr = Ok f →
  (∀ k, list_from_end ksizes 1 = Ok k → k `mod` 2 = 1) →
  JasperFinalBlock_call f x st = Ok (y, l) →
  l = lengths_of st.
Proof.
  unfold JasperFinalBlock_init.
  destruct (list_from_end channels 2) as [c2|]; [|done]. result_step.
  destruct (list_from_end ksizes 2) as [k2|]; [|done]. result_step.
  destruct (list_from_end rates 2) as [r2|]; [|done]. result_step.
  destruct (list_from_end channels 1) as [c1|]; [|done]. result_step.
  destruct (list_from_end ksizes 1) as [k1|]; [|done]. result_step.
  destruct (list_from_end rates 1) as [r1|]; [|done]. result_step.
  intros [= <-] Hodd. specialize (Hodd k1 eq_refl).
  unfold JasperFinalBlock_call. simpl.
  assert (∀ l0, (Ok l0 : result (list Z)) ≫= (λ x_len,
            '(x, x_len) ← run_block
               (new_block use_dw in_channels c2 k2 1 (2 * k2 / 2 - 1) 2 bn_eps r2 true)
               x x_len;
            run_block (new_block false c2 c1 k1 1 (k1 / 2) 1 bn_eps r1 true)
              x x_len) = Ok (y, l) → l = l0) as Hrun.
  { intros l0. result_step.
    destruct (run_block _ x l0) as [[x1 l1]|] eqn:E1; [|done].
    result_step. intros E2.
    apply (conv_block_lengths _ _ _ _ _ _ _ _ _ _
             (new_block_configured _ _ _ _ _ _ _ _ _ _)) in E1.
    apply (conv_block_lengths _ _ _ _ _ _ _ _ _ _
             (new_block_configured _ _ _ _ _ _ _ _ _ _)) in E2.
    rewrite dilated_padding_lengths in E1. subst l1.
    by rewrite same_padding_lengths in E2. }
  destruct st as [l0|l0 yo ylo], use_dr; simpl.
  - by destruct l0.
  - apply Hrun.
  - apply Hrun.
  - done.
Qed.

End NetworkFacts.

Section NetworkLengths.

Variable new_block : bool → Z → Z → Z → Z → Z → Z → Q → Q → bool → conv_block.
Hypothesis new_block_configured : ∀ dw cin cout k s p d eps r a,
  configured (new_block dw cin cout k s p d eps r a) k s p d.
Context {link : Type}.
Variable conv1d1 : Z → Z → bool → link.
Variable run_link : link → tensor → result tensor.
Variable stack_sum : list tensor → result tensor.
Variable add : tensor → tensor → result tensor.
Variable relu : tensor → tensor.
Variable dropout : Q → tensor → tensor.

Lemma list_first_elem_of {A} (l : list A) (a : A) : list_first l = Ok a → a ∈ l.
Proof. destruct l as [|a' l]; [done|]. intros [= <-]. by left. Qed.

Lemma list_from_end_elem_of {A} (l : list A) (k : nat) (a : A) :
  list_from_end l k = Ok a → a ∈ l.
Proof.
  unfold list_from_end. case_decide; [|done].
  destruct (l !! _) as [a'|] eqn:E; [|done]. intros [= <-].
  by eapply list_elem_of_lookup_2.
Qed.

Lemma inner_configs_odd (channels ksizes : list Z) (rates : list Q) :
  Forall (λ k, k `mod` 2 = 1) ksizes →
  Forall (λ cfg : Z * (Z * Q), cfg.2.1 `mod` 2 = 1)
    (zip (Jasper.inner channels) (zip (Jasper.inner ksizes) (Jasper.inner rates))).
Proof.
  intros Hodd. apply Forall_forall. intros [c [k r]] Hin. simpl.
  apply elem_of_zip_r, elem_of_zip_l in Hin.
  assert (Hi : Forall (λ k, k `mod` 2 = 1) (Jasper.inner ksizes))
    by (unfold Jasper.inner; by apply Forall_drop, Forall_take).
  by apply (proj1 (Forall_forall _ _) Hi).
Qed.

(** The initial block: the stride 2 and the padding [ksize // 2]. *)
Lemma halving_lengths (k : Z) (l : list Z) :
  k `mod` 2 = 1 →
  (λ n, (n + 2 * (k / 2) - 1 * (k - 1) - 1) / 2 + 1) <$> l
  = (λ n, (n + 1) / 2) <$> l.
Proof.
  intros Hk. apply list_fmap_ext. intros _ n _. simpl.
  pose proof (Z.div_mod k 2 ltac:(lia)).
  replace (n + 2 * (k / 2) - 1 * (k - 1) - 1) with (n - 1) by lia.
  replace (n + 1) with (n - 1 + 1 * 2) by lia.
  by rewrite Z.div_add.
Qed.

Lemma features_lengths channels ksizes bn_eps rates repeat use_dw use_dr
    in_channels classes net kind x x_len y y_len :
  Forall (λ k, k `mod` 2 = 1) ksizes →
  Jasper_init new_block conv1d1 channels ksizes bn_eps rates repeat use_dw
    use_dr in_channels classes = Ok net →
  Jasper_features stack_sum add relu dropout net kind x x_len = Ok (y, y_len) →
  y_len = (λ n, (n + 1) / 2) <$> x_len.
Proof.
  intros Hodd. unfold Jasper_init.
  destruct (list_first channels) as [c0|]; [|done]. result_step.
  destruct (list_first ksizes) as [k0|] eqn:Ek0; [|done]. result_step.
  destruct (list_first rates) as [r0|]; [|done]. result_step.
  destruct (Jasper.add_units _ _ _ _ _ _ _ _) as [st|] eqn:Eu; [|done].
  result_step.
  destruct (JasperFinalBlock_init _ _ _ _ _ _ _ _) as [final|] eqn:Ef; [|done].
  result_step.
  destruct (list_from_end channels 1) as [c_last|]; [|done]. result_step.
  intros [= <-]. unfold Jasper_features. simpl.
  destruct (conv_block_call _ kind x x_len) as [[x0 l0]|] eqn:E0; [|done].
  result_step.
  destruct (DualPathSequential_call _ st.2 x0 (Plain l0)) as [[x1 st1]|] eqn:E1;
    [|done].
  result_step. intros E2.
  apply (conv_block_lengths _ _ _ _ _ _ _ _ _ _
           (new_block_configured _ _ _ _ _ _ _ _ _ _)) in E0.
  rewrite halving_lengths in E0.
  2:{ apply list_first_elem_of in Ek0.
      by apply (proj1 (Forall_forall _ _) Hodd). }
  apply run_units_lengths in E1.
  2:{ eapply (add_units_body new_block new_block_configured); [exact Eu| |done].
      by apply inner_configs_odd. }
  apply (final_block_lengths new_block new_block_configured _ _ _ _ _ _ _ _ _ _ _ _ Ef)
    in E2.
  - rewrite E2, E1. simpl. done.
  - intros k Hk. apply list_from_end_elem_of in Hk.
    by apply (proj1 (Forall_forall _ _) Hodd).
Qed.

(** Two halvings of a count rounded up: [ceil(ceil(n / 160) / 2)] is
    [ceil(n / 320)]. *)
Lemma ceiling_320 (n : Z) :
  0 ≤ n → (- (- n / 160) + 1) / 2 = (n + 319) / 320.
Proof.
  intros Hn.
  pose proof (Z.div_mod (- n) 160 ltac:(lia)).
  pose proof (Z.mod_pos_bound (- n) 160 ltac:(lia)).
  generalize dependent (- n / 160). intros q Hq.
  pose proof (Z.div_mod (- q + 1) 2 ltac:(lia)).
  pose proof (Z.mod_pos_bound (- q + 1) 2 ltac:(lia)).
  apply (Z.div_unique_pos _ _ _ (n + 319 - 320 * ((- q + 1) / 2))); lia.
Qed.

Lemma call_audio_lengths {sample : Type} (mel_value : list sample → nat → nat → Z)
    channels ksizes bn_eps rates repeat use_dw use_dr in_channels classes net
    (xs : list (list sample)) y y_len :
  Forall (λ k, k `mod` 2 = 1) ksizes →
  Jasper_init new_block conv1d1 channels ksizes bn_eps rates repeat use_dw
    use_dr in_channels classes = Ok net →
  Jasper_call_audio run_link stack_sum add relu dropout mel_value net xs
  = Ok (y, y_len) →
  y_len = (λ xi, (Z.of_nat (length xi) + 319) / 320) <$> xs.
Proof.
  intros Hodd Hi. unfold Jasper_call_audio.
  assert (Hp : preprocessor net = NemoMelSpecExtractor.default).
  { revert Hi. unfold Jasper_init.
    destruct (list_first channels); [|done]. result_step.
    destruct (list_first ksizes); [|done]. result_step.
    destruct (list_first rates); [|done]. result_step.
    destruct (Jasper.add_units _ _ _ _ _ _ _ _); [|done]. result_step.
    destruct (JasperFinalBlock_init _ _ _ _ _ _ _ _); [|done]. result_step.
    destruct (list_from_end channels 1); [|done]. result_step.
    by intros [= <-]. }
  rewrite Hp.
  destruct (NemoMelSpecExtractor.call mel_value NemoMelSpecExtractor.default xs)
    as [[x0 l0]|] eqn:Ex; [|done].
  result_step.
  pose proof Ex as Ex'.
  apply call_Ok_inv in Ex' as (Hne & Hall & Hex); [|done].
  rewrite call_spec in Ex by done. injection Ex as _ <-.
  unfold Jasper_call.
  destruct (Jasper_features _ _ _ _ net NdArray x0 _) as [[x1 l1]|] eqn:Ef; [|done].
  result_step.
  destruct (run_link (output net) x1) as [x2|]; [|done].
  result_step. intros [= _ <-].
  apply (features_lengths _ _ _ _ _ _ _ _ _ _ _ _ _ _ _ Hodd Hi) in Ef.
  rewrite Ef, <- list_fmap_compose. apply list_fmap_ext. intros _ xi _.
  simpl. apply ceiling_320. lia.
Qed.

End NetworkLengths.

(** X15.  A unit keeps the valid lengths when its kernel size is odd:
    in both modes the lengths that leave the unit are the lengths that
    enter it, whatever the count of blocks in its body. *)
Theorem jasper_unit_keeps_lengths :
  ∀ (new_block : bool → Z → Z → Z → Z → Z → Z → Q → Q → bool → conv_block)
    (stack_sum : list tensor → result tensor)
    (add : tensor → tensor → result tensor) (relu : tensor → tensor)
    (dropout : Q → tensor → tensor)
    (in_channels : channels_arg) (out_channels ksize : Z) (bn_eps rate : Q)
    (repeat : Z) (use_dw use_dr : bool) (u : JasperUnit.t conv_block)
    (x : tensor) (st : threaded tensor (list Z))
    (y : tensor) (st' : threaded tensor (list Z)),
    (∀ dw cin cout k s p d eps r a,
       configured (new_block dw cin cout k s p d eps r a) k s p d) →
    ksize `mod` 2 = 1 →
    JasperUnit.init (mask_conv1d1_block new_block) (block_class new_block)
      in_channels out_channels ksize bn_eps rate repeat use_dw use_dr = Ok u →
    unit_call stack_sum add relu dropout u x st = Ok (y, st') →
    lengths_of st' = lengths_of st.
Proof.
  intros new_block stack_sum add relu dropout in_channels out_channels ksize
    bn_eps rate repeat use_dw use_dr u x st y st' Hcfg Hodd Hi Hc.
  apply (init_body new_block Hcfg) in Hi.
  apply (unit_call_lengths stack_sum add relu dropout u x st y st'); [|done].
  eapply Forall_impl; [exact Hi|]. intros blk Hb. by exists ksize.
Qed.

(** An instance: a unit of two blocks with kernels of size 3, on three
    frames of which two are valid. *)
Lemma jasper_unit_keeps_lengths_witness :
  ∃ u y,
    JasperUnit.init (mask_conv1d1_block Examples.new_block)
      (block_class Examples.new_block) (ChInt 1) 1 3 0 0 2 false false = Ok u ∧
    unit_call Reference.stack_sum Reference.add Reference.relu Reference.dropout
      u Reference.ones_3 (Plain [2]) = Ok (y, Plain [2]) ∧
    lengths_of (Plain [2] : threaded tensor (list Z))
    = lengths_of (Plain [2] : threaded tensor (list Z)).
Proof.
  eexists _, _.
  match goal with |- ?A ∧ ?B ∧ _ =>
    assert (H1 : A) by (vm_compute; reflexivity);
    assert (H2 : B) by (vm_compute; reflexivity)
  end.
  split; [exact H1|]. split; [exact H2|].
  refine (jasper_unit_keeps_lengths Examples.new_block _ _ _ _ (ChInt 1) 1 3 0 0
            2 false false _ _ _ _ _ _ eq_refl H1 H2).
  intros. by repeat split.
Defined.

(** X16.  The final block keeps the valid lengths when its last kernel
    size is odd, whatever the kernel size of its first, dilated,
    convolution: the padding [2 * ksize // 2 - 1] is what the dilation 2
    takes away. *)
Theorem jasper_final_block_keeps_lengths :
  ∀ (new_block : bool → Z → Z → Z → Z → Z → Z → Q → Q → bool → conv_block)
    (in_channels : Z) (channels ksizes : list Z) (bn_eps : Q)
    (dropout_rates : list Q) (use_dw use_dr : bool) (f : final_block_t)
    (x : tensor) (st : threaded tensor (list Z)) (y : tensor) (y_len : list Z),
    (∀ dw cin cout k s p d eps r a,
       configured (new_block dw cin cout k s p d eps r a) k s p d) →
    (∀ k, list_from_end ksizes 1 = Ok k → k `mod` 2 = 1) →
    JasperFinalBlock_init new_block in_channels channels ksizes bn_eps
      dropout_rates use_dw use_dr = Ok f →
    JasperFinalBlock_call f x st = Ok (y, y_len) →
    y_len = lengths_of st.
Proof.
  intros new_block in_channels channels ksizes bn_eps dropout_rates use_dw
    use_dr f x st y y_len Hcfg Hodd Hi Hc.
  by apply (final_block_lengths new_block Hcfg in_channels channels ksizes
              bn_eps dropout_rates use_dw use_dr f x st y y_len).
Qed.

(** An instance: a dilated kernel of the even size 4, then a kernel of
    size 1. *)
Lemma jasper_final_block_keeps_lengths_witness :
  ∃ f y,
    JasperFinalBlock_init Examples.new_block 1 [1; 1] [4; 1] 0 [0; 0]%Q
      false false = Ok f ∧
    JasperFinalBlock_call f Reference.ones_3 (Plain [2]) = Ok (y, [2]) ∧
    [2] = lengths_of (Plain [2] : threaded tensor (list Z)).
Proof.
  eexists _, _.
  match goal with |- ?A ∧ ?B ∧ _ =>
    assert (H1 : A) by (vm_compute; reflexivity);
    assert (H2 : B) by (vm_compute; reflexivity)
  end.
  split; [exact H1|]. split; [exact H2|].
  refine (jasper_final_block_keeps_lengths Examples.new_block 1 [1; 1] [4; 1] 0
            [0; 0]%Q false false _ _ _ _ _ _ _ H1 H2).
  - intros. by repeat split.
  - by intros k [= <-].
Defined.

(** X17.  The feature extractor of a network with odd kernel sizes maps
    every valid length [n] to [(n + 1) // 2]: the initial block, of
    stride 2, halves the lengths, rounding up, and the units and the
    final block keep them. *)
Theorem jasper_features_halve_lengths :
  ∀ (new_block : bool → Z → Z → Z → Z → Z → Z → Q → Q → bool → conv_block)
    (link : Type) (conv1d1 : Z → Z → bool → link)
    (stack_sum : list tensor → result tensor)
    (add : tensor → tensor → result tensor) (relu : tensor → tensor)
    (dropout : Q → tensor → tensor)
    (channels ksizes : list Z) (bn_eps : Q) (dropout_rates : list Q)
    (repeat : Z) (use_dw use_dr : bool) (in_channels classes : Z)
    (net : Jasper_t link) (kind : array_kind) (x : tensor) (x_len : list Z)
    (y : tensor) (y_len : list Z),
    (∀ dw cin cout k s p d eps r a,
       configured (new_block dw cin cout k s p d eps r a) k s p d) →
    Forall (λ k, k `mod` 2 = 1) ksizes →
    Jasper_init new_block conv1d1 channels ksizes bn_eps dropout_rates repeat
      use_dw use_dr in_channels classes = Ok net →
    Jasper_features stack_sum add relu dropout net kind x x_len = Ok (y, y_len) →
    y_len = (λ n, (n + 1) / 2) <$> x_len.
Proof.
  intros new_block link conv1d1 stack_sum add relu dropout channels ksizes
    bn_eps dropout_rates repeat use_dw use_dr in_channels classes net kind x
    x_len y y_len Hcfg Hodd Hi Hf.
  by apply (features_lengths new_block Hcfg conv1d1 stack_sum add relu dropout
              channels ksizes bn_eps dropout_rates repeat use_dw use_dr
              in_channels classes net kind x x_len y y_len).
Qed.

(** An instance: an initial block, one unit in dense mode and the final
    block over one channel, on five frames of which three are valid. *)
Lemma jasper_features_halve_lengths_witness :
  ∃ net y,
    Jasper_init Examples.new_block Examples.conv1d1 [1; 1; 1; 1] [3; 3; 3; 1]
      0 [0; 0; 0; 0]%Q 1 false true 1 29 = Ok net ∧
    Jasper_features Reference.stack_sum Reference.add Reference.relu
      Reference.dropout net NdArray Examples.ones_5 [3] = Ok (y, [2]) ∧
    [2] = (λ n, (n + 1) / 2) <$> [3].
Proof.
  eexists _, _.
  match goal with |- ?A ∧ ?B ∧ _ =>
    assert (H1 : A) by (vm_compute; reflexivity);
    assert (H2 : B) by (vm_compute; reflexivity)
  end.
  split; [exact H1|]. split; [exact H2|].
  refine (jasper_features_halve_lengths Examples.new_block unit Examples.conv1d1
            _ _ _ _ [1; 1; 1; 1] [3; 3; 3; 1] 0 [0; 0; 0; 0]%Q 1 false true 1 29
            _ _ _ _ _ _ _ _ H1 H2).
  - intros. by repeat split.
  - by repeat constructor.
Defined.

(** X18.  From audio to the output, a network with odd kernel sizes
    returns for every waveform of [n] samples the valid length
    [ceil(n / 320)], written [(n + 319) // 320]: the extractor counts the
    hops of 160 samples, and the network halves that count once. *)
Theorem jasper_audio_valid_length :
  ∀ (new_block : bool → Z → Z → Z → Z → Z → Z → Q → Q → bool → conv_block)
    (link : Type) (conv1d1 : Z → Z → bool → link)
    (run_link : link → tensor → result tensor)
    (stack_sum : list tensor → result tensor)
    (add : tensor → tensor → result tensor) (relu : tensor → tensor)
    (dropout : Q → tensor → tensor)
    (sample : Type) (mel_value : list sample → nat → nat → Z)
    (channels ksizes : list Z) (bn_eps : Q) (dropout_rates : list Q)
    (repeat : Z) (use_dw use_dr : bool) (in_channels classes : Z)
    (net : Jasper_t link) (xs : list (list sample))
    (y : tensor) (y_len : list Z),
    (∀ dw cin cout k s p d eps r a,
       configured (new_block dw cin cout k s p d eps r a) k s p d) →
    Forall (λ k, k `mod` 2 = 1) ksizes →
    Jasper_init new_block conv1d1 channels ksizes bn_eps dropout_rates repeat
      use_dw use_dr in_channels classes = Ok net →
    Jasper_call_audio run_link stack_sum add relu dropout mel_value net xs
    = Ok (y, y_len) →
    y_len = (λ xi, (Z.of_nat (length xi) + 319) / 320) <$> xs.
Proof.
  intros new_block link conv1d1 run_link stack_sum add relu dropout sample
    mel_value channels ksizes bn_eps dropout_rates repeat use_dw use_dr
    in_channels classes net xs y y_len Hcfg Hodd Hi Hc.
  by apply (call_audio_lengths new_block Hcfg conv1d1 run_link stack_sum add
              relu dropout mel_value channels ksizes bn_eps dropout_rates repeat
              use_dw use_dr in_channels classes net xs y y_len).
Qed.

(** An instance: a waveform of 320 samples and a network without units
    over the 64 channels of the extractor. *)
Lemma jasper_audio_valid_length_witness :
  ∃ net y,
    Jasper_init Examples.new_block Examples.conv1d1 [1; 1; 1] [3; 3; 1]
      0 [0; 0; 0]%Q 1 false false 64 29 = Ok net ∧
    Jasper_call_audio Examples.run_link Reference.stack_sum Reference.add
      Reference.relu Reference.dropout Reference.mel_value net
      [Reference.waveform_320] = Ok (y, [1]) ∧
    [1] = (λ xi : list Z, (Z.of_nat (length xi) + 319) / 320)
          <$> [Reference.waveform_320].
Proof.
  eexists _, _.
  match goal with |- ?A ∧ ?B ∧ _ =>
    assert (H1 : A) by (vm_compute; reflexivity);
    assert (H2 : B) by (vm_compute; reflexivity)
  end.
  split; [exact H1|]. split; [exact H2|].
  refine (jasper_audio_valid_length Examples.new_block unit Examples.conv1d1
            _ _ _ _ _ Z _ [1; 1; 1] [3; 3; 1] 0 [0; 0; 0]%Q 1 false false 64 29
            _ _ _ _ _ _ H1 H2).
  - intros. by repeat split.
  - by repeat constructor.
Defined.

(** ** The configurations *)

Section ConfigFacts.

Lemma repeat_stages_8 {A} (a0 a1 a2 a3 a4 a5 a6 a7 : A) (m : Z) :
  repeat_stages [a0; a1; a2; a3; a4; a5; a6; a7] (stage_repeat m)
  = [a0] ++ replicate (Z.to_nat m) a1 ++ replicate (Z.to_nat m) a2
    ++ replicate (Z.to_nat m) a3 ++ replicate (Z.to_nat m) a4
    ++ replicate (Z.to_nat m) a5 ++ [a6; a7].
Proof.
  unfold repeat_stages, stage_repeat.
  replace (1 * m) with m by lia. cbn [replicate app zip zip_with mbind list_bind].
  cbn [fst snd]. change (Z.to_nat 1) with 1%nat. by cbn [replicate app].
Qed.

Lemma inner_length {A} (l : list A) :
  length (Jasper.inner l) = (length l - 3)%nat.
Proof. unfold Jasper.inner. rewrite length_drop, length_take. lia. Qed.

Lemma repeat_stages_Forall {A} (P : A → Prop) (per : list A) (reps : list Z) :
  Forall P per → Forall P (repeat_stages per reps).
Proof.
  intros H. unfold repeat_stages. apply Forall_bind, Forall_forall.
  intros [a r] Hin. simpl. apply Forall_replicate.
  apply elem_of_zip_l in Hin. by apply (proj1 (Forall_forall _ _) H).
Qed.

Lemma repeat_stages_8_length {A} (a0 a1 a2 a3 a4 a5 a6 a7 : A) (m : Z) :
  length (repeat_stages [a0; a1; a2; a3; a4; a5; a6; a7] (stage_repeat m))
  = (3 + 5 * Z.to_nat m)%nat.
Proof.
  rewrite repeat_stages_8.
  rewrite !length_app, !length_replicate. simpl. lia.
Qed.

Lemma config_shape model_type blocks repeat cfg :
  get_jasper_config model_type blocks repeat = Ok cfg →
  (model_type = "jasper" ∨ model_type = "quartznet") ∧
  length (cfg_channels cfg) = (3 + 5 * Z.to_nat (blocks / 5))%nat ∧
  length (cfg_ksizes cfg) = (3 + 5 * Z.to_nat (blocks / 5))%nat ∧
  length (cfg_dropout_rates cfg) = (3 + 5 * Z.to_nat (blocks / 5))%nat ∧
  Forall (λ k, k `mod` 2 = 1) (cfg_ksizes cfg) ∧
  cfg_repeat cfg = repeat.
Proof.
  unfold get_jasper_config.
  destruct (decide (model_type = "jasper")) as [->|Hj];
    [|destruct (decide (model_type = "quartznet")) as [->|Hq]; [|done]];
    result_step; intros [= <-];
    cbn [cfg_channels cfg_ksizes cfg_dropout_rates cfg_repeat];
    change (replicate 8 0%Q) with [0; 0; 0; 0; 0; 0; 0; 0]%Q;
    rewrite !repeat_stages_8_length.
  - split; [by left|]. repeat split.
    apply repeat_stages_Forall. by repeat constructor.
  - split; [by right|]. repeat split.
    apply repeat_stages_Forall. by repeat constructor.
Qed.

Lemma add_units_length {layer : Type} (mask_conv1d1_block : Z → Z → Q → layer)
    (block_class : bool → Z → Z → Z → Z → Q → Q → bool → layer)
    bn_eps repeat use_dw use_dr cfgs : ∀ st st',
  Jasper.add_units mask_conv1d1_block block_class bn_eps repeat use_dw use_dr
    st cfgs = Ok st' →
  length st'.2 = (length st.2 + length cfgs)%nat.
Proof.
  induction cfgs as [|[out [ks rate]] rest IH]; intros [[c L] us] st'.
  - intros [= <-]. simpl. lia.
  - cbn [Jasper.add_units]. unfold Jasper.add_unit at 1.
    destruct (JasperUnit.init _ _ _ _ _ _ _ _ _ _) as [u0|]; [|done].
    result_step. intros Hrest. apply IH in Hrest. rewrite Hrest.
    simpl. rewrite length_app. simpl. lia.
Qed.

End ConfigFacts.

(** X19.  The configurations of [get_jasper]: only the model types
    jasper and quartznet give one; with [r] for [blocks // 5], the three
    lists have [3 + 5 * r] entries, which leaves [5 * r] units between the
    initial and the final block, and every kernel size is odd. *)
Theorem get_jasper_configuration :
  ∀ (model_type : string) (blocks repeat : Z) (cfg : jasper_config),
    get_jasper_config model_type blocks repeat = Ok cfg →
    (model_type = "jasper" ∨ model_type = "quartznet") ∧
    length (cfg_channels cfg) = (3 + 5 * Z.to_nat (blocks / 5))%nat ∧
    length (cfg_ksizes cfg) = (3 + 5 * Z.to_nat (blocks / 5))%nat ∧
    length (cfg_dropout_rates cfg) = (3 + 5 * Z.to_nat (blocks / 5))%nat ∧
    length (Jasper.inner (cfg_channels cfg)) = (5 * Z.to_nat (blocks / 5))%nat ∧
    Forall (λ k, k `mod` 2 = 1) (cfg_ksizes cfg) ∧
    cfg_repeat cfg = repeat.
Proof.
  intros model_type blocks repeat cfg H.
  apply config_shape in H as (Ht & Hc & Hk & Hr & Hodd & Hrep).
  repeat split; try done. rewrite inner_length, Hc. lia.
Qed.

(** An instance: the version 10x5 of the model type jasper. *)
Lemma get_jasper_configuration_witness :
  ∃ cfg, get_jasper_config "jasper" 10 5 = Ok cfg ∧
    length (cfg_channels cfg) = 13%nat ∧
    length (Jasper.inner (cfg_channels cfg)) = 10%nat.
Proof.
  destruct (get_jasper_config "jasper" 10 5) as [cfg|] eqn:H;
    [|vm_compute in H; discriminate].
  exists cfg. split; [reflexivity|].
  destruct (get_jasper_configuration "jasper" 10 5 cfg H)
    as (_ & Hc & _ & _ & Hi & _).
  split; [exact Hc|exact Hi].
Defined.

(** X20.  Every network that [get_jasper] builds, of any supported model
    type and version, has [5 * (blocks // 5)] units and maps every valid
    length [n] of its features to [(n + 1) // 2]. *)
Theorem get_jasper_halves_lengths :
  ∀ (new_block : bool → Z → Z → Z → Z → Z → Z → Q → Q → bool → conv_block)
    (link : Type) (conv1d1 : Z → Z → bool → link)
    (stack_sum : list tensor → result tensor)
    (add : tensor → tensor → result tensor) (relu : tensor → tensor)
    (dropout : Q → tensor → tensor)
    (model_type : string) (blocks repeat : Z) (use_dw use_dr : bool)
    (bn_eps : Q) (in_channels classes : Z)
    (net : Jasper_t link) (kind : array_kind) (x : tensor) (x_len : list Z)
    (y : tensor) (y_len : list Z),
    (∀ dw cin cout k s p d eps r a,
       configured (new_block dw cin cout k s p d eps r a) k s p d) →
    get_jasper new_block conv1d1 model_type blocks repeat use_dw use_dr bn_eps
      in_channels classes = Ok net →
    Jasper_features stack_sum add relu dropout net kind x x_len = Ok (y, y_len) →
    length (units net) = (5 * Z.to_nat (blocks / 5))%nat ∧
    y_len = (λ n, (n + 1) / 2) <$> x_len.
Proof.
  intros new_block link conv1d1 stack_sum add relu dropout model_type blocks
    repeat use_dw use_dr bn_eps in_channels classes net kind x x_len y y_len
    Hcfg Hg Hf.
  unfold get_jasper in Hg.
  destruct (get_jasper_config model_type blocks repeat) as [cfg|] eqn:Ec; [|done].
  result_step in Hg.
  apply config_shape in Ec as (_ & Hc & Hk & Hr & Hodd & _).
  split.
  - revert Hg. unfold Jasper_init.
    destruct (list_first (cfg_channels cfg)); [|done]. result_step.
    destruct (list_first (cfg_ksizes cfg)); [|done]. result_step.
    destruct (list_first (cfg_dropout_rates cfg)); [|done]. result_step.
    destruct (Jasper.add_units _ _ _ _ _ _ _ _) as [st|] eqn:Eu; [|done].
    result_step.
    destruct (JasperFinalBlock_init _ _ _ _ _ _ _ _); [|done]. result_step.
    destruct (list_from_end (cfg_channels cfg) 1); [|done]. result_step.
    intros [= <-]. simpl. apply add_units_length in Eu. rewrite Eu. simpl.
    rewrite !length_zip, !inner_length, Hc, Hk, Hr. lia.
  - by apply (features_lengths new_block Hcfg conv1d1 stack_sum add relu dropout
                _ _ _ _ _ _ _ _ _ net kind x x_len y y_len Hodd Hg).
Qed.

(** An instance: the version 5x1 of the model type quartznet, with five
    units, over one channel. *)
Lemma get_jasper_halves_lengths_witness :
  ∃ net y,
    get_jasper Examples.new_block_1 Examples.conv1d1 "quartznet" 5 1 false false
      (1 # 1000) 1 29 = Ok net ∧
    Jasper_features Reference.stack_sum Reference.add Reference.relu
      Reference.dropout net NdArray Examples.ones_5 [3] = Ok (y, [2]) ∧
    length (units net) = 5%nat ∧
    [2] = (λ n, (n + 1) / 2) <$> [3].
Proof.
  eexists _, _.
  match goal with |- ?A ∧ ?B ∧ _ =>
    assert (H1 : A) by (vm_compute; reflexivity);
    assert (H2 : B) by (vm_compute; reflexivity)
  end.
  split; [exact H1|]. split; [exact H2|].
  refine (get_jasper_halves_lengths Examples.new_block_1 unit Examples.conv1d1
            _ _ _ _ "quartznet" 5 1 false false (1 # 1000) 1 29
            _ _ _ _ _ _ _ H1 H2).
  intros. by repeat split.
Defined.

(** ** The configurations of IGCV3 *)

Section Igcv3Facts.

Lemma make_even_even (x : Z) : make_even x `mod` 2 = 0.
Proof.
  unfold make_even. case_decide as H; [done|].
  pose proof (Z.mod_pos_bound x 2 ltac:(lia)).
  pose proof (Z.div_mod x 2 ltac:(lia)).
  replace (x + 1) with (0 + (x / 2 + 1) * 2) by lia.
  by rewrite Z.mod_add.
Qed.

Lemma reduce_layers_spec (ys : list (Z * Z * Z)) : ∀ x : list (list Z),
  x ≠ [] →
  ∃ stages,
    reduce_layers x ys = Ok stages ∧ stages ≠ [] ∧
    concat stages
    = concat x ++ (ys ≫= (λ y, replicate (Z.to_nat y.1.2) y.1.1)) ∧
    length stages
    = (length x + length (filter (λ y : Z * Z * Z, y.2 ≠ 0%Z) ys))%nat.
Proof.
  induction ys as [|[[c n] d] ys IH]; intros x Hx.
  - exists x. simpl. rewrite app_nil_r. repeat split; [done|lia].
  - cbn [reduce_layers]. unfold add_layer.
    destruct (decide (d ≠ 0)) as [Hd|Hd].
    + result_step.
      destruct (IH (x ++ [replicate (Z.to_nat n) c])) as (stages & -> & Hne & Hc & Hl).
      { by destruct x. }
      exists stages. repeat split; [done|..].
      * rewrite Hc, concat_app. simpl. by rewrite app_nil_r, <- app_assoc.
      * rewrite Hl, length_app, filter_cons_True by done. simpl. lia.
    + destruct (last x) as [stage|] eqn:El.
      2:{ apply last_None in El. done. }
      apply last_Some in El as [x' ->]. rewrite removelast_last.
      result_step.
      destruct (IH (x' ++ [stage ++ replicate (Z.to_nat n) c]))
        as (stages & -> & Hne & Hc & Hl).
      { by destruct x'. }
      exists stages. repeat split; [done|..].
      * rewrite Hc, !concat_app. simpl. by rewrite !app_nil_r, <- !app_assoc.
      * rewrite Hl, !length_app, filter_cons_False by done. simpl. lia.
Qed.

Lemma igcv3_stage_even (outs : list Z) : ∀ i j c,
  c `mod` 2 = 0 → Forall (λ o, o `mod` 2 = 0) outs →
  Forall (λ u, InvResUnit.in_channels u `mod` 2 = 0 ∧
               InvResUnit.mid_channels u `mod` 2 = 0 ∧
               InvResUnit.out_channels u `mod` 2 = 0 ∧
               InvResUnit.groups u = 2)
    (igcv3_stage i j c outs).1 ∧
  (igcv3_stage i j c outs).2 `mod` 2 = 0.
Proof.
  induction outs as [|o outs IH]; intros i j c Hc Houts; simpl; [done|].
  apply Forall_cons in Houts as [Ho Houts].
  destruct (IH i (S j) o Ho Houts) as [IH1 IH2].
  destruct (igcv3_stage i (S j) o outs) as [us c']. simpl in *.
  split; [|done]. apply Forall_cons. split; [|done].
  simpl. repeat split; try done.
  destruct (bool_decide _); [|done].
  replace (c * 6) with (c * 3 * 2) by lia. by rewrite Z.mod_mul.
Qed.

Lemma igcv3_stages_even (channels : list (list Z)) : ∀ i c,
  c `mod` 2 = 0 → Forall (Forall (λ o, o `mod` 2 = 0)) channels →
  Forall (Forall (λ u, InvResUnit.in_channels u `mod` 2 = 0 ∧
                       InvResUnit.mid_channels u `mod` 2 = 0 ∧
                       InvResUnit.out_channels u `mod` 2 = 0 ∧
                       InvResUnit.groups u = 2))
    (igcv3_stages i c channels).
Proof.
  induction channels as [|outs channels IH]; intros i c Hc Hall; simpl; [done|].
  apply Forall_cons in Hall as [Houts Hall].
  destruct (igcv3_stage_even outs i 0 c Hc Houts) as [H1 H2].
  destruct (igcv3_stage i 0 c outs) as [us c']. simpl in *.
  apply Forall_cons. split; [done|]. by apply IH.
Qed.

End Igcv3Facts.

Lemma reduce_layers_stages (ys : list (Z * Z * Z)) :
  ∀ (x : list (list Z)) (stage : list Z),
    reduce_layers (x ++ [stage]) ys
    = Ok (x ++ (stage ++ open_stage ys) :: later_stages ys).
Proof.
  induction ys as [|[[c n] d] ys IH]; intros x stage.
  - simpl. by rewrite app_nil_r.
  - cbn [reduce_layers open_stage later_stages]. unfold add_layer.
    destruct (decide (d ≠ 0)) as [Hd|Hd].
    + result_step. rewrite IH, <- app_assoc. simpl. by rewrite app_nil_r.
    + rewrite last_snoc, removelast_last. result_step.
      by rewrite IH, <- app_assoc.
Qed.

(** X21.  The grouping of the layers into stages never fails and gives
    the stage that is open at the start, which holds the channels of the
    layers before the first one that downsamples (none when the first
    layer downsamples: the stage stays empty), followed by one stage for
    every layer that downsamples, which holds the channels of that layer
    and of the layers up to the next one that downsamples.  Every layer
    gives its channel count as many times as it has units, the order of
    the layers is kept, and there is one stage more than there are layers
    that downsample. *)
Theorem stage_channels_grouping :
  ∀ (channels_per_layers layers downsample : list Z),
    ∃ stages,
      stage_channels channels_per_layers layers downsample = Ok stages ∧
      stages
      = open_stage (zip (zip channels_per_layers layers) downsample)
        :: later_stages (zip (zip channels_per_layers layers) downsample) ∧
      concat stages
      = zip (zip channels_per_layers layers) downsample
        ≫= (λ y, replicate (Z.to_nat y.1.2) y.1.1) ∧
      length stages
      = S (length (filter (λ y, y.2 ≠ 0)
                     (zip (zip channels_per_layers layers) downsample))).
Proof.
  intros per layers flags. unfold stage_channels.
  destruct (reduce_layers_spec (zip (zip per layers) flags) [[]])
    as (stages & H & _ & Hc & Hl); [done|].
  exists stages. repeat split; try done.
  pose proof (reduce_layers_stages (zip (zip per layers) flags) [] []) as H'.
  simpl in H'. rewrite H in H'. by injection H' as ->.
Qed.

(** Two layers that both downsample: the stage the fold starts with stays
    empty. *)
Lemma stage_channels_first_layer_downsamples :
  stage_channels [16; 24] [1; 2] [1; 1] = Ok [[]; [16]; [24; 24]].
Proof. reflexivity. Qed.

(** The layers of [get_mobilenetv2]: the first layer does not downsample
    and fills the first stage. *)
Lemma stage_channels_get_mobilenetv2 :
  length <$> later_stages
    (zip (zip [16; 24; 32; 64; 96; 160; 320] [1; 4; 6; 8; 6; 6; 1])
       [0; 1; 1; 1; 0; 1; 0])
  = [4; 6; 14; 7]%nat ∧
  open_stage
    (zip (zip [16; 24; 32; 64; 96; 160; 320] [1; 4; 6; 8; 6; 6; 1])
       [0; 1; 1; 1; 0; 1; 0])
  = [16].
Proof. by vm_compute. Qed.

(** X22.  For every width scale, [get_mobilenetv2] gives five stages of
    1, 4, 6, 14 and 7 units, and every unit that [IGCV3] builds from them
    has even counts of input, middle and output channels for its two
    groups; the final block keeps 1280 channels unless the scale exceeds
    one. *)
Theorem get_mobilenetv2_channels_even :
  ∀ (int_mul : Z → Q → Z) (width_scale : Q),
    ∃ cfg,
      get_mobilenetv2_config int_mul width_scale = Ok cfg ∧
      length <$> igcv3_channels cfg = [1; 4; 6; 14; 7]%nat ∧
      Forall (Forall (λ u, InvResUnit.in_channels u `mod` 2 = 0 ∧
                           InvResUnit.mid_channels u `mod` 2 = 0 ∧
                           InvResUnit.out_channels u `mod` 2 = 0 ∧
                           InvResUnit.groups u = 2))
        (igcv3_stages 0 (igcv3_init_block_channels cfg) (igcv3_channels cfg)) ∧
      (Qle_bool width_scale 1 = true → igcv3_final_block_channels cfg = 1280).
Proof.
  intros int_mul w. unfold get_mobilenetv2_config.
  assert (Hs : stage_channels [16; 24; 32; 64; 96; 160; 320]
                 [1; 4; 6; 8; 6; 6; 1] [0; 1; 1; 1; 0; 1; 0]
               = Ok [[16]; replicate 4 24; replicate 6 32;
                     replicate 8 64 ++ replicate 6 96;
                     replicate 6 160 ++ [320]])
    by (vm_compute; reflexivity).
  rewrite Hs. result_step.
  destruct (negb (Qeq_bool w 1)); eexists; (split; [reflexivity|]);
    cbn [igcv3_channels igcv3_init_block_channels igcv3_final_block_channels].
  - split; [done|]. split.
    + apply igcv3_stages_even; [apply make_even_even|].
      apply Forall_fmap, Forall_forall. intros ci _. simpl.
      apply Forall_fmap, Forall_forall. intros cij _. apply make_even_even.
    + by intros ->.
  - split; [done|]. split; [|done].
    apply igcv3_stages_even; [done|]. by repeat constructor.
Qed.

(** ** The masked convolution and the store: repeated calls *)

Section RepeatedCallFacts.

Import MaskConv1d MaskConv1dCall.

Lemma tensor_at_insert_fresh (s : store) (l : nat) (o : object) kx :
  tensor_at s l = Some kx → tensor_at (<[fresh (dom s) := o]> s) l = Some kx.
Proof.
  intros H. rewrite tensor_at_insert_ne; [done|].
  apply fresh_ne. by eapply tensor_at_Some.
Qed.

Lemma forward_masked_again self xv xm lens :
  use_mask self = true →
  apply_mask NdArray xv lens = Ok xm →
  forward self NdArray xm lens = forward self NdArray xv lens.
Proof.
  intros Hm Ha. unfold forward, masked_input. rewrite Hm, Ha.
  simpl in *. by rewrite (imul_mask_idem xv lens xm Ha).
Qed.

(** What a call returns and what it leaves in the store, for an input
    tensor and a length vector that are there. *)
Lemma call_values self (x x_len : nat) (s s' : store) kind xv lens r :
  tensor_at s x = Some (kind, xv) →
  s !! x_len = Some (OLengths lens) →
  call self x x_len s = (r, s') →
  returned_values r s' = forward self kind xv lens ∧
  s' !! x_len = Some (OLengths lens) ∧
  tensor_at s' x
  = Some (kind, match kind with
                | NdArray =>
                    match masked_input self NdArray xv lens with
                    | Ok xm => xm
                    | Err _ => xv
                    end
                | FVariable => xv
                end).
Proof.
  intros Ex El Hcall.
  assert (Hne : x_len ≠ x).
  { intros ->. unfold tensor_at in Ex. by rewrite El in Ex. }
  set (post := match kind with
               | NdArray =>
                   match masked_input self NdArray xv lens with
                   | Ok xm => xm
                   | Err _ => xv
                   end
               | FVariable => xv
               end).
  destruct (use_mask self) eqn:Em.
  - rewrite call_masked_spec in Hcall by done. rewrite El, Ex in Hcall.
    unfold forward. unfold masked_input at 1. unfold new_len. rewrite Em.
    destruct (apply_mask kind xv lens) as [xm|e] eqn:Ea; last first.
    { assert (Hpost : post = xv).
      { unfold post, masked_input. rewrite Em. destruct kind; [|done].
        by rewrite Ea. }
      rewrite Hpost. by injection Hcall as <- <-. }
    assert (Hpost : post = match kind with NdArray => xm | FVariable => xv end).
    { unfold post, masked_input. rewrite Em. destruct kind; [|done].
      by rewrite Ea. }
    rewrite Hpost. clear Hpost post.
    cbn zeta in Hcall. result_step.
    set (s1 := match kind with
               | NdArray => <[x := ONdArray xm]> s
               | FVariable => <[fresh (dom s) := OVariable xm]> s
               end) in *.
    set (l2 := fresh (dom s1)) in *.
    set (s2 := <[l2 := OLengths (out_len self <$> lens)]> s1) in *.
    assert (Hl1 : s1 !! x_len = Some (OLengths lens)).
    { unfold s1. destruct kind.
      - by rewrite lookup_insert_ne.
      - rewrite insert_fresh_lookup; [done|by eexists]. }
    assert (Hl2 : s2 !! x_len = Some (OLengths lens)).
    { unfold s2, l2. rewrite insert_fresh_lookup; [done|by eexists]. }
    assert (Hx1 : tensor_at s1 x
              = Some (kind, match kind with NdArray => xm | FVariable => xv end)).
    { unfold s1. destruct kind.
      - unfold tensor_at. by rewrite lookup_insert_eq.
      - by apply tensor_at_insert_fresh. }
    assert (Hx2 : tensor_at s2 x
              = Some (kind, match kind with NdArray => xm | FVariable => xv end))
      by (by apply tensor_at_insert_fresh).
    destruct (convolution_1d xm _ _ _ _ _ _) as [y|e] eqn:Ec.
    + injection Hcall as <- <-. result_step. repeat split.
      * apply returned_values_fresh. unfold s2. by rewrite lookup_insert_eq.
      * rewrite insert_fresh_lookup; [done|by eexists].
      * by apply tensor_at_insert_fresh.
    + by injection Hcall as <- <-.
  - rewrite call_unmasked_spec in Hcall by done. rewrite Ex in Hcall.
    assert (Hpost : post = xv).
    { unfold post, masked_input. rewrite Em. by destruct kind. }
    rewrite Hpost. clear Hpost post.
    unfold forward, masked_input, new_len. rewrite Em. result_step.
    destruct (convolution_1d xv _ _ _ _ _ _) as [y|e] eqn:Ec.
    + injection Hcall as <- <-. result_step. repeat split.
      * by apply returned_values_fresh.
      * rewrite insert_fresh_lookup; [done|by eexists].
      * by apply tensor_at_insert_fresh.
    + by injection Hcall as <- <-.
Qed.

(** The tensor a call leaves behind is masked to itself. *)
Lemma masked_input_again self kind xv lens :
  masked_input self kind
    match kind with
    | NdArray =>
        match masked_input self NdArray xv lens with
        | Ok xm => xm
        | Err _ => xv
        end
    | FVariable => xv
    end lens
  = masked_input self kind xv lens.
Proof.
  destruct kind; [|done].
  destruct (masked_input self NdArray xv lens) as [xm|e] eqn:E; [|done].
  unfold masked_input in *. destruct (use_mask self); [|done].
  simpl in *. by rewrite (imul_mask_idem xv lens xm E).
Qed.

End RepeatedCallFacts.

(** X23.  A second call on the same references returns what the first
    returned and changes the input no further: the array that the first
    call overwrote with its masked version is masked to itself by the
    second, so that both calls convolve the same tensor. *)
Theorem mask_conv_repeated_call :
  ∀ (self : MaskConv1d.t) (x x_len : nat) (s s1 s2 : store)
    (kind : array_kind) (xv : tensor) (lens : list Z)
    (r1 r2 : result (nat * nat)),
    tensor_at s x = Some (kind, xv) →
    s !! x_len = Some (OLengths lens) →
    MaskConv1dCall.call self x x_len s = (r1, s1) →
    MaskConv1dCall.call self x x_len s1 = (r2, s2) →
    MaskConv1dCall.returned_values r2 s2 = MaskConv1dCall.returned_values r1 s1 ∧
    tensor_at s2 x = tensor_at s1 x.
Proof.
  intros self x x_len s s1 s2 kind xv lens r1 r2 Ex El H1 H2.
  destruct (call_values self x x_len s s1 kind xv lens r1 Ex El H1)
    as (Hr1 & El1 & Ex1).
  destruct (call_values self x x_len s1 s2 kind _ lens r2 Ex1 El1 H2)
    as (Hr2 & _ & Ex2).
  pose proof (masked_input_again self kind xv lens) as Hm.
  split.
  - rewrite Hr1, Hr2. unfold MaskConv1d.forward. by rewrite Hm.
  - rewrite Ex1, Ex2. destruct kind; [|done]. rewrite Hm.
    by destruct (MaskConv1d.masked_input self NdArray xv lens).
Qed.

(** An instance: two calls on the array of three ones with the valid
    length 2; both return [2; 2; 1] and the lengths [2]. *)
Lemma mask_conv_repeated_call_witness :
  MaskConv1dCall.returned_values
    (MaskConv1dCall.call Reference.conv3 0 1
       (MaskConv1dCall.call Reference.conv3 0 1 Reference.store_3).2).1
    (MaskConv1dCall.call Reference.conv3 0 1
       (MaskConv1dCall.call Reference.conv3 0 1 Reference.store_3).2).2
  = MaskConv1dCall.returned_values
      (MaskConv1dCall.call Reference.conv3 0 1 Reference.store_3).1
      (MaskConv1dCall.call Reference.conv3 0 1 Reference.store_3).2 ∧
  MaskConv1dCall.returned_values
    (MaskConv1dCall.call Reference.conv3 0 1 Reference.store_3).1
    (MaskConv1dCall.call Reference.conv3 0 1 Reference.store_3).2
  = Ok (Reference.conv_3, [2]).
Proof.
  assert (Hx : tensor_at Reference.store_3 0 = Some (NdArray, Reference.ones_3))
    by (vm_compute; reflexivity).
  assert (Hl : Reference.store_3 !! 1%nat = Some (OLengths [2]))
    by (vm_compute; reflexivity).
  split; [|vm_compute; reflexivity].
  exact (proj1 (mask_conv_repeated_call Reference.conv3 0 1 Reference.store_3
                  _ _ NdArray Reference.ones_3 [2] _ _ Hx Hl
                  (surjective_pairing _) (surjective_pairing _))).
Defined.

(** ** The masked convolution on float32 entries and int64 lengths *)

Section FloatFacts.

Import FMaskConv1d.

Lemma fget_fmk_tensor B C T f i c t :
  fget (fmk_tensor B C T f) i c t
  = if decide ((i < B)%nat ∧ (c < C)%nat ∧ (t < T)%nat) then f i c t
    else Finite 0.
Proof.
  unfold fget, fmk_tensor; simpl. rewrite lookup_tabulate.
  destruct (decide (i < B)%nat); simpl; [|by rewrite decide_False by lia].
  rewrite lookup_tabulate.
  destruct (decide (c < C)%nat); simpl; [|by rewrite decide_False by lia].
  rewrite lookup_tabulate.
  destruct (decide (t < T)%nat); simpl.
  - by rewrite decide_True by lia.
  - by rewrite decide_False by lia.
Qed.

Lemma fget_fmk_tensor_in B C T f i c t :
  (i < B)%nat → (c < C)%nat → (t < T)%nat →
  fget (fmk_tensor B C T f) i c t = f i c t.
Proof. intros. rewrite fget_fmk_tensor. by rewrite decide_True by lia. Qed.

Lemma fmk_tensor_ext B C T f g :
  (∀ i c t, (i < B)%nat → (c < C)%nat → (t < T)%nat → f i c t = g i c t) →
  fmk_tensor B C T f = fmk_tensor B C T g.
Proof.
  intros H. unfold fmk_tensor. f_equal.
  apply tabulate_ext; intros i Hi.
  apply tabulate_ext; intros c Hc.
  apply tabulate_ext; intros t Ht. by apply H.
Qed.

Lemma fmul_one (a : fval) : fmul a (Finite (Z.b2z true)) = a.
Proof. destruct a as [v|]; simpl; [|done]. f_equal. lia. Qed.

Lemma fmul_zero_finite (a : fval) :
  is_finite a → fmul a (Finite (Z.b2z false)) = Finite 0.
Proof. intros [v ->]. simpl. f_equal. lia. Qed.

Lemma fsum_upto_zero (n : nat) (f : nat → fval) :
  (∀ i, (i < n)%nat → f i = Finite 0) → fsum_upto n f = Finite 0.
Proof.
  intros H. unfold fsum_upto.
  assert (Hl : ∀ l, Forall (λ i, (i < n)%nat) l →
                 foldr (λ i acc, fadd (f i) acc) (Finite 0) l = Finite 0).
  { induction 1 as [|i l Hi _ IH]; simpl; [done|]. by rewrite H, IH. }
  apply Hl, Forall_forall. intros i Hi. apply elem_of_seq in Hi. lia.
Qed.

(** The entries of a masked array. *)
Lemma apply_mask_entries kind x x_len xm :
  apply_mask kind x x_len = Ok xm →
  ∃ B, broadcast_dim (fdim0 x) (length x_len) = Ok B ∧
    xm = fmk_tensor B (fdim1 x) (fdim2 x) (λ i c t,
           fmul (fget x (bidx (fdim0 x) i) c t)
             (Finite (Z.b2z (MaskConv1d.mask_at x_len i t)))).
Proof.
  destruct kind; simpl; unfold imul_mask, mul_mask;
    destruct (broadcast_dim (fdim0 x) (length x_len)) as [B|] eqn:EB; try done;
    result_step.
  - case_decide as HB; [|done]. subst B. intros [= <-].
    exists (fdim0 x). split; [done|].
    apply fmk_tensor_ext. intros i c t Hi _ _. do 2 f_equal.
    unfold bidx. case_decide; lia.
  - intros [= <-]. by exists B.
Qed.

Lemma apply_mask_length_index kind x x_len xm i len :
  apply_mask kind x x_len = Ok xm →
  length x_len = fdim0 x →
  x_len !! i = Some len →
  (i < fdim0 xm)%nat ∧ bidx (fdim0 x) i = i.
Proof.
  intros Hm Hlen Hi. pose proof (lookup_lt_Some _ _ _ Hi) as Hlt.
  apply apply_mask_entries in Hm as (B & HB & ->).
  rewrite Hlen, broadcast_dim_same in HB. injection HB as <-.
  split; [unfold fdim0 at 1; simpl; lia|].
  unfold bidx. case_decide; lia.
Qed.

Lemma apply_mask_zero_finite kind x x_len xm i len c t :
  apply_mask kind x x_len = Ok xm →
  x_len !! i = Some len →
  len ≤ Z.of_nat t →
  is_finite (fget x (bidx (fdim0 x) i) c t) →
  fget xm i c t = Finite 0.
Proof.
  intros Hm Hi Ht Hfin.
  apply apply_mask_entries in Hm as (B & _ & ->).
  rewrite fget_fmk_tensor. case_decide; [|done].
  rewrite (mask_at_lookup x_len i len t Hi).
  rewrite bool_decide_false by lia. by apply fmul_zero_finite.
Qed.

Lemma apply_mask_nan kind x x_len xm i c t :
  apply_mask kind x x_len = Ok xm →
  (i < fdim0 xm)%nat → (c < fdim1 xm)%nat → (t < fdim2 xm)%nat →
  fget x (bidx (fdim0 x) i) c t = NonFinite →
  fget xm i c t = NonFinite.
Proof.
  intros Hm Hi Hc Ht Hnf.
  apply apply_mask_entries in Hm as (B & _ & ->).
  rewrite fget_fmk_tensor_in by done. by rewrite Hnf.
Qed.

Lemma apply_mask_keep_entry kind x x_len xm i len c t :
  apply_mask kind x x_len = Ok xm →
  x_len !! i = Some len →
  (i < fdim0 x)%nat → (c < fdim1 x)%nat → (t < fdim2 x)%nat →
  Z.of_nat t < len →
  fget xm i c t = fget x i c t.
Proof.
  intros Hm Hi Hi0 Hc Ht Hlt.
  pose proof (lookup_lt_Some _ _ _ Hi) as HiN.
  apply apply_mask_entries in Hm as (B & HB & ->).
  apply broadcast_dim_Ok in HB.
  rewrite fget_fmk_tensor_in by lia.
  rewrite (mask_at_lookup x_len i len t Hi).
  rewrite bool_decide_true by lia. rewrite fmul_one.
  f_equal. unfold bidx. case_decide; lia.
Qed.

Lemma forward_Ok_inv_float self kind x x_len y y_len :
  forward self kind x x_len = Ok (y, y_len) →
  ∃ xm, masked_input self kind x x_len = Ok xm ∧
    fconvolution_1d xm (W self) (b self) (stride self) (pad self) (dilate self)
      (groups self) = Ok y ∧
    y_len = new_len self x_len ∧ 0 < stride self ∧ 0 < dilate self.
Proof.
  unfold forward. destruct (masked_input self kind x x_len) as [xm|]; [|done].
  result_step.
  destruct (fconvolution_1d xm _ _ _ _ _ _) as [y'|] eqn:Ec; [|done].
  result_step. intros [= <- <-]. exists xm.
  repeat split; try done;
    unfold fconvolution_1d in Ec; (case_decide; [tauto|done]).
Qed.

(** Where nothing wraps, the arithmetic of 64 bits gives the formula. *)
Lemma wrapped_formula (k s p d len : Z) :
  0 < s → no_wrap k s p d len →
  MaskConv1d.wrap64
    (MaskConv1d.wrap64
       (MaskConv1d.wrap64
          (MaskConv1d.wrap64 (MaskConv1d.wrap64 (len + 2 * p) - d * (k - 1)) - 1)
        / s) + 1)
  = (len + 2 * p - d * (k - 1) - 1) / s + 1.
Proof.
  intros Hs (Hl & Hp & Hd & Hs' & H1 & H2 & H3 & H4). unfold in_int64 in *.
  rewrite (wrap64_small (len + 2 * p)) by done.
  rewrite (wrap64_small (len + 2 * p - d * (k - 1))) by done.
  rewrite (wrap64_small (len + 2 * p - d * (k - 1) - 1)) by done.
  set (a := len + 2 * p - d * (k - 1) - 1) in *.
  assert (- 2 ^ 63 ≤ a / s < 2 ^ 63).
  { split.
    - apply Z.div_le_lower_bound; [done|]. nia.
    - apply Z.div_lt_upper_bound; [done|]. nia. }
  rewrite (wrap64_small (a / s)) by done.
  by apply wrap64_small.
Qed.

Lemma new_len_no_wrap self (x_len : list Z) :
  use_mask self = true → 0 < stride self →
  Forall (no_wrap (ksize self) (stride self) (pad self) (dilate self)) x_len →
  new_len self x_len
  = (λ len, (len + 2 * pad self - dilate self * (ksize self - 1) - 1)
            / stride self + 1) <$> x_len.
Proof.
  intros Hm Hs Hall. unfold new_len. rewrite Hm.
  apply Forall_fmap_ext_1. eapply Forall_impl; [exact Hall|].
  intros len Hn. unfold out_len. by apply wrapped_formula.
Qed.

End FloatFacts.

Section FloatConvolutionFacts.

Import FMaskConv1d.

Lemma apply_mask_agree_float kind (x x' : ftensor) (x_len : list Z) :
  fshape x = fshape x' →
  length x_len = fdim0 x →
  (∀ i n c t, x_len !! i = Some n → Z.of_nat t < n →
     fget x i c t = fget x' i c t) →
  (∀ i n c t, x_len !! i = Some n → n ≤ Z.of_nat t →
     is_finite (fget x i c t) ∧ is_finite (fget x' i c t)) →
  apply_mask kind x x_len = apply_mask kind x' x_len.
Proof.
  intros Hs Hlen Hagree Hfin.
  assert (Hd : fdim0 x' = fdim0 x ∧ fdim1 x' = fdim1 x ∧ fdim2 x' = fdim2 x).
  { unfold fdim0, fdim1, fdim2. by rewrite Hs. }
  destruct Hd as (Hd0 & Hd1 & Hd2).
  assert (Hval : ∀ i c t, (i < fdim0 x)%nat →
            fmul (fget x i c t) (Finite (Z.b2z (MaskConv1d.mask_at x_len i t)))
            = fmul (fget x' i c t) (Finite (Z.b2z (MaskConv1d.mask_at x_len i t)))).
  { intros i c t Hi.
    destruct (x_len !! i) as [n|] eqn:En; last first.
    { apply lookup_ge_None in En. lia. }
    rewrite (mask_at_lookup x_len i n t En).
    destruct (decide (Z.of_nat t < n)).
    - rewrite bool_decide_true by done. by rewrite (Hagree i n c t En).
    - rewrite bool_decide_false by done.
      destruct (Hfin i n c t En ltac:(lia)) as [H1 H2].
      by rewrite !fmul_zero_finite. }
  destruct kind; simpl; unfold imul_mask, mul_mask;
    rewrite Hd0, Hd1, Hd2, Hlen, broadcast_dim_same; result_step.
  - rewrite !decide_True by done. f_equal.
    apply fmk_tensor_ext. intros i c t Hi _ _. by apply Hval.
  - f_equal. apply fmk_tensor_ext. intros i c t Hi _ _.
    assert (bidx (fdim0 x) i = i) as ->; [|by apply Hval].
    unfold bidx. case_decide; lia.
Qed.

Lemma fget_padded_zero (xm : ftensor) (i c : nat) (t : Z) :
  (∀ t', t ≤ Z.of_nat t' → fget xm i c t' = Finite 0) →
  fget_padded xm i c t = Finite 0.
Proof.
  intros H. unfold fget_padded. case_decide; [|done]. apply H. lia.
Qed.

Lemma forward_zero_after_float self kind x x_len y y_len i n o t :
  use_mask self = true → b self = None →
  (∀ o c j, is_finite (fget (W self) o c j)) →
  length x_len = fdim0 x →
  forward self kind x x_len = Ok (y, y_len) →
  x_len !! i = Some n →
  (∀ c t', n ≤ Z.of_nat t' → is_finite (fget x i c t')) →
  n ≤ Z.of_nat t * stride self - pad self →
  fget y i o t = Finite 0.
Proof.
  intros Hm Hb HW Hlen H Hi Hfin Ht.
  apply forward_Ok_inv_float in H as (xm & Hxm & Hc & _ & Hs & Hd).
  unfold masked_input in Hxm. rewrite Hm in Hxm.
  destruct (apply_mask_length_index kind x x_len xm i n Hxm Hlen Hi) as [_ Hb'].
  unfold fconvolution_1d in Hc. case_decide as Hok; [|done].
  injection Hc as <-. rewrite fget_fmk_tensor. case_decide; [|done].
  rewrite Hb. simpl.
  rewrite fsum_upto_zero; [done|]. intros c _.
  apply fsum_upto_zero. intros j _.
  rewrite fget_padded_zero.
  - destruct (HW o c j) as [w ->]. simpl. f_equal. lia.
  - intros t' Ht'.
    apply (apply_mask_zero_finite kind x x_len xm i n); [done..| |].
    + nia.
    + rewrite Hb'. apply Hfin. nia.
Qed.

End FloatConvolutionFacts.

(** C2, as the code has it.  Whenever the masked convolution returns, the
    lengths it returns are, with masking enabled, the input lengths
    mapped through [(len + 2*pad - dilation*(kernel-1) - 1) // stride + 1]
    for the lengths for which no step of that computation leaves the
    64-bit integers, where the quotient is the floor of the exact one;
    with masking disabled they are the input lengths. *)
Theorem mask_conv_valid_length :
  ∀ (self : FMaskConv1d.t) (kind : array_kind) (x : ftensor) (x_len : list Z)
    (y : ftensor) (y_len : list Z),
    FMaskConv1d.forward self kind x x_len = Ok (y, y_len) →
    (FMaskConv1d.use_mask self = true →
     Forall (no_wrap (FMaskConv1d.ksize self) (FMaskConv1d.stride self)
               (FMaskConv1d.pad self) (FMaskConv1d.dilate self)) x_len →
       y_len = (λ len, (len + 2 * FMaskConv1d.pad self
                        - FMaskConv1d.dilate self * (FMaskConv1d.ksize self - 1) - 1)
                       / FMaskConv1d.stride self + 1) <$> x_len ∧
       Forall2 (λ len n,
                  FMaskConv1d.stride self * (n - 1)
                  ≤ len + 2 * FMaskConv1d.pad self
                    - FMaskConv1d.dilate self * (FMaskConv1d.ksize self - 1) - 1
                  < FMaskConv1d.stride self * n) x_len y_len) ∧
    (FMaskConv1d.use_mask self = false → y_len = x_len).
Proof.
  intros self kind x x_len y y_len H.
  apply forward_Ok_inv_float in H as (xm & _ & _ & -> & Hs & _).
  split.
  - intros Hm Hall. rewrite new_len_no_wrap by done. split; [done|].
    apply Forall2_fmap_r, Forall_Forall2_diag, Forall_forall. intros len _.
    unfold compose.
    set (a := len + 2 * FMaskConv1d.pad self
              - FMaskConv1d.dilate self * (FMaskConv1d.ksize self - 1) - 1).
    pose proof (Z.div_mod a (FMaskConv1d.stride self) ltac:(lia)).
    pose proof (Z.mod_pos_bound a (FMaskConv1d.stride self) Hs). nia.
  - intros Hm. unfold FMaskConv1d.new_len. by rewrite Hm.
Qed.

(** An instance: kernel 1 and stride 2 take the length 3 to 2. *)
Lemma mask_conv_valid_length_witness :
  ∃ y,
    FMaskConv1d.forward Examples.fpointwise2 NdArray
      (finite_tensor Examples.ones_5) [3] = Ok (y, [2]) ∧
    [2] = (λ len, (len + 2 * 0 - 1 * (1 - 1) - 1) / 2 + 1) <$> [3].
Proof.
  eexists.
  match goal with |- ?A ∧ _ =>
    assert (H : A) by (vm_compute; reflexivity)
  end.
  split; [exact H|].
  refine (proj1 (proj1 (mask_conv_valid_length Examples.fpointwise2 NdArray
                          (finite_tensor Examples.ones_5) [3] _ [2] H)
                   eq_refl _)).
  constructor; [|constructor].
  unfold no_wrap, in_int64. vm_compute. intuition discriminate.
Defined.

(** C2, as stated, fails: the length [2^63 - 1] is not negative, and with
    the kernel size 1, the stride 1 and the padding 1 the convolution
    returns for it [-(2^63 - 1)], where the formula gives [2^63 + 1]: the
    sum [x_len + 2 * pad] wraps around. *)
Lemma mask_conv_length_wraps :
  0 ≤ 2 ^ 63 - 1 ∧
  FMaskConv1d.use_mask Examples.fpointwise_pad1 = true ∧
  (∃ y, FMaskConv1d.forward Examples.fpointwise_pad1 NdArray
          (finite_tensor Reference.ones_3) [2 ^ 63 - 1]
        = Ok (y, [- (2 ^ 63 - 1)])) ∧
  (2 ^ 63 - 1 + 2 * 1 - 1 * (1 - 1) - 1) / 1 + 1 = 2 ^ 63 + 1 ∧
  - (2 ^ 63 - 1) ≠ 2 ^ 63 + 1.
Proof.
  split; [vm_compute; discriminate|]. split; [reflexivity|].
  split; [eexists; vm_compute; reflexivity|].
  split; [vm_compute; reflexivity|]. vm_compute. discriminate.
Qed.

(** C3, as the code has it.  A convolution with masking enabled convolves
    its input times the mask: an entry from the item's valid length on is
    zero where the input is finite there and is not finite, a NaN, where
    the input is not; the positions below the valid length are unchanged.
    The mask is applied to the input of the operation, before the
    convolution. *)
Theorem mask_conv_input_zero_from_valid_length :
  ∀ (self : FMaskConv1d.t) (kind : array_kind) (x : ftensor) (x_len : list Z)
    (y : ftensor) (y_len : list Z),
    FMaskConv1d.use_mask self = true →
    FMaskConv1d.forward self kind x x_len = Ok (y, y_len) →
    ∃ xm,
      FMaskConv1d.apply_mask kind x x_len = Ok xm ∧
      fconvolution_1d xm (FMaskConv1d.W self) (FMaskConv1d.b self)
        (FMaskConv1d.stride self) (FMaskConv1d.pad self)
        (FMaskConv1d.dilate self) (FMaskConv1d.groups self) = Ok y ∧
      (∀ i len c t, x_len !! i = Some len → len ≤ Z.of_nat t →
         is_finite (fget x (bidx (fdim0 x) i) c t) →
         fget xm i c t = Finite 0) ∧
      (∀ i c t,
         (i < fdim0 xm)%nat → (c < fdim1 xm)%nat → (t < fdim2 xm)%nat →
         fget x (bidx (fdim0 x) i) c t = NonFinite →
         fget xm i c t = NonFinite) ∧
      (∀ i len c t, x_len !! i = Some len →
         (i < fdim0 x)%nat → (c < fdim1 x)%nat → (t < fdim2 x)%nat →
         Z.of_nat t < len → fget xm i c t = fget x i c t).
Proof.
  intros self kind x x_len y y_len Hmask H.
  apply forward_Ok_inv_float in H as (xm & Hm & Hc & _ & _).
  unfold FMaskConv1d.masked_input in Hm. rewrite Hmask in Hm.
  exists xm. split; [done|]. split; [done|]. split; [|split].
  - intros i len c t. by apply (apply_mask_zero_finite kind x x_len).
  - intros i c t. by apply (apply_mask_nan kind x x_len).
  - intros i len c t. by apply (apply_mask_keep_entry kind x x_len).
Qed.

(** An instance: with the valid length 2, the third frame of the masked
    input is zero for the input of ones and is not finite for the input
    whose third entry is not. *)
Lemma mask_conv_input_zero_from_valid_length_witness :
  FMaskConv1d.use_mask (FMaskConv1d.of_finite Reference.conv3) = true ∧
  (∃ y xm, FMaskConv1d.forward (FMaskConv1d.of_finite Reference.conv3) NdArray
             (finite_tensor Reference.ones_3) [2] = Ok (y, [2]) ∧
     FMaskConv1d.apply_mask NdArray (finite_tensor Reference.ones_3) [2] = Ok xm ∧
     fget xm 0 0 2 = Finite 0) ∧
  (∃ y xm, FMaskConv1d.forward (FMaskConv1d.of_finite Reference.conv3) NdArray
             Examples.ones_3_inf [2] = Ok (y, [2]) ∧
     FMaskConv1d.apply_mask NdArray Examples.ones_3_inf [2] = Ok xm ∧
     fget xm 0 0 2 = NonFinite).
Proof.
  split; [reflexivity|]. split.
  - eexists.
    assert (H : FMaskConv1d.forward (FMaskConv1d.of_finite Reference.conv3)
                  NdArray (finite_tensor Reference.ones_3) [2] = Ok (?[y], [2]))
      by (vm_compute; reflexivity).
    destruct (mask_conv_input_zero_from_valid_length
                (FMaskConv1d.of_finite Reference.conv3) _ _ _ _ _ eq_refl H)
      as (xm & Hm & _ & Hz & _).
    exists xm. split; [exact H|]. split; [exact Hm|].
    apply (Hz 0%nat 2 0%nat 2%nat eq_refl); [lia|]. by eexists.
  - eexists.
    assert (H : FMaskConv1d.forward (FMaskConv1d.of_finite Reference.conv3)
                  NdArray Examples.ones_3_inf [2] = Ok (?[y], [2]))
      by (vm_compute; reflexivity).
    destruct (mask_conv_input_zero_from_valid_length
                (FMaskConv1d.of_finite Reference.conv3) _ _ _ _ _ eq_refl H)
      as (xm & Hm & _ & _ & Hn & _).
    exists xm. split; [exact H|]. split; [exact Hm|].
    pose proof (apply_mask_entries _ _ _ _ Hm) as (B & HB & Hxm).
    injection HB as <-.
    apply (Hn 0%nat 0%nat 2%nat); rewrite ?Hxm; try (vm_compute; lia).
    reflexivity.
Defined.

(** X7.  Finite padding does not leak: with masking enabled and one
    length per item, two inputs of one shape that agree on every frame
    below the items' valid lengths and are finite from the valid lengths
    on give the same result, whatever finite values they hold there. *)
Theorem mask_conv_padding_does_not_leak :
  ∀ (self : FMaskConv1d.t) (kind : array_kind) (x x' : ftensor)
    (x_len : list Z),
    FMaskConv1d.use_mask self = true →
    fshape x = fshape x' →
    length x_len = fdim0 x →
    (∀ i n c t, x_len !! i = Some n → Z.of_nat t < n →
       fget x i c t = fget x' i c t) →
    (∀ i n c t, x_len !! i = Some n → n ≤ Z.of_nat t →
       is_finite (fget x i c t) ∧ is_finite (fget x' i c t)) →
    FMaskConv1d.forward self kind x x_len
    = FMaskConv1d.forward self kind x' x_len.
Proof.
  intros self kind x x' x_len Hm Hs Hlen Hagree Hfin.
  unfold FMaskConv1d.forward, FMaskConv1d.masked_input. rewrite Hm.
  by rewrite (apply_mask_agree_float kind x x' x_len Hs Hlen Hagree Hfin).
Qed.

(** An instance: the third frame, past the valid length 2, holds 1 in one
    input and 7 in the other. *)
Lemma mask_conv_padding_does_not_leak_witness :
  FMaskConv1d.forward (FMaskConv1d.of_finite Reference.conv3) NdArray
    (finite_tensor Reference.ones_3) [2]
  = FMaskConv1d.forward (FMaskConv1d.of_finite Reference.conv3) NdArray
      (finite_tensor Examples.ones_3_noisy) [2].
Proof.
  apply (mask_conv_padding_does_not_leak (FMaskConv1d.of_finite Reference.conv3)
           NdArray (finite_tensor Reference.ones_3)
           (finite_tensor Examples.ones_3_noisy) [2]);
    [reflexivity|reflexivity|reflexivity| |].
  - intros [|i] n c t Hi Ht; [|done]. injection Hi as <-.
    destruct t as [|[|t]]; [| |lia]; by destruct c as [|[|c]].
  - intros i n c t _ _. unfold finite_tensor.
    rewrite !fget_fmk_tensor. split; case_decide; by eexists.
Defined.

(** X9.  Without a bias, with finite weights and one length per item, the
    masked convolution is zero wherever the window starts in finite
    padding: the output of an item at frame [t] is zero when
    [t * stride - pad] is the item's valid length or more and the input
    of the item is finite from its valid length on. *)
Theorem mask_conv_zero_past_valid_window :
  ∀ (self : FMaskConv1d.t) (kind : array_kind) (x : ftensor) (x_len : list Z)
    (y : ftensor) (y_len : list Z),
    FMaskConv1d.use_mask self = true →
    FMaskConv1d.b self = None →
    (∀ o c j, is_finite (fget (FMaskConv1d.W self) o c j)) →
    length x_len = fdim0 x →
    FMaskConv1d.forward self kind x x_len = Ok (y, y_len) →
    ∀ (i : nat) (n : Z) (o t : nat),
      x_len !! i = Some n →
      (∀ c t', n ≤ Z.of_nat t' → is_finite (fget x i c t')) →
      n ≤ Z.of_nat t * FMaskConv1d.stride self - FMaskConv1d.pad self →
      fget y i o t = Finite 0.
Proof.
  intros self kind x x_len y y_len Hm Hb HW Hlen H i n o t Hi Hfin Ht.
  by apply (forward_zero_after_float self kind x x_len y y_len i n o t).
Qed.

(** An instance: with stride 2 and the valid length 3, the third output
    frame starts at the input frame 4. *)
Lemma mask_conv_zero_past_valid_window_witness :
  ∃ y,
    FMaskConv1d.forward Examples.fpointwise2 NdArray
      (finite_tensor Examples.ones_5) [3] = Ok (y, [2]) ∧
    fget y 0 0 2 = Finite 0.
Proof.
  eexists.
  match goal with |- ?A ∧ _ =>
    assert (H : A) by (vm_compute; reflexivity)
  end.
  split; [exact H|].
  assert (HW : ∀ o c j,
            is_finite (fget (FMaskConv1d.W Examples.fpointwise2) o c j)).
  { intros o c j. unfold Examples.fpointwise2, FMaskConv1d.of_finite,
      finite_tensor. simpl. rewrite fget_fmk_tensor. case_decide; by eexists. }
  refine (mask_conv_zero_past_valid_window Examples.fpointwise2 NdArray
            (finite_tensor Examples.ones_5) [3] _ [2] eq_refl eq_refl HW
            eq_refl H 0%nat 3 0%nat 2%nat eq_refl _ _).
  - intros c t' _. unfold finite_tensor. rewrite fget_fmk_tensor.
    case_decide; by eexists.
  - vm_compute. discriminate.
Defined.

(** X10.  A pointwise masked convolution without a bias and with finite
    weights, as [mask_conv1d1] builds it, keeps finite padding: where
    nothing wraps it returns the lengths [(n - 1) // stride + 1], the
    lengths themselves for the stride 1, and its output is zero at every
    frame from the returned length on for an input that is finite from
    the valid lengths on. *)
Theorem pointwise_conv_keeps_padding :
  ∀ (w : nat → nat → nat → fval) (bias : nat → fval)
    (in_channels out_channels : nat) (stride : Z) (groups : nat)
    (conv : FMaskConv1d.t) (kind : array_kind)
    (x : ftensor) (x_len : list Z) (y : ftensor) (y_len : list Z),
    FMaskConv1d.mask_conv1d1 w bias in_channels out_channels stride groups false
    = Ok conv →
    (∀ o c j, is_finite (w o c j)) →
    length x_len = fdim0 x →
    Forall (no_wrap 1 stride 0 1) x_len →
    (∀ i n c t, x_len !! i = Some n → n ≤ Z.of_nat t →
       is_finite (fget x i c t)) →
    FMaskConv1d.forward conv kind x x_len = Ok (y, y_len) →
    y_len = (λ n, (n - 1) / stride + 1) <$> x_len ∧
    (stride = 1 → y_len = x_len) ∧
    ∀ (i : nat) (n : Z) (o t : nat),
      y_len !! i = Some n → n ≤ Z.of_nat t → fget y i o t = Finite 0.
Proof.
  intros w bias cin cout stride groups conv kind x x_len y y_len Hc Hw Hlen
    Hnw Hfin H.
  unfold FMaskConv1d.mask_conv1d1, FMaskConv1d.init in Hc.
  case_decide as Hg; [done|]. case_decide as Hd; [|done].
  injection Hc as <-.
  pose proof H as H'.
  apply forward_Ok_inv_float in H' as (_ & _ & _ & Hl & Hs & _). simpl in Hs.
  rewrite new_len_no_wrap in Hl by done. simpl in Hl.
  assert (Hl' : y_len = (λ n, (n - 1) / stride + 1) <$> x_len).
  { rewrite Hl. apply list_fmap_ext. intros _ n _. simpl.
    f_equal. f_equal. lia. }
  split; [done|]. split.
  - intros ->. rewrite Hl'. rewrite <- (list_fmap_id x_len) at 2.
    apply list_fmap_ext. intros _ n _. simpl. rewrite Z.div_1_r. lia.
  - intros i n o t Hi Ht. rewrite Hl', list_lookup_fmap in Hi.
    destruct (x_len !! i) as [m|] eqn:Em; [|done]. injection Hi as <-.
    eapply (forward_zero_after_float _ kind x x_len y y_len i m o t);
      [| | |exact Hlen|exact H|exact Em| |]; [done|done|..].
    + intros o' c j. simpl. rewrite fget_fmk_tensor.
      case_decide; [apply Hw|by eexists].
    + intros c t' Ht'. by apply (Hfin i m).
    + simpl.
      pose proof (Z.div_mod (m - 1) stride ltac:(lia)).
      pose proof (Z.mod_pos_bound (m - 1) stride Hs). nia.
Qed.

(** An instance: stride 2, five frames of which three are valid. *)
Lemma pointwise_conv_keeps_padding_witness :
  ∃ conv y,
    FMaskConv1d.mask_conv1d1 (λ _ _ _, Finite 1) (λ _, Finite 0) 1 1 2 1 false
    = Ok conv ∧
    FMaskConv1d.forward conv NdArray (finite_tensor Examples.ones_5) [3]
    = Ok (y, [2]) ∧
    [2] = (λ n, (n - 1) / 2 + 1) <$> [3] ∧
    fget y 0 0 2 = Finite 0.
Proof.
  eexists _, _.
  match goal with |- ?A ∧ ?B ∧ _ =>
    assert (Hc : A) by (vm_compute; reflexivity);
    assert (H : B) by (vm_compute; reflexivity)
  end.
  split; [exact Hc|]. split; [exact H|].
  assert (HW : ∀ o c j : nat, is_finite ((λ _ _ _ : nat, Finite 1) o c j))
    by (intros; by eexists).
  assert (Hnw : Forall (no_wrap 1 2 0 1) [3]).
  { constructor; [|constructor].
    unfold no_wrap, in_int64. vm_compute. intuition discriminate. }
  assert (Hfin : ∀ i n c t, [3] !! i = Some n → n ≤ Z.of_nat t →
            is_finite (fget (finite_tensor Examples.ones_5) i c t)).
  { intros i n c t _ _. unfold finite_tensor. rewrite fget_fmk_tensor.
    case_decide; by eexists. }
  destruct (pointwise_conv_keeps_padding _ _ _ _ _ _ _ NdArray
              (finite_tensor Examples.ones_5) [3] _ [2]
              Hc HW eq_refl Hnw Hfin H) as (H1 & _ & H3).
  split; [exact H1|]. apply (H3 0%nat 2 0%nat 2%nat eq_refl). lia.
Defined.

(** ** The depthwise-separable block on 64-bit lengths *)

Section FloatBlockFacts.

Import FMaskConv1d.

Lemma init_Ok_inv_float w bias cin cout k s p d g use_bias m self :
  init w bias cin cout k s p d g use_bias m = Ok self →
  ksize self = k ∧ stride self = s ∧ pad self = p ∧ dilate self = d ∧
  use_mask self = m.
Proof.
  unfold init. case_decide; [done|]. case_decide; [|done].
  by intros [= <-].
Qed.

Lemma pointwise_out_len self (n : Z) :
  ksize self = 1 → stride self = 1 → pad self = 0 → dilate self = 1 →
  in_int64 n → out_len self n = n.
Proof.
  intros Hk Hs Hp Hd Hn. unfold out_len. rewrite Hk, Hs, Hp, Hd.
  destruct (decide (n = - 2 ^ 63)) as [->|Hne]; [by vm_compute|].
  rewrite (wrapped_formula 1 1 0 1 n); [|lia|].
  - rewrite Z.div_1_r. lia.
  - unfold no_wrap, in_int64 in *. rewrite Z.div_1_r.
    repeat split; lia.
Qed.

Lemma dws_call_lengths_float (blk : FDwsConvBlock1d.t) kind x x_len y y_len :
  FDwsConvBlock1d.call blk kind x x_len = Ok (y, y_len) →
  ∃ x1 x2,
    forward (FDwsConvBlock1d.dw_conv blk) kind x x_len
    = Ok (x1, new_len (FDwsConvBlock1d.dw_conv blk) x_len) ∧
    forward (FDwsConvBlock1d.pw_conv blk) FVariable x1
      (new_len (FDwsConvBlock1d.dw_conv blk) x_len) = Ok (x2, y_len) ∧
    y_len = new_len (FDwsConvBlock1d.pw_conv blk)
              (new_len (FDwsConvBlock1d.dw_conv blk) x_len).
Proof.
  unfold FDwsConvBlock1d.call.
  destruct (forward (FDwsConvBlock1d.dw_conv blk) kind x x_len)
    as [[x1 l1]|] eqn:E1; [|done].
  result_step.
  destruct (forward (FDwsConvBlock1d.pw_conv blk) FVariable x1 l1)
    as [[x2 l2]|] eqn:E2; [|done].
  result_step.
  destruct (if FDwsConvBlock1d.use_channel_shuffle blk then _ else _)
    as [x3|]; [|done].
  result_step. intros [= _ <-].
  pose proof E1 as (_ & _ & _ & -> & _)%forward_Ok_inv_float.
  pose proof E2 as (_ & _ & _ & -> & _)%forward_Ok_inv_float.
  by exists x1, x2.
Qed.

End FloatBlockFacts.

(** X14.  A depthwise-separable block returns the lengths of its
    depthwise convolution, for the lengths on which the 64-bit
    arithmetic of the depthwise convolution does not wrap:
    [(n + 2 * pad - dilate * (ksize - 1) - 1) // stride + 1] for every
    length [n].  The pointwise convolution, the shuffle, the
    normalization, the activation and the dropout leave them as they
    are. *)
Theorem dws_block_valid_length :
  ∀ (w_dw : nat → nat → nat → fval) (bias_dw : nat → fval)
    (w_pw : nat → nat → nat → fval) (bias_pw : nat → fval)
    (bn : ftensor → ftensor) (dropout : Q → ftensor → ftensor)
    (in_channels out_channels : nat) (ksize stride pad dilate : Z)
    (groups : nat) (use_bias use_bn : bool)
    (activation : option (ftensor → ftensor)) (dropout_rate : Q)
    (blk : FDwsConvBlock1d.t) (kind : array_kind) (x : ftensor)
    (x_len : list Z) (y : ftensor) (y_len : list Z),
    FDwsConvBlock1d.init w_dw bias_dw w_pw bias_pw bn dropout in_channels
      out_channels ksize stride pad dilate groups use_bias use_bn activation
      dropout_rate = Ok blk →
    Forall (no_wrap ksize stride pad dilate) x_len →
    FDwsConvBlock1d.call blk kind x x_len = Ok (y, y_len) →
    y_len = (λ n, (n + 2 * pad - dilate * (ksize - 1) - 1) / stride + 1) <$> x_len.
Proof.
  intros w_dw bias_dw w_pw bias_pw bn dropout cin cout k s p d g use_bias use_bn
    activation rate blk kind x x_len y y_len Hi Hnw Hc.
  unfold FDwsConvBlock1d.init in Hi.
  destruct (FMaskConv1d.init w_dw _ _ _ _ _ _ _ _ _ _) as [dw|] eqn:Edw;
    [|done].
  result_step in Hi.
  destruct (FMaskConv1d.mask_conv1d1 _ _ _ _ _ _ _) as [pw|] eqn:Epw; [|done].
  result_step in Hi.
  destruct (if bool_decide (1 < g)%nat then _ else _) as [sh|]; [|done].
  result_step in Hi. injection Hi as <-.
  apply init_Ok_inv_float in Edw as (Hk & Hs & Hp & Hd & Hm).
  apply init_Ok_inv_float in Epw as (Hk' & Hs' & Hp' & Hd' & Hm').
  apply dws_call_lengths_float in Hc as (x1 & x2 & E1 & E2 & ->). simpl in *.
  apply forward_Ok_inv_float in E1 as (_ & _ & _ & _ & Hpos & _).
  rewrite (new_len_no_wrap dw);
    [|exact Hm|exact Hpos|by rewrite Hk, Hs, Hp, Hd].
  rewrite Hk, Hs, Hp, Hd.
  unfold FMaskConv1d.new_len at 1. rewrite Hm'.
  rewrite <- list_fmap_compose. apply Forall_fmap_ext_1.
  eapply Forall_impl; [exact Hnw|]. intros n Hn. simpl.
  apply pointwise_out_len; try done.
  by destruct Hn as (_ & _ & _ & _ & _ & _ & _ & Hn).
Qed.

(** An instance: two channels in two groups, a kernel of size 3 with the
    padding 1, and three frames of which two are valid. *)
Lemma dws_block_valid_length_witness :
  ∃ blk y,
    FDwsConvBlock1d.init (λ _ _ _, Finite 1) (λ _, Finite 0)
      (λ _ _ _, Finite 1) (λ _, Finite 0) id (λ _, id)
      2 2 3 1 1 1 2 false false None 0 = Ok blk ∧
    FDwsConvBlock1d.call blk NdArray (finite_tensor Examples.channels_2) [2]
    = Ok (y, [2]) ∧
    [2] = (λ n, (n + 2 * 1 - 1 * (3 - 1) - 1) / 1 + 1) <$> [2].
Proof.
  eexists _, _.
  match goal with |- ?A ∧ ?B ∧ _ =>
    assert (H1 : A) by (vm_compute; reflexivity);
    assert (H2 : B) by (vm_compute; reflexivity)
  end.
  split; [exact H1|]. split; [exact H2|].
  assert (Hnw : Forall (no_wrap 3 1 1 1) [2]).
  { constructor; [|constructor].
    unfold no_wrap, in_int64. vm_compute. intuition discriminate. }
  exact (dws_block_valid_length _ _ _ _ _ _ _ _ _ _ _ _ _ _ _ _ _ _ NdArray
           (finite_tensor Examples.channels_2) [2] _ [2] H1 Hnw H2).
Defined.

(** ** The two models of the masked convolution

    [MaskConv1d] takes the entries of an array as exact numbers and the
    lengths as integers; [FMaskConv1d] has entries that may be non-finite
    and lengths of 64 bits.  On arrays whose entries are finite and
    lengths whose computation does not wrap, the second does what the
    first does. *)

Section ModelsAgree.

Lemma fdim0_finite_tensor x : fdim0 (finite_tensor x) = dim0 x.
Proof. done. Qed.

Lemma fdim1_finite_tensor x : fdim1 (finite_tensor x) = dim1 x.
Proof. done. Qed.

Lemma fdim2_finite_tensor x : fdim2 (finite_tensor x) = dim2 x.
Proof. done. Qed.

Lemma get_outside x i c t :
  canonical x → ¬ ((i < dim0 x)%nat ∧ (c < dim1 x)%nat ∧ (t < dim2 x)%nat) →
  get x i c t = 0.
Proof.
  intros Hc Hout.
  pose proof (f_equal (λ y, get y i c t) Hc) as E. simpl in E.
  rewrite get_mk_tensor in E. by rewrite decide_False in E.
Qed.

Lemma fget_finite_tensor x i c t :
  canonical x → fget (finite_tensor x) i c t = Finite (get x i c t).
Proof.
  intros Hc. unfold finite_tensor. rewrite fget_fmk_tensor.
  case_decide; [done|]. by rewrite get_outside.
Qed.

Lemma finite_tensor_mk_tensor B C T f :
  finite_tensor (mk_tensor B C T f) = fmk_tensor B C T (λ i c t, Finite (f i c t)).
Proof.
  unfold finite_tensor.
  change (dim0 (mk_tensor B C T f)) with B.
  change (dim1 (mk_tensor B C T f)) with C.
  change (dim2 (mk_tensor B C T f)) with T.
  apply fmk_tensor_ext. intros i c t Hi Hc Ht. by rewrite get_mk_tensor_in.
Qed.

Lemma fsum_upto_ext (n : nat) (f g : nat → fval) :
  (∀ i, (i < n)%nat → f i = g i) → fsum_upto n f = fsum_upto n g.
Proof.
  intros H. unfold fsum_upto.
  assert (Hl : ∀ l, Forall (λ i, (i < n)%nat) l →
                 foldr (λ i acc, fadd (f i) acc) (Finite 0) l
                 = foldr (λ i acc, fadd (g i) acc) (Finite 0) l).
  { induction 1 as [|i l Hi _ IH]; simpl; [done|]. by rewrite H, IH. }
  apply Hl, Forall_forall. intros i Hi. apply elem_of_seq in Hi. lia.
Qed.

Lemma fsum_upto_finite (n : nat) (f : nat → Z) :
  fsum_upto n (λ i, Finite (f i)) = Finite (sum_upto n f).
Proof.
  unfold fsum_upto, sum_upto. generalize (seq 0 n). intros l.
  induction l as [|i l IH]; cbn [foldr]; [done|]. by rewrite IH.
Qed.

Lemma fget_padded_finite_tensor x i c t :
  canonical x →
  fget_padded (finite_tensor x) i c t = Finite (get_padded x i c t).
Proof.
  intros Hc. unfold fget_padded, get_padded. rewrite fdim2_finite_tensor.
  case_decide; [|done]. by apply fget_finite_tensor.
Qed.

(** The masking step. *)
Lemma apply_mask_finite kind x x_len :
  canonical x →
  FMaskConv1d.apply_mask kind (finite_tensor x) x_len
  = finite_tensor <$> MaskConv1d.apply_mask kind x x_len.
Proof.
  intros Hc.
  destruct kind; simpl;
    unfold FMaskConv1d.imul_mask, MaskConv1d.imul_mask,
      FMaskConv1d.mul_mask, MaskConv1d.mul_mask;
    rewrite fdim0_finite_tensor, fdim1_finite_tensor, fdim2_finite_tensor;
    destruct (broadcast_dim (dim0 x) (length x_len)) as [B|]; try done;
    result_step.
  - case_decide; [|done]. simpl. f_equal.
    rewrite finite_tensor_mk_tensor. apply fmk_tensor_ext.
    intros i c t _ _ _. by rewrite fget_finite_tensor.
  - simpl. f_equal.
    rewrite finite_tensor_mk_tensor. apply fmk_tensor_ext.
    intros i c t _ _ _. by rewrite fget_finite_tensor.
Qed.

Lemma apply_mask_canonical kind x x_len xm :
  MaskConv1d.apply_mask kind x x_len = Ok xm → canonical xm.
Proof.
  destruct kind; simpl;
    unfold MaskConv1d.imul_mask, MaskConv1d.mul_mask;
    destruct (broadcast_dim (dim0 x) (length x_len)) as [B|]; try done;
    result_step.
  - case_decide; [|done]. intros [= <-]. apply canonical_mk_tensor.
  - intros [= <-]. apply canonical_mk_tensor.
Qed.

(** The convolution. *)
Lemma convolution_1d_finite x W b stride pad dilate groups :
  canonical x → canonical W →
  fconvolution_1d (finite_tensor x) (finite_tensor W)
    ((λ l : list Z, Finite <$> l) <$> b) stride pad dilate groups
  = finite_tensor <$> convolution_1d x W b stride pad dilate groups.
Proof.
  intros Hx HW. unfold fconvolution_1d, convolution_1d.
  rewrite !fdim0_finite_tensor, !fdim1_finite_tensor, !fdim2_finite_tensor.
  case_decide as Hcond; [|done]. simpl. f_equal.
  rewrite finite_tensor_mk_tensor. apply fmk_tensor_ext.
  intros i o t _ _ _.
  assert (Hb : default (Finite 0)
                 (((λ l : list Z, Finite <$> l) <$> b) ≫= (λ b', b' !! o))
               = Finite (default 0 (b ≫= (λ b', b' !! o)))).
  { destruct b as [l|]; simpl; [|done]. rewrite list_lookup_fmap.
    by destruct (l !! o). }
  rewrite Hb.
  rewrite (fsum_upto_ext _ _ (λ c, Finite (sum_upto (dim2 W) (λ j,
             get W o c j *
             get_padded x i (o / (dim0 W / groups) * dim1 W + c)
               (Z.of_nat t * stride + Z.of_nat j * dilate - pad))))).
  - by rewrite fsum_upto_finite.
  - intros c _.
    rewrite (fsum_upto_ext _ _ (λ j, Finite (
               get W o c j *
               get_padded x i (o / (dim0 W / groups) * dim1 W + c)
                 (Z.of_nat t * stride + Z.of_nat j * dilate - pad)))).
    + by rewrite fsum_upto_finite.
    + intros j _. by rewrite fget_finite_tensor, fget_padded_finite_tensor.
Qed.

(** The call: on a finite input and lengths that do not wrap, the model
    with non-finite entries and 64-bit lengths returns what the model on
    exact numbers returns. *)
Lemma forward_finite (self : MaskConv1d.t) kind x x_len :
  canonical x → canonical (MaskConv1d.W self) →
  (MaskConv1d.use_mask self = true →
   Forall (no_wrap (MaskConv1d.ksize self) (MaskConv1d.stride self)
             (MaskConv1d.pad self) (MaskConv1d.dilate self)) x_len) →
  FMaskConv1d.forward (FMaskConv1d.of_finite self) kind (finite_tensor x) x_len
  = (λ r, (finite_tensor r.1, r.2)) <$> MaskConv1d.forward self kind x x_len.
Proof.
  intros Hx HW Hnw.
  unfold FMaskConv1d.forward, MaskConv1d.forward.
  assert (Hm : FMaskConv1d.masked_input (FMaskConv1d.of_finite self) kind
                 (finite_tensor x) x_len
               = finite_tensor <$> MaskConv1d.masked_input self kind x x_len).
  { unfold FMaskConv1d.masked_input, MaskConv1d.masked_input. simpl.
    destruct (MaskConv1d.use_mask self); [|done]. by apply apply_mask_finite. }
  rewrite Hm.
  destruct (MaskConv1d.masked_input self kind x x_len) as [xm|] eqn:Em; [|done].
  assert (Hxm : canonical xm).
  { unfold MaskConv1d.masked_input in Em.
    destruct (MaskConv1d.use_mask self).
    - by apply (apply_mask_canonical kind x x_len).
    - by injection Em as <-. }
  simpl. cbn [mbind result_bind].
  change (FMaskConv1d.W (FMaskConv1d.of_finite self))
    with (finite_tensor (MaskConv1d.W self)).
  change (FMaskConv1d.b (FMaskConv1d.of_finite self))
    with ((λ l : list Z, Finite <$> l) <$> MaskConv1d.b self).
  change (FMaskConv1d.stride (FMaskConv1d.of_finite self))
    with (MaskConv1d.stride self).
  change (FMaskConv1d.pad (FMaskConv1d.of_finite self))
    with (MaskConv1d.pad self).
  change (FMaskConv1d.dilate (FMaskConv1d.of_finite self))
    with (MaskConv1d.dilate self).
  change (FMaskConv1d.groups (FMaskConv1d.of_finite self))
    with (MaskConv1d.groups self).
  rewrite convolution_1d_finite by done.
  destruct (convolution_1d xm _ _ _ _ _ _) as [y|] eqn:Ec; [|done].
  simpl. do 2 f_equal.
  assert (Hs : 0 < MaskConv1d.stride self).
  { unfold convolution_1d in Ec. case_decide; [tauto|done]. }
  unfold FMaskConv1d.new_len, MaskConv1d.new_len. simpl.
  destruct (MaskConv1d.use_mask self) eqn:Eu; [|done].
  apply Forall_fmap_ext_1. eapply Forall_impl; [exact (Hnw eq_refl)|].
  intros n Hn. unfold FMaskConv1d.out_len, MaskConv1d.out_len. simpl.
  by apply wrapped_formula.
Qed.

End ModelsAgree.
